(** * beta-firmware-API: the scraper and the signing check of [scraper.py]

    A shallow embedding of [src/scraper.py].  The coroutines of the source
    are written as programs over the requests they await (database
    statements, HTTP requests, archive reads); a sequential executor runs one
    coroutine against a store and a network, and a small-step relation
    interleaves the tasks of an [asyncio.TaskGroup] under the module's
    semaphore. *)

From stdpp Require Import gmap strings list relations pretty.
From Stdlib Require Import ZArith Ascii String.
From Stdlib.Strings Require Import Byte.

Open Scope string_scope.
Open Scope list_scope.
Open Scope Z_scope.

(* ===================================================================== *)
(** * Python values and exceptions                                        *)
(* ===================================================================== *)

Abbreviation bytes := (list byte).

#[global] Instance byte_eq_decision : EqDecision byte := byte_eq_dec.

(** The exceptions that the modelled code can see.  [ClientError] stands for
    any failure of the transport ([aiohttp], [requests], [zipfile]). *)
Inductive exn : Type :=
| IntegrityError
| OverflowError
| KeyError (key : string)
| IndexError
| ValueError
| TypeError
| StopIteration
| HTTPException (status_code : Z) (detail : string)
| ClientError (what : string).

#[global] Instance exn_eq_decision : EqDecision exn.
Proof. solve_decision. Defined.

(** The outcome of a call: an exception or a value. *)
Abbreviation result A := (exn + A)%type.

(** A value held in a Python [dict] that is sent to or returned from the
    signing check. *)
Inductive pyval : Type :=
| PyStr (s : string)
| PyInt (n : Z)
| PyBool (b : bool)
| PyBytes (b : bytes).

#[global] Instance pyval_eq_decision : EqDecision pyval.
Proof. solve_decision. Defined.

(* ===================================================================== *)
(** * Strings: [in], SQLite's LIKE, [int(_, 16)], [pathlib]               *)
(* ===================================================================== *)

Module Str.

(** [needle in hay] on Python strings. *)
Fixpoint contains (needle hay : string) : bool :=
  String.prefix needle hay ||
  match hay with
  | EmptyString => false
  | String _ hay' => contains needle hay'
  end.

(** SQLite folds the case of the 26 ASCII letters only. *)
Definition lower (c : ascii) : ascii :=
  let n := nat_of_ascii c in
  if ((65 <=? n) && (n <=? 90))%nat then ascii_of_nat (n + 32) else c.

(** [s LIKE p] without an ESCAPE clause: [%] matches any run of
    characters, [_] one character, anything else itself up to ASCII
    case. *)
Fixpoint like (p : string) : string → bool :=
  match p with
  | EmptyString => fun s => match s with EmptyString => true | _ => false end
  | String c p' =>
      if Ascii.eqb c "%" then
        fix skip (s : string) : bool :=
          like p' s ||
          match s with
          | EmptyString => false
          | String _ s' => skip s'
          end
      else
        fun s =>
          match s with
          | EmptyString => false
          | String d s' =>
              (Ascii.eqb c "_" || Ascii.eqb (lower c) (lower d)) && like p' s'
          end
  end.

(** The pattern [f'%{x}%'] the source builds for its three LIKE tests. *)
Definition around (x : string) : string := ("%" ++ x ++ "%")%string.

(** [', '.join(l)] *)
Definition join (sep : string) (l : list string) : string := String.concat sep l.

Definition hex_digit (c : ascii) : option Z :=
  let n := Z.of_nat (nat_of_ascii c) in
  if (48 <=? n) && (n <=? 57) then Some (n - 48)
  else if (97 <=? n) && (n <=? 102) then Some (n - 87)
  else if (65 <=? n) && (n <=? 70) then Some (n - 55)
  else None.

Definition is_space (c : ascii) : bool :=
  let n := nat_of_ascii c in
  ((9 <=? n) && (n <=? 13) || (28 <=? n) && (n <=? 32))%nat.

Fixpoint lstrip (s : string) : string :=
  match s with
  | String c s' => if is_space c then lstrip s' else s
  | EmptyString => s
  end.

(** The digits of a literal: hex digits, single underscores allowed
    between two digits.  [acc] is the value read so far, [after_digit]
    tells whether the previous character was a digit; trailing white space
    ends the literal. *)
Fixpoint digits16 (acc : Z) (after_digit : bool) (s : string) : option Z :=
  match s with
  | EmptyString => if after_digit then Some acc else None
  | String c s' =>
      match hex_digit c with
      | Some d => digits16 (16 * acc + d) true s'
      | None =>
          if Ascii.eqb c "_" then
            if after_digit then digits16 acc false s' else None
          else if is_space c then
            if after_digit
            then match lstrip s' with EmptyString => Some acc | _ => None end
            else None
          else None
      end
  end.

Definition strip_0x (s : string) : string :=
  match s with
  | String "0" (String "x" (String "_" s')) => s'
  | String "0" (String "X" (String "_" s')) => s'
  | String "0" (String "x" s') => s'
  | String "0" (String "X" s') => s'
  | _ => s
  end.

(** [int(s, 16)] on an ASCII string: optional white space, an optional
    sign, an optional [0x] prefix, then the digits; [ValueError]
    otherwise. *)
Definition int16 (s : string) : result Z :=
  let s := lstrip s in
  let '(neg, s) :=
    match s with
    | String "-" s' => (true, s')
    | String "+" s' => (false, s')
    | _ => (false, s)
    end in
  match digits16 0 false (strip_0x s) with
  | Some n => inr (if neg : bool then - n else n)
  | None => inl ValueError
  end.

End Str.

(** [pathlib.PurePosixPath]: a root and the list of its segments. *)
Module Path.

Record t := mk { root : string; parts : list string }.

(** Split at [/], keeping empty segments for the parser to drop. *)
Fixpoint split_slash (cur : string) (s : string) : list string :=
  match s with
  | EmptyString => [String.rev cur]
  | String c s' =>
      if Ascii.eqb c "/" then String.rev cur :: split_slash "" s'
      else split_slash (String c cur) s'
  end.

(** [posixpath.splitroot]: one leading slash, exactly two, or three and
    more (which count as one). *)
Definition splitroot (p : string) : string * string :=
  match p with
  | String "/" (String "/" (String "/" _ as rest)) => ("/", rest)
  | String "/" (String "/" rest) => ("//", rest)
  | String "/" rest => ("/", rest)
  | _ => ("", p)
  end.

Definition keep_segment (x : string) : bool :=
  negb (String.eqb x "") && negb (String.eqb x ".").

(** [Path(p)] *)
Definition parse (p : string) : t :=
  let '(r, rel) := splitroot p in
  mk r (List.filter keep_segment (split_slash "" rel)).

(** [str(path)] *)
Definition render (p : t) : string :=
  match parts p, root p with
  | [], "" => "."
  | _, _ => (root p ++ String.concat "/" (parts p))%string
  end.

(** [path.parents[0]]: [IndexError] when the path has no segment. *)
Definition parent (p : t) : result t :=
  match parts p with
  | [] => inl IndexError
  | _ => inr (mk (root p) (removelast (parts p)))
  end.

(** [path / name] for a plain file name. *)
Definition join (p : t) (name : string) : t :=
  mk (root p) (parts p ++ [name]).

End Path.

(* ===================================================================== *)
(** * The store: the three tables of [betas.db]                           *)
(* ===================================================================== *)

(** Rows carry the values the source binds: text for the TEXT columns,
    integers for [chip_id] and [board_id], bytes for the BLOB.  [fw_size]
    keeps the [Content-Length] header as it was received. *)
Record device_row := DeviceRow {
  dev_identifier : string;
  dev_boardconfig : string;
}.

Record firmware_row := FirmwareRow {
  fw_version : string;
  fw_buildid : string;
  fw_url : string;
  fw_size : string;
  fw_devices : string;
}.

Record identity_row := IdentityRow {
  bm_boardconfig : string;
  bm_buildid : string;
  bm_chip_id : Z;
  bm_board_id : Z;
  bm_unique_buildid : bytes;
}.

#[global] Instance device_row_eq_decision : EqDecision device_row.
Proof. solve_decision. Defined.
#[global] Instance firmware_row_eq_decision : EqDecision firmware_row.
Proof. solve_decision. Defined.
#[global] Instance identity_row_eq_decision : EqDecision identity_row.
Proof. solve_decision. Defined.

(** Tables are kept in insertion (rowid) order. *)
Record DB := mkDB {
  devices : list device_row;
  firmwares : list firmware_row;
  buildmanifest : list identity_row;
}.

Module Sql.

(** [identifier TEXT UNIQUE, boardconfig TEXT UNIQUE] *)
Definition device_clash (r x : device_row) : Prop :=
  dev_identifier x = dev_identifier r ∨ dev_boardconfig x = dev_boardconfig r.

(** [UNIQUE INDEX firmware_for_devices ON firmwares(buildid, devices)] *)
Definition firmware_clash (r x : firmware_row) : Prop :=
  fw_buildid x = fw_buildid r ∧ fw_devices x = fw_devices r.

(** [unique_buildid BLOB UNIQUE] and
    [UNIQUE INDEX unique_buildid_for_device_firmware ON
     buildmanifest(boardconfig, buildid)] *)
Definition identity_clash (r x : identity_row) : Prop :=
  bm_unique_buildid x = bm_unique_buildid r ∨
  (bm_boardconfig x = bm_boardconfig r ∧ bm_buildid x = bm_buildid r).

#[global] Instance device_clash_dec r x : Decision (device_clash r x).
Proof. unfold device_clash. apply _. Defined.
#[global] Instance firmware_clash_dec r x : Decision (firmware_clash r x).
Proof. unfold firmware_clash. apply _. Defined.
#[global] Instance identity_clash_dec r x : Decision (identity_clash r x).
Proof. unfold identity_clash. apply _. Defined.

(** An INTEGER column holds a signed 64-bit value; the binding refuses
    any other Python int. *)
Definition fits_int64 (n : Z) : bool :=
  (- 2 ^ 63 <=? n) && (n <? 2 ^ 63).

(** [INSERT INTO devices(identifier, boardconfig) VALUES(?, ?)] *)
Definition insert_device (r : device_row) (d : DB) : result DB :=
  if decide (Exists (device_clash r) (devices d)) then inl IntegrityError
  else inr (mkDB (devices d ++ [r]) (firmwares d) (buildmanifest d)).

(** [INSERT INTO firmwares(version, buildid, url, size, devices)
     VALUES(?, ?, ?, ?, ?)] *)
Definition insert_firmware (r : firmware_row) (d : DB) : result DB :=
  if decide (Exists (firmware_clash r) (firmwares d)) then inl IntegrityError
  else inr (mkDB (devices d) (firmwares d ++ [r]) (buildmanifest d)).

(** [INSERT INTO buildmanifest(boardconfig, buildid, chip_id, board_id,
     unique_buildid) VALUES(?, ?, ?, ?, ?)] *)
Definition insert_identity (r : identity_row) (d : DB) : result DB :=
  if negb (fits_int64 (bm_chip_id r) && fits_int64 (bm_board_id r))
  then inl OverflowError
  else if decide (Exists (identity_clash r) (buildmanifest d))
  then inl IntegrityError
  else inr (mkDB (devices d) (firmwares d) (buildmanifest d ++ [r])).

(** The three INSERT statements of the source with their bound values. *)
Inductive insertion : Type :=
| INTO_devices (r : device_row)
| INTO_firmwares (r : firmware_row)
| INTO_buildmanifest (r : identity_row).

Definition insert (i : insertion) (d : DB) : result DB :=
  match i with
  | INTO_devices r => insert_device r d
  | INTO_firmwares r => insert_firmware r d
  | INTO_buildmanifest r => insert_identity r d
  end.

(** A bound parameter compared with a TEXT column takes the column's
    affinity: an integer is compared through its decimal text, a blob is
    never equal to text. *)
Definition as_text (v : pyval) : result (option string) :=
  match v with
  | PyStr s => inr (Some s)
  | PyInt n => if fits_int64 n then inr (Some (pretty n)) else inl OverflowError
  | PyBool b => inr (Some (if b then "1" else "0"))
  | PyBytes _ => inr None
  end.

(** [SELECT boardconfig FROM devices WHERE identifier LIKE ?], then
    [fetchone()]. *)
Definition select_boardconfig (pattern : string) (d : DB) : option string :=
  dev_boardconfig <$>
    List.find (λ r, Str.like pattern (dev_identifier r)) (devices d).

Definition identity_matches (pattern : string) (buildid : option string)
    (r : identity_row) : bool :=
  Str.like pattern (bm_boardconfig r) &&
  bool_decide (buildid = Some (bm_buildid r)).

(** [SELECT chip_id, board_id, unique_buildid FROM buildmanifest
     WHERE boardconfig LIKE ? AND buildid = ?], then [fetchone()]. *)
Definition select_identity (pattern : string) (buildid : option string)
    (d : DB) : option (Z * Z * bytes) :=
  (λ r, (bm_chip_id r, bm_board_id r, bm_unique_buildid r)) <$>
    List.find (identity_matches pattern buildid) (buildmanifest d).

Definition firmware_matches (buildid : option string) (pattern : string)
    (r : firmware_row) : bool :=
  bool_decide (buildid = Some (fw_buildid r)) &&
  Str.like pattern (fw_devices r).

(** [DELETE FROM firmwares WHERE buildid = ? AND devices LIKE ?] *)
Definition delete_firmwares (buildid : option string) (pattern : string)
    (d : DB) : DB :=
  mkDB (devices d)
       (List.filter (λ r, negb (firmware_matches buildid pattern r)) (firmwares d))
       (buildmanifest d).

(** [SELECT version, buildid, size, url FROM firmwares
     WHERE devices LIKE ?], then [fetchall()]. *)
Definition select_firmwares (pattern : string) (d : DB) : list firmware_row :=
  List.filter (λ r, Str.like pattern (fw_devices r)) (firmwares d).

End Sql.

Export Sql (insertion, INTO_devices, INTO_firmwares, INTO_buildmanifest).

(* ===================================================================== *)
(** * The upstream documents                                              *)
(* ===================================================================== *)

(** The catalog, with the fields of the JSON document that the source
    reads; a field whose presence the source tests is an [option]. *)
Record link := Link { link_url : string }.

Record source := Source {
  src_type : string;
  src_links : list link;
  src_deviceMap : list string;
}.

Record firm := Firm {
  osStr : string;
  beta : bool;
  rc : bool;
  sources : option (list source);
  build : string;
  version : string;
}.

Record device := Device {
  key : string;
  arch : option string;
  type : string;
  board : list string;
}.

Record catalog := Catalog {
  ios : list firm;
  device_list : list device;
}.

(** One entry of [manifest['BuildIdentities']]. *)
Record build_identity := BuildIdentity {
  RestoreBehavior : option string;
  DeviceClass : string;
  BuildNumber : string;
  ApChipID : string;
  ApBoardID : string;
  UniqueBuildID : bytes;
}.

(** [urllib.parse.ParseResult] *)
Record ParseResult := mkParseResult {
  scheme : string;
  netloc : string;
  path : string;
  params : string;
  query : string;
  fragment : string;
}.

(** The library functions the source calls and this development does not
    look into. *)
Record pylib := PyLib {
  urlparse : string → result ParseResult;
  geturl : ParseResult → string;
  plistlib_loads : bytes → result (list build_identity);
}.

(** What the network answers. *)
Record catalog_response := CatalogResponse {
  cat_status : Z;
  cat_reason : string;
  cat_json : result catalog;
}.

Record head_response := HeadResponse {
  head_status : Z;
  head_content_length : option string;
}.

Record get_response := GetResponse {
  get_status : Z;
  get_read : result bytes;
}.

(* ===================================================================== *)
(** * Coroutines as programs over what they wait for                      *)
(* ===================================================================== *)

(** A reference to a [dict] object on the Python heap. *)
Abbreviation ref := nat.

(** The requests of a coroutine, indexed by the type of their answer. *)
Inductive event : Type → Type :=
(* aiosqlite *)
| INSERT (i : insertion) : event (result unit)
| SELECT_boardconfig (pattern : string) : event (option string)
| SELECT_identity (pattern : string) (buildid : pyval)
    : event (result (option (Z * Z * bytes)))
| DELETE_firmwares (buildid : pyval) (pattern : string) : event (result unit)
| COMMIT : event unit
(* aiohttp *)
| GET_catalog : event (result catalog_response)
| HEAD (url : string) : event (result head_response)
| GET (url : string) : event (result get_response)
| POST_tss (request : gmap string pyval) : event (result string)
(* remotezip, on a worker thread *)
| ZIP_namelist (url : string) : event (result (list string))
| ZIP_read (url : string) (name : string) : event (result bytes)
(* dict objects shared with the caller *)
| DICT_get (d : ref) (key : string) : event (result pyval)
| DICT_set (d : ref) (key : string) (v : pyval) : event unit.

(** The requests that leave the process. *)
Definition is_network {X} (ev : event X) : bool :=
  match ev with
  | GET_catalog | HEAD _ | GET _ | POST_tss _ | ZIP_namelist _ | ZIP_read _ _ => true
  | _ => false
  end.

Inductive prog (A : Type) : Type :=
| Ret (a : A)
| Raise (e : exn)
| Await {X : Type} (ev : event X) (k : X → prog A).

Arguments Ret {A} a.
Arguments Raise {A} e.
Arguments Await {A X} ev k.

Fixpoint bind {A B} (p : prog A) (f : A → prog B) : prog B :=
  match p with
  | Ret a => f a
  | Raise e => Raise e
  | Await ev k => Await ev (λ x, bind (k x) f)
  end.

Declare Scope prog_scope.
Delimit Scope prog_scope with prog.
Bind Scope prog_scope with prog.

Notation "x ← y ; z" := (bind y (λ x, z)) (only parsing) : prog_scope.
Notation "y ;; z" := (bind y (λ _, z)) (only parsing) : prog_scope.
Open Scope prog_scope.

(** [try: p  except: h] *)
Fixpoint try_except {A} (p : prog A) (h : exn → prog A) : prog A :=
  match p with
  | Ret a => Ret a
  | Raise e => h e
  | Await ev k => Await ev (λ x, try_except (k x) h)
  end.

(** [try: p  except aiosqlite.IntegrityError: h] *)
Definition except_IntegrityError {A} (p : prog A) (h : prog A) : prog A :=
  try_except p (λ e, if decide (e = IntegrityError) then h else Raise e).

(** A request whose answer is returned as it is. *)
Definition ask {X} (ev : event X) : prog X := Await ev Ret.

(** A value or the exception it stands for. *)
Definition lift {A} (r : result A) : prog A :=
  match r with
  | inl e => Raise e
  | inr a => Ret a
  end.

(** A request that raises when its answer is an exception. *)
Definition await {X} (ev : event (result X)) : prog X := Await ev lift.

(* ===================================================================== *)
(** * The machine: store, network, one step of a request                  *)
(* ===================================================================== *)

Record store := Store {
  db : DB;
  heap : gmap ref (gmap string pyval);
}.

(** The answers of the outside world during one pass. *)
Record world := World {
  net_catalog : result catalog_response;
  net_head : string → result head_response;
  net_get : string → result get_response;
  net_zip_namelist : string → result (list string);
  net_zip_read : string → string → result bytes;
  net_tss : gmap string pyval → result string;
}.

Definition with_db (s : store) (d : DB) : store := Store d (heap s).

(** An INSERT either extends its table or raises and leaves it alone. *)
Definition run_insert (i : insertion) (s : store) : store * result unit :=
  match Sql.insert i (db s) with
  | inl e => (s, inl e)
  | inr d => (with_db s d, inr tt)
  end.

Definition dict_of (s : store) (d : ref) : gmap string pyval :=
  default ∅ (heap s !! d).

Definition handle (w : world) {X} (ev : event X) (s : store) : store * X :=
  match ev in event X return store * X with
  | INSERT i => run_insert i s
  | SELECT_boardconfig pattern => (s, Sql.select_boardconfig pattern (db s))
  | SELECT_identity pattern buildid =>
      (s, match Sql.as_text buildid with
          | inl e => inl e
          | inr b => inr (Sql.select_identity pattern b (db s))
          end)
  | DELETE_firmwares buildid pattern =>
      match Sql.as_text buildid with
      | inl e => (s, inl e)
      | inr b => (with_db s (Sql.delete_firmwares b pattern (db s)), inr tt)
      end
  | COMMIT => (s, tt)
  | GET_catalog => (s, net_catalog w)
  | HEAD url => (s, net_head w url)
  | GET url => (s, net_get w url)
  | POST_tss request => (s, net_tss w request)
  | ZIP_namelist url => (s, net_zip_namelist w url)
  | ZIP_read url name => (s, net_zip_read w url name)
  | DICT_get d k =>
      (s, match dict_of s d !! k with
          | Some v => inr v
          | None => inl (KeyError k)
          end)
  | DICT_set d k v =>
      (Store (db s) (<[d := <[k := v]> (dict_of s d)]> (heap s)), tt)
  end.

(** Running one coroutine alone, from its first request to its return. *)
Fixpoint exec (w : world) {A} (p : prog A) (s : store) : store * result A :=
  match p with
  | Ret a => (s, inr a)
  | Raise e => (s, inl e)
  | Await ev k => let '(s', x) := handle w ev s in exec w (k x) s'
  end.

(* ===================================================================== *)
(** * The event loop: tasks under [HTTP_SEMAPHORE]                        *)
(* ===================================================================== *)

(** [HTTP_SEMAPHORE = asyncio.Semaphore(100)] *)
Definition HTTP_SEMAPHORE : nat := 100.

(** A coroutine handed to the event loop: its body runs either as it is or
    inside [async with HTTP_SEMAPHORE:]. *)
Inductive coroutine (A : Type) : Type :=
| Unguarded (body : prog A)
| UnderSemaphore (body : prog A).

Arguments Unguarded {A} body.
Arguments UnderSemaphore {A} body.

(** Where a task stands with respect to the semaphore: outside of any
    [async with] block, waiting to enter one, or inside it with a permit. *)
Inductive mode : Type := Outside | Queued | Holding.

#[global] Instance mode_eq_decision : EqDecision mode.
Proof. solve_decision. Defined.

(** A task: what is left of its coroutine, and whether the request at its
    head has been sent and not yet answered. *)
Record task := Task {
  task_type : Type;
  task_mode : mode;
  awaiting : bool;
  code : prog task_type;
}.

Definition spawn {A} (c : coroutine A) : task :=
  match c with
  | Unguarded body => Task A Outside false body
  | UnderSemaphore body => Task A Queued false body
  end.

Record config := Config {
  cfg_store : store;
  permits : nat;
  pool : list task;
}.

(** One step of one task.  A queued task enters when a permit is free; a
    network request is sent, then answered; any other request is served at
    once; a body that has returned or raised leaves the [async with] block
    and gives its permit back. *)
Definition task_step (w : world) (s : store) (n : nat) (t : task)
    : option (store * nat * task) :=
  match t with
  | Task A Queued _ p =>
      match n with
      | S n' => Some (s, n', Task A Holding false p)
      | O => None
      end
  | Task A m aw (Await ev k) =>
      if is_network ev && negb aw then Some (s, n, Task A m true (Await ev k))
      else let '(s', x) := handle w ev s in Some (s', n, Task A m false (k x))
  | Task A Holding _ p => Some (s, S n, Task A Outside false p)
  | Task A Outside _ _ => None
  end.

(** The scheduler picks task [i]. *)
Definition step_at (w : world) (i : nat) (c : config) : option config :=
  match pool c !! i with
  | None => None
  | Some t =>
      match task_step w (cfg_store c) (permits c) t with
      | None => None
      | Some (s', n', t') => Some (Config s' n' (<[i := t']> (pool c)))
      end
  end.

(** A schedule is the list of the scheduler's picks; a pick that cannot move
    is skipped. *)
Fixpoint run (w : world) (sched : list nat) (c : config) : config :=
  match sched with
  | [] => c
  | i :: rest => run w rest (default c (step_at w i c))
  end.

Definition returned (t : task) : Prop :=
  task_mode t = Outside ∧ ∃ a, code t = Ret a.

Definition raised (e : exn) (t : task) : Prop :=
  task_mode t = Outside ∧ code t = Raise e.

(** [async with asyncio.TaskGroup() as tg:] over the given tasks, all
    permits free at the start: the group returns when every task has
    returned and raises as soon as one task has raised.  [inl e] stands for
    the [ExceptionGroup] that carries [e]; the store is the one the tasks
    have reached by then. *)
Inductive TaskGroup (w : world) (s : store) (tasks : list task)
    : store → result unit → Prop :=
| TaskGroup_returns sched c :
    run w sched (Config s HTTP_SEMAPHORE tasks) = c →
    Forall returned (pool c) →
    TaskGroup w s tasks (cfg_store c) (inr tt)
| TaskGroup_raises sched c e :
    run w sched (Config s HTTP_SEMAPHORE tasks) = c →
    Exists (raised e) (pool c) →
    TaskGroup w s tasks (cfg_store c) (inl e).

(* ===================================================================== *)
(** * [scraper.py]                                                        *)
(* ===================================================================== *)

(** [next(f for f in names if marker in f)] *)
Definition next_containing (marker : string) (names : list string) : result string :=
  match List.find (Str.contains marker) names with
  | Some f => inr f
  | None => inl StopIteration
  end.

(** [TATSU_REQUEST] filled in for one build identity. *)
Definition tss_request_base (chip_id board_id : Z) (unique_buildid : bytes)
    : gmap string pyval :=
  {[ "ApChipID" := PyInt chip_id;
     "ApBoardID" := PyInt board_id;
     "ApECID" := PyInt 1;
     "ApSecurityDomain" := PyInt 1;
     "ApNonce" := PyBytes ["0"%byte];
     "ApProductionMode" := PyBool true;
     "UniqueBuildID" := PyBytes unique_buildid ]}.

(** Lines 232-247: the request and its branch on the chip id. *)
Definition tss_request (chip_id board_id : Z) (unique_buildid : bytes)
    : gmap string pyval :=
  let request := tss_request_base chip_id board_id unique_buildid in
  if (0x8900 <=? chip_id) && (chip_id <? 0x8960) then   (* 32-bit *)
    <["@APTicket" := PyBool true]> request
  else                                                   (* 64-bit *)
    <["SepNonce" := PyBytes ["0"%byte]]>
      (<["ApSecurityMode" := PyBool true]>
         (<["@ApImg4Ticket" := PyBool true]> request)).

Section Scraper.

Context (py : pylib).

(** ** The manifest of an archive *)

Definition _sync_get_manifest (url : string) : prog (option bytes) :=
  try_except
    (names ← await (ZIP_namelist url);
     name ← lift (next_containing "BuildManifest" names);
     manifest ← await (ZIP_read url name);
     Ret (Some manifest))
    (λ _, Ret None).

Definition manifest_url_of (parsed : ParseResult) (dir : Path.t) : string :=
  geturl py
    (mkParseResult (scheme parsed) (netloc parsed)
       (Path.render (Path.join dir "BuildManifest.plist"))
       (params parsed) (query parsed) (fragment parsed)).

Definition get_manifest (url : string) : prog (option bytes) :=
  parsed ← lift (urlparse py url);
  dir ← lift (Path.parent (Path.parse (path parsed)));
  resp ← await (GET (manifest_url_of parsed dir));
  if decide (get_status resp = 200) then
    body ← lift (get_read resp);
    Ret (Some body)
  else
    _sync_get_manifest url.

(** ** The signing check *)

Definition _is_firmware_signed (identifier : string) (firmware : ref)
    : prog (option ref) :=
  row ← ask (SELECT_boardconfig (Str.around identifier));
  match row with
  | None => Ret None                       (* except TypeError: return *)
  | Some boardconfig =>
      buildid ← await (DICT_get firmware "buildid");
      row ← await (SELECT_identity (Str.around boardconfig) buildid);
      match row with
      | None =>
          (* delete firmware so it can be parsed again later *)
          buildid ← await (DICT_get firmware "buildid");
          await (DELETE_firmwares buildid (Str.around identifier));;
          ask COMMIT;;
          Ret None
      | Some (chip_id, board_id, unique_buildid) =>
          text ← await (POST_tss (tss_request chip_id board_id unique_buildid));
          ask (DICT_set firmware "signed"
                 (PyBool (Str.contains "MESSAGE=SUCCESS" text)));;
          Ret (Some firmware)
      end
  end.

Definition is_firmware_signed (identifier : string) (firmware : ref)
    : coroutine (option ref) :=
  UnderSemaphore (_is_firmware_signed identifier firmware).

(** ** [class AppleDB] *)

Definition _scrape_device (d : device) : prog unit :=
  except_IntegrityError
    (boardconfig ← lift (from_option inr (inl IndexError) (hd_error (board d)));
     await (INSERT (INTO_devices (DeviceRow (key d) boardconfig)));;
     ask COMMIT)
    (Ret tt).

(** [for _ in range(3):] around the HEAD probe of one link; [None] is its
    [else: continue]. *)
Fixpoint probe (attempts : nat) (src : source) (l : link)
    : prog (option (string * string * string)) :=
  match attempts with
  | O => Ret None
  | S n =>
      resp ← await (HEAD (link_url l));
      if decide (head_status resp ≠ 200) then probe n src l
      else
        size ← lift (from_option inr (inl (KeyError "Content-Length"))
                      (head_content_length resp));
        Ret (Some (link_url l, size, Str.join ", " (src_deviceMap src)))
  end.

(** [for link in source['links']:]; [None] is its [else: continue]. *)
Fixpoint first_reachable (src : source) (links : list link)
    : prog (option (string * string * string)) :=
  match links with
  | [] => Ret None
  | l :: rest =>
      found ← probe 3 src l;
      match found with
      | Some hit => Ret (Some hit)
      | None => first_reachable src rest
      end
  end.

(** [for _ in range(3):] around [get_manifest]; [None] is its
    [else: return]. *)
Fixpoint fetch_manifest (attempts : nat) (url : string) : prog (option bytes) :=
  match attempts with
  | O => Ret None
  | S n =>
      manifest ← try_except (get_manifest url) (λ _, Ret None);
      match manifest with
      | Some m => Ret (Some m)
      | None => fetch_manifest n url
      end
  end.

Definition insert_identity_row (i : build_identity) : prog unit :=
  except_IntegrityError
    (chip_id ← lift (Str.int16 (ApChipID i));
     board_id ← lift (Str.int16 (ApBoardID i));
     await (INSERT (INTO_buildmanifest
              (IdentityRow (DeviceClass i) (BuildNumber i)
                 chip_id board_id (UniqueBuildID i))));;
     ask COMMIT)
    (Ret tt).

(** [for identity in manifest['BuildIdentities']:] *)
Fixpoint scrape_identities (identities : list build_identity) : prog unit :=
  match identities with
  | [] => Ret tt
  | i :: rest =>
      match RestoreBehavior i with
      | None => scrape_identities rest
      | Some behavior =>
          if decide (behavior ≠ "Erase") then scrape_identities rest
          else insert_identity_row i;; scrape_identities rest
      end
  end.

(** [for source in firmware['sources']:] *)
Fixpoint scrape_sources (fw : firm) (srcs : list source) : prog unit :=
  match srcs with
  | [] => Ret tt
  | src :: rest =>
      if decide (src_type src ≠ "ipsw") then scrape_sources fw rest
      else
        found ← first_reachable src (src_links src);
        match found with
        | None => scrape_sources fw rest
        | Some (url, size, supported_devices) =>
            except_IntegrityError
              (await (INSERT (INTO_firmwares
                        (FirmwareRow (version fw) (build fw) url size
                           supported_devices)));;
               ask COMMIT)
              (Ret tt);;
            (* Scrape information from BuildManifest needed to check
               signing status *)
            manifest ← fetch_manifest 3 url;
            match manifest with
            | None => Ret tt
            | Some raw =>
                identities ← lift (plistlib_loads py raw);
                scrape_identities identities;;
                scrape_sources fw rest
            end
        end
  end.

Definition _scrape_firmware (fw : firm) : prog unit :=
  srcs ← lift (from_option inr (inl (KeyError "sources")) (sources fw));
  scrape_sources fw srcs.

Definition _bound_scrape_firmware (fw : firm) : coroutine unit :=
  UnderSemaphore (_scrape_firmware fw).

Definition keep_firm (f : firm) : bool :=
  bool_decide (osStr f ∈ ["iPadOS"; "iOS"; "Apple TV Software"; "tvOS"]) &&
  bool_decide (is_Some (sources f)) &&
  negb (negb (beta f) && negb (rc f)).

Definition keep_device (d : device) : bool :=
  match arch d with
  | None => false
  | Some a => Str.contains "arm" a
  end &&
  bool_decide (type d ∈ ["iPhone"; "iPad"; "iPad mini"; "iPad Air";
                         "iPad Pro"; "Apple TV"]) &&
  negb (bool_decide (List.length (board d) = 0%nat)).

(** [firmwares.sort(key=lambda x: x['build'], reverse=True)]: stable,
    largest build first. *)
Fixpoint insert_by_build (x : firm) (sorted : list firm) : list firm :=
  match sorted with
  | [] => [x]
  | y :: rest =>
      if String.ltb (build x) (build y) then y :: insert_by_build x rest
      else x :: sorted
  end.

Definition sort_by_build (l : list firm) : list firm :=
  foldr insert_by_build [] l.

(** The filters, the sort and the [tg.create_task] calls of
    [scrape_data], in creation order. *)
Definition create_tasks (data : catalog) : list (coroutine unit) :=
  let firmwares := List.filter keep_firm (ios data) in
  let devices := List.filter keep_device (device_list data) in
  let firmwares := sort_by_build firmwares in
  ((λ d, Unguarded (_scrape_device d)) <$> devices) ++
  (_bound_scrape_firmware <$> firmwares).

(** [scrape_data] up to its [TaskGroup]: the answer is the list of tasks
    the group is given. *)
Definition scrape_data_tasks : prog (list (coroutine unit)) :=
  resp ← await GET_catalog;
  if decide (cat_status resp ≠ 200) then
    Raise (HTTPException (cat_status resp) (cat_reason resp))
  else
    data ← lift (cat_json resp);
    Ret (create_tasks data).

(** [scrape_data]: the catalog is fetched and filtered, then the tasks run
    in one group. *)
Inductive scrape_data (w : world) (s : store) : store → result unit → Prop :=
| scrape_data_aborts s' e :
    exec w scrape_data_tasks s = (s', inl e) →
    scrape_data w s s' (inl e)
| scrape_data_joins s' tasks s'' r :
    exec w scrape_data_tasks s = (s', inr tasks) →
    TaskGroup w s' (spawn <$> tasks) s'' r →
    scrape_data w s s'' r.

(** ** [main]: [while True: await appledb.scrape_data();
       await asyncio.sleep(60)] *)

(** The loop is about to scrape for the [pass]-th time, or sleeps after
    that pass, or an exception has left [main]. *)
Inductive main_state : Type :=
| Scraping (pass : nat) (s : store)
| Sleeping (seconds : Z) (pass : nat) (s : store)
| Crashed (e : exn) (s : store).

(** [env i] is what the network answers during pass [i]. *)
Inductive main_step (env : nat → world) : main_state → main_state → Prop :=
| main_scraped i s s' :
    scrape_data (env i) s s' (inr tt) →
    main_step env (Scraping i s) (Sleeping 60 i s')
| main_raised i s s' e :
    scrape_data (env i) s s' (inl e) →
    main_step env (Scraping i s) (Crashed e s')
| main_slept i s :
    main_step env (Sleeping 60 i s) (Scraping (S i) s).

End Scraper.

(* ===================================================================== *)
(** * Vocabulary of the statements                                        *)
(* ===================================================================== *)


(** A chip id of the 32-bit range, both ends included. *)
Definition legacy_chip (chip_id : Z) : Prop := 0x8900 ≤ chip_id ≤ 0x895F.

#[global] Instance legacy_chip_dec chip_id : Decision (legacy_chip chip_id).
Proof. unfold legacy_chip. apply _. Defined.

(** [needle] occurs in [hay]. *)
Definition substring (needle hay : string) : Prop :=
  ∃ before after, hay = (before ++ needle ++ after)%string.

(** A store after one harvest of a one-device catalog, with the [dict] the
    query service builds for its firmware row at reference [0]. *)
Definition example_db : DB :=
  mkDB [DeviceRow "iPhone10,3" "D22AP"]
       [FirmwareRow "16.0" "20A5283p" "/fw/iPhone_16.0_20A5283p.ipsw"
          "5000000000" "iPhone10,3, iPhone10,6"]
       [IdentityRow "d22ap" "20A5283p" 0x8015 0x6 ["x"%byte; "y"%byte]].

Definition example_dict : gmap string pyval :=
  {[ "version" := PyStr "16.0";
     "buildid" := PyStr "20A5283p";
     "filesize" := PyInt 5000000000;
     "url" := PyStr "/fw/iPhone_16.0_20A5283p.ipsw" ]}.

Definition example_store : store :=
  Store example_db {[ 0%nat := example_dict ]}.

(** The same store when the manifest of the firmware was never read. *)
Definition orphan_store : store :=
  Store (mkDB (devices example_db) (firmwares example_db) [])
        {[ 0%nat := example_dict ]}.

(** The manifest of that firmware, as [plistlib.loads] returns it. *)
Definition example_identity : build_identity :=
  BuildIdentity (Some "Erase") "d22ap" "20A5283p" "0x8015" "0x6"
    ["x"%byte; "y"%byte].

(** [urlparse] and [geturl] on URLs that are a bare path. *)
Definition example_py : pylib :=
  PyLib (λ url, inr (mkParseResult "" "" url "" "" ""))
        path
        (λ _, inr [example_identity]).

Definition empty_store : store := Store (mkDB [] [] []) ∅.

Definition harvested_store : store := Store example_db ∅.

(** The sequential schedule of a group of two tasks. *)
Definition example_schedule : list nat := replicate 8 0%nat ++ replicate 60 1%nat.

Definition example_catalog : catalog :=
  Catalog
    [Firm "iOS" true false
       (Some [Source "ipsw" [Link "/fw/iPhone_16.0_20A5283p.ipsw"]
                ["iPhone10,3"; "iPhone10,6"]])
       "20A5283p" "16.0"]
    [Device "iPhone10,3" (Some "arm64") "iPhone" ["D22AP"]].

(** A network on which every request succeeds: the catalog above, links
    that answer 200, no sibling manifest but an archive that holds one, and
    a signing service that says yes. *)
Definition example_world : world :=
  World (inr (CatalogResponse 200 "OK" (inr example_catalog)))
        (λ _, inr (HeadResponse 200 (Some "5000000000")))
        (λ _, inr (GetResponse 404 (inr [])))
        (λ _, inr ["Firmware/all_flash/x.im4p"; "BuildManifest.plist"])
        (λ _ _, inr ["m"%byte])
        (λ _, inr "STATUS=0&MESSAGE=SUCCESS&REQUEST_STRING=").

(** An INSERT that the binding refuses whatever the tables hold. *)
Definition overflows (i : insertion) : bool :=
  match i with
  | INTO_buildmanifest r =>
      negb (Sql.fits_int64 (bm_chip_id r) && Sql.fits_int64 (bm_board_id r))
  | _ => false
  end.

(** What an INSERT can answer, over all contents of the tables. *)
Definition possible_reply (i : insertion) (r : result unit) : Prop :=
  if overflows i then r = inl OverflowError
  else r = inr tt ∨ r = inl IntegrityError.

(** [issues w p l o]: on network [w] and whatever the tables hold, the
    coroutine [p] issues the INSERTs [l], in this order, reads and deletes
    nothing, and ends with [o]. *)
Fixpoint issues (w : world) {A} (p : prog A) (l : list insertion)
    (o : result A) : Prop :=
  match p with
  | Ret a => l = [] ∧ o = inr a
  | Raise e => l = [] ∧ o = inl e
  | Await ev k =>
      match ev in event X return (X → list insertion → Prop) → Prop with
      | INSERT i => λ K, ∃ l', l = i :: l' ∧ ∀ r, possible_reply i r → K r l'
      | COMMIT => λ K, K tt l
      | GET_catalog => λ K, K (net_catalog w) l
      | HEAD url => λ K, K (net_head w url) l
      | GET url => λ K, K (net_get w url) l
      | POST_tss request => λ K, K (net_tss w request) l
      | ZIP_namelist url => λ K, K (net_zip_namelist w url) l
      | ZIP_read url name => λ K, K (net_zip_read w url name) l
      | _ => λ _, False
      end (λ x l', issues w (k x) l' o)
  end.

(** The coroutine has such a plan. *)
Definition plannable (w : world) {A} (p : prog A) : Prop :=
  ∃ l o, issues w p l o.

(** The exception of an outcome, [None] for a return. *)
Definition error_of {A} (o : result A) : option exn :=
  match o with
  | inl e => Some e
  | inr _ => None
  end.

(** A task with its plan: the INSERTs still to come and how it ends. *)
Definition planned (w : world) (t : task) (plan : list insertion * option exn)
    : Prop :=
  ∃ o, issues w (code t) plan.1 o ∧ plan.2 = error_of o.

(** The INSERT is refused by the tables as they are. *)
Definition settled (i : insertion) (d : DB) : Prop :=
  ∃ e, Sql.insert i d = inl e.

(** Every row of [d] is a row of [d']. *)
Definition extends (d d' : DB) : Prop :=
  devices d ⊆ devices d' ∧
  firmwares d ⊆ firmwares d' ∧
  buildmanifest d ⊆ buildmanifest d'.

(** What one INSERT does to the store. *)
Definition insert_effect (i : insertion) (s s' : store) : Prop :=
  (s' = s ∧ settled i (db s)) ∨
  (heap s' = heap s ∧ Sql.insert i (db s) = inr (db s')).

(** Every INSERT of [P] has been refused or is still ahead in some plan. *)
Definition covers (P : insertion → Prop) (d : DB)
    (plans : list (list insertion * option exn)) : Prop :=
  ∀ i, P i → settled i d ∨ ∃ plan, plan ∈ plans ∧ i ∈ plan.1.

(** The body of a task has returned or raised. *)
Definition final {A} (p : prog A) : Prop :=
  match p with
  | Await _ _ => False
  | _ => True
  end.

Definition finished (t : task) : Prop :=
  task_mode t = Outside ∧ final (code t).




(** The example network with a catalog server that is down. *)
Definition failing_world : world :=
  World (inr (CatalogResponse 503 "Service Unavailable" (inr example_catalog)))
        (net_head example_world) (net_get example_world)
        (net_zip_namelist example_world) (net_zip_read example_world)
        (net_tss example_world).


(** The requests the semaphore is there for: every network request but the
    catalog fetch. *)
Definition is_guarded_request {X} (ev : event X) : bool :=
  match ev with
  | HEAD _ | GET _ | POST_tss _ | ZIP_namelist _ | ZIP_read _ _ => true
  | _ => false
  end.

(** A coroutine that sends none of them, whatever it is answered. *)
Fixpoint sends_no_guarded_request {A} (p : prog A) : Prop :=
  match p with
  | Await ev k => is_guarded_request ev = false ∧ ∀ x, sends_no_guarded_request (k x)
  | _ => True
  end.


Definition holds_permit (t : task) : bool :=
  bool_decide (task_mode t = Holding).

(** The number of tasks inside [async with HTTP_SEMAPHORE:]. *)
Definition holders (tasks : list task) : nat :=
  List.length (List.filter holds_permit tasks).

(** What each mode allows a task to be. *)
Definition sem_ok (t : task) : Prop :=
  match task_mode t with
  | Outside => sends_no_guarded_request (code t)
  | Queued => awaiting t = false
  | Holding => True
  end.

Section ModuleTasks.

Context (py : pylib).

(** The coroutines that [scraper.py] hands to the event loop. *)
Inductive module_task : task → Prop :=
| scrape_data_task :
    module_task (spawn (Unguarded (scrape_data_tasks py)))
| scrape_device_task d :
    module_task (spawn (Unguarded (_scrape_device d)))
| scrape_firmware_task fw :
    module_task (spawn (_bound_scrape_firmware py fw))
| signing_task identifier firmware :
    module_task (spawn (is_firmware_signed identifier firmware)).

End ModuleTasks.



(* ===================================================================== *)
(** * Vocabulary of the further properties                                *)
(* ===================================================================== *)

(** The uniqueness constraints of the schema: [identifier TEXT UNIQUE],
    [boardconfig TEXT UNIQUE], the index on [firmwares(buildid, devices)],
    [unique_buildid BLOB UNIQUE] and the index on
    [buildmanifest(boardconfig, buildid)]. *)
Definition consistent (d : DB) : Prop :=
  NoDup (dev_identifier <$> devices d) ∧
  NoDup (dev_boardconfig <$> devices d) ∧
  NoDup ((λ r, (fw_buildid r, fw_devices r)) <$> firmwares d) ∧
  NoDup (bm_unique_buildid <$> buildmanifest d) ∧
  NoDup ((λ r, (bm_boardconfig r, bm_buildid r)) <$> buildmanifest d).

(** Each table of [d'] is the table of [d] with rows added at its end. *)
Definition grows (d d' : DB) : Prop :=
  devices d `prefix_of` devices d' ∧
  firmwares d `prefix_of` firmwares d' ∧
  buildmanifest d `prefix_of` buildmanifest d'.

(** Every row of [d'] is a row of [d] or the row of an INSERT in [P]. *)
Definition added (P : insertion → Prop) (d d' : DB) : Prop :=
  (∀ r, r ∈ devices d' → r ∈ devices d ∨ P (INTO_devices r)) ∧
  (∀ r, r ∈ firmwares d' → r ∈ firmwares d ∨ P (INTO_firmwares r)) ∧
  (∀ r, r ∈ buildmanifest d' → r ∈ buildmanifest d ∨ P (INTO_buildmanifest r)).

(** The coroutine has a plan whose INSERTs are all in [P]; when it returns,
    its value is in [Q]; when it raises, its exception is in [E]. *)
Definition plans_within (P : insertion → Prop) (E : exn → Prop) (w : world)
    {A} (p : prog A) (Q : A → Prop) : Prop :=
  ∃ l o, issues w p l o ∧ Forall P l ∧
         match o with
         | inl e => E e
         | inr a => Q a
         end.

(** The device row that [_scrape_device] binds for a catalog device. *)
Definition row_of_device (data : catalog) (r : device_row) : Prop :=
  ∃ d, d ∈ device_list data ∧ keep_device d = true ∧
       dev_identifier r = key d ∧ hd_error (board d) = Some (dev_boardconfig r).

(** A firmware row that [_scrape_firmware] binds for a catalog entry: an
    entry that passes the filter, one of its ipsw sources, one of the links
    of that source, which answered 200 to the probe. *)
Definition row_of_firm (w : world) (fw : firm) (r : firmware_row) : Prop :=
  fw_version r = version fw ∧
  fw_buildid r = build fw ∧
  ∃ srcs src,
    sources fw = Some srcs ∧ src ∈ srcs ∧ src_type src = "ipsw" ∧
    Link (fw_url r) ∈ src_links src ∧
    fw_devices r = Str.join ", " (src_deviceMap src) ∧
    net_head w (fw_url r) = inr (HeadResponse 200 (Some (fw_size r))).

Definition row_of_catalog_firm (w : world) (data : catalog) (r : firmware_row) : Prop :=
  ∃ fw, fw ∈ ios data ∧ keep_firm fw = true ∧ row_of_firm w fw r.

(** The identity with its hex strings read is the row that is bound. *)
Definition bound_row (i : build_identity) (r : identity_row) : Prop :=
  RestoreBehavior i = Some "Erase" ∧
  bm_boardconfig r = DeviceClass i ∧
  bm_buildid r = BuildNumber i ∧
  Str.int16 (ApChipID i) = inr (bm_chip_id r) ∧
  Str.int16 (ApBoardID i) = inr (bm_board_id r) ∧
  bm_unique_buildid r = UniqueBuildID i.

(** A build identity row that [_scrape_firmware] binds for a catalog entry:
    an erase identity of the manifest that the three attempts deliver for
    the URL of a firmware row of that entry, parsed by [plistlib.loads]. *)
Definition row_of_manifest (py : pylib) (w : world) (fw : firm)
    (r : identity_row) : Prop :=
  ∃ row raw identities i,
    row_of_firm w fw row ∧
    (∀ s, exec w (fetch_manifest py 3 (fw_url row)) s = (s, inr (Some raw))) ∧
    plistlib_loads py raw = inr identities ∧
    i ∈ identities ∧
    bound_row i r.

Definition row_of_catalog_manifest (py : pylib) (w : world) (data : catalog)
    (r : identity_row) : Prop :=
  ∃ fw, fw ∈ ios data ∧ keep_firm fw = true ∧ row_of_manifest py w fw r.

(** What a pass over the catalog [data] may insert. *)
Definition insert_of_catalog (py : pylib) (w : world) (data : catalog)
    (i : insertion) : Prop :=
  match i with
  | INTO_devices r => row_of_device data r
  | INTO_firmwares r => row_of_catalog_firm w data r
  | INTO_buildmanifest r => row_of_catalog_manifest py w data r
  end.

(** [sorted(l, key=..., reverse=True)] puts no key before a larger one. *)
Definition descending (keys : list string) : Prop :=
  ∀ i j x y, (i < j)%nat → keys !! i = Some x → keys !! j = Some y →
             String.ltb x y = false.

(** What the task of one catalog firmware may insert. *)
Definition insert_of_firm (py : pylib) (w : world) (fw : firm) (i : insertion)
    : Prop :=
  match i with
  | INTO_devices _ => False
  | INTO_firmwares r => row_of_firm w fw r
  | INTO_buildmanifest r => row_of_manifest py w fw r
  end.

(** What the task of one catalog device may insert. *)
Definition insert_of_device (d : device) (i : insertion) : Prop :=
  ∃ boardconfig,
    hd_error (board d) = Some boardconfig ∧
    i = INTO_devices (DeviceRow (key d) boardconfig).

(** What a successful probe has seen. *)
Definition probed (w : world) (src : source) (links : list link)
    (hit : option (string * string * string)) : Prop :=
  ∀ url size supported, hit = Some (url, size, supported) →
    Link url ∈ links ∧
    supported = Str.join ", " (src_deviceMap src) ∧
    net_head w url = inr (HeadResponse 200 (Some size)).

(** A link of an ipsw source of the catalog entry. *)
Definition linked (fw : firm) (url : string) : Prop :=
  ∃ srcs src,
    sources fw = Some srcs ∧ src ∈ srcs ∧ src_type src = "ipsw" ∧
    Link url ∈ src_links src.

(** What the probe of a link can raise: the exception of the HEAD request,
    or [KeyError] for [resp.headers['Content-Length']] on a 200 answer
    without that header. *)
Definition probe_error (w : world) (url : string) (e : exn) : Prop :=
  net_head w url = inl e ∨
  (net_head w url = inr (HeadResponse 200 None) ∧ e = KeyError "Content-Length").

(** What binding an erase identity can raise: the exception of one of the
    two [int(_, 16)], or [OverflowError] for an integer beyond 64 bits. *)
Definition identity_error (i : build_identity) (e : exn) : Prop :=
  Str.int16 (ApChipID i) = inl e ∨
  Str.int16 (ApBoardID i) = inl e ∨
  (∃ r, bound_row i r ∧ overflows (INTO_buildmanifest r) = true ∧
        e = OverflowError).

(** What the task of one catalog firmware can raise: what the probe of one
    of its links raises, what [plistlib.loads] raises on the manifest of
    one of its firmware rows, or what binding an erase identity of that
    manifest raises. *)
Definition firmware_error (py : pylib) (w : world) (fw : firm) (e : exn) : Prop :=
  (∃ url, linked fw url ∧ probe_error w url e) ∨
  (∃ row raw,
     row_of_firm w fw row ∧
     (∀ s, exec w (fetch_manifest py 3 (fw_url row)) s = (s, inr (Some raw))) ∧
     (plistlib_loads py raw = inl e ∨
      ∃ identities i,
        plistlib_loads py raw = inr identities ∧ i ∈ identities ∧
        RestoreBehavior i = Some "Erase" ∧ identity_error i e)).


(** The row of an INSERT is in its table. *)
Definition row_in (i : insertion) (d : DB) : Prop :=
  match i with
  | INTO_devices r => r ∈ devices d
  | INTO_firmwares r => r ∈ firmwares d
  | INTO_buildmanifest r => r ∈ buildmanifest d
  end.

(** A row that the coroutine inserts when it runs alone on empty tables. *)
Definition inserts_alone (w : world) {A} (p : prog A) (i : insertion) : Prop :=
  row_in i (db (exec w p empty_store).1).

(** A link whose probe is answered, with a status other than 200. *)
Definition dead_link (w : world) (l : link) : Prop :=
  ∃ resp, net_head w (link_url l) = inr resp ∧ head_status resp ≠ 200.

(** The store that [main] holds in each of its states. *)
Definition store_of (st : main_state) : store :=
  match st with
  | Scraping _ s | Sleeping _ _ s | Crashed _ s => s
  end.

(** The firmware and the device of the example catalog. *)
Definition example_firm : firm :=
  Firm "iOS" true false
    (Some [Source "ipsw" [Link "/fw/iPhone_16.0_20A5283p.ipsw"]
             ["iPhone10,3"; "iPhone10,6"]])
    "20A5283p" "16.0".

Definition example_device : device :=
  Device "iPhone10,3" (Some "arm64") "iPhone" ["D22AP"].

Definition example_firmware_row : firmware_row :=
  FirmwareRow "16.0" "20A5283p" "/fw/iPhone_16.0_20A5283p.ipsw"
    "5000000000" "iPhone10,3, iPhone10,6".

Definition example_identity_row : identity_row :=
  IdentityRow "d22ap" "20A5283p" 0x8015 0x6 ["x"%byte; "y"%byte].


(** A network on which the links answer but no manifest can be had:
    no sibling file, and an archive without a manifest entry. *)
Definition no_manifest_world : world :=
  World (net_catalog example_world)
        (net_head example_world)
        (net_get example_world)
        (λ _, inr ["Firmware/all_flash/x.im4p"])
        (net_zip_read example_world)
        (net_tss example_world).






(* ===================================================================== *)
(** * The query service                                                   *)
(* ===================================================================== *)

(** ** A pool of tasks of one type

    [get_beta_firmwares] reads [task.result()] of every task of its group.
    Its pool is the list of the comprehension, every task of the type of
    [is_firmware_signed]; the event loop is the one above. *)

Definition typed_task (A : Type) : Type := (mode * bool * prog A)%type.

Definition untyped {A} (t : typed_task A) : task :=
  Task A t.1.1 t.1.2 t.2.

Definition typed_spawn {A} (c : coroutine A) : typed_task A :=
  match c with
  | Unguarded body => (Outside, false, body)
  | UnderSemaphore body => (Queued, false, body)
  end.

Definition typed_step (w : world) {A} (s : store) (n : nat) (t : typed_task A)
    : option (store * nat * typed_task A) :=
  let '(m, aw, p) := t in
  match m, p with
  | Queued, _ =>
      match n with
      | S n' => Some (s, n', (Holding, false, p))
      | O => None
      end
  | _, Await ev k =>
      if is_network ev && negb aw then Some (s, n, (m, true, Await ev k))
      else let '(s', x) := handle w ev s in Some (s', n, (m, false, k x))
  | Holding, _ => Some (s, S n, (Outside, false, p))
  | Outside, _ => None
  end.

Record typed_config (A : Type) := TypedConfig {
  tc_store : store;
  tc_permits : nat;
  tc_pool : list (typed_task A);
}.

Arguments TypedConfig {A} tc_store tc_permits tc_pool.
Arguments tc_store {A} t.
Arguments tc_permits {A} t.
Arguments tc_pool {A} t.

Definition typed_step_at (w : world) {A} (i : nat) (c : typed_config A)
    : option (typed_config A) :=
  match tc_pool c !! i with
  | None => None
  | Some t =>
      match typed_step w (tc_store c) (tc_permits c) t with
      | None => None
      | Some (s', n', t') => Some (TypedConfig s' n' (<[i := t']> (tc_pool c)))
      end
  end.

Fixpoint typed_run (w : world) {A} (sched : list nat) (c : typed_config A)
    : typed_config A :=
  match sched with
  | [] => c
  | i :: rest => typed_run w rest (default c (typed_step_at w i c))
  end.

Definition untyped_config {A} (c : typed_config A) : config :=
  Config (tc_store c) (tc_permits c) (untyped <$> tc_pool c).

(** [task.result()] of a task that has returned, and a task that has
    raised. *)
Definition typed_returned {A} (t : typed_task A) (a : A) : Prop :=
  t.1.1 = Outside ∧ t.2 = Ret a.

Definition typed_raised {A} (e : exn) (t : typed_task A) : Prop :=
  t.1.1 = Outside ∧ t.2 = Raise e.

(** ** [sorted(l, key=..., reverse=True)] on text keys: stable, largest
    key first. *)
Fixpoint insert_by_key {A} (key : A → string) (x : A) (sorted : list A)
    : list A :=
  match sorted with
  | [] => [x]
  | y :: rest =>
      if String.ltb (key x) (key y) then y :: insert_by_key key x rest
      else x :: sorted
  end.

Definition sorted_reverse {A} (key : A → string) (l : list A) : list A :=
  foldr (insert_by_key key) [] l.

(** No key before a larger one, stated on the list itself. *)
Fixpoint keys_descend {A} (key : A → string) (l : list A) : Prop :=
  match l with
  | [] => True
  | x :: rest =>
      Forall (λ y, String.ltb (key x) (key y) = false) rest ∧
      keys_descend key rest
  end.

(** ** The records

    The [dict] objects that the loop over [fetchall()] builds are new
    objects: one per row, at references that were not in use. *)
Definition allocated (s : store) (dicts : list (gmap string pyval))
    (refs : list ref) (s' : store) : Prop :=
  List.length refs = List.length dicts ∧
  NoDup refs ∧
  Forall (λ r, heap s !! r = None) refs ∧
  s' = Store (db s) (list_to_map (zip refs dicts) ∪ heap s).

(** [x['buildid']] of a record whose buildid is a text. *)
Definition dict_buildid (d : gmap string pyval) : string :=
  match d !! "buildid" with
  | Some (PyStr b) => b
  | _ => ""
  end.

Definition buildid_of (s : store) (r : ref) : string :=
  dict_buildid (dict_of s r).

Definition has_text_buildid (s : store) (r : ref) : Prop :=
  ∃ b, dict_of s r !! "buildid" = Some (PyStr b).

Section Service.

(** What the INTEGER column [size] gives back for the text that was bound
    to it: the affinity of the column decides. *)
Context (size_column : string → pyval).

(** Lines 347-354: the record of one row of the answer. *)
Definition dict_of_row (row : firmware_row) : gmap string pyval :=
  {[ "version" := PyStr (fw_version row);
     "buildid" := PyStr (fw_buildid row);
     "filesize" := size_column (fw_size row);
     "url" := PyStr (fw_url row) ]}.

(** [get_beta_firmwares]: the rows are selected and turned into records,
    one signing task per record runs in a group, the records of the tasks
    that returned one are sorted by buildid, largest first.  [inl e] stands
    for the [ExceptionGroup] that carries [e].  The request is taken on its
    own: nothing else writes to the tables while it runs, and all permits
    are free when its group starts.  The keys of the sort are read from the
    records; they are texts, as the column they come from, and the sort is
    given for such keys only. *)
Inductive get_beta_firmwares (w : world) (identifier : string) (s : store)
    : store → result (list ref) → Prop :=
| get_beta_firmwares_returns refs s1 sched c results :
    allocated s
      (dict_of_row <$> Sql.select_firmwares (Str.around identifier) (db s))
      refs s1 →
    typed_run w sched
      (TypedConfig s1 HTTP_SEMAPHORE
         ((λ r, typed_spawn (is_firmware_signed identifier r)) <$> refs)) = c →
    Forall2 typed_returned (tc_pool c) results →
    Forall (has_text_buildid (tc_store c)) (omap id results) →
    get_beta_firmwares w identifier s (tc_store c)
      (inr (sorted_reverse (buildid_of (tc_store c)) (omap id results)))
| get_beta_firmwares_raises refs s1 sched c e :
    allocated s
      (dict_of_row <$> Sql.select_firmwares (Str.around identifier) (db s))
      refs s1 →
    typed_run w sched
      (TypedConfig s1 HTTP_SEMAPHORE
         ((λ r, typed_spawn (is_firmware_signed identifier r)) <$> refs)) = c →
    Exists (typed_raised e) (tc_pool c) →
    get_beta_firmwares w identifier s (tc_store c) (inl e).

(** ** Vocabulary of the statements on the service *)

(** What lines 207-255 come to for a record that was just built from
    [row]: no verdict when no device row matches the identifier or no
    identity row matches that device and the buildid of the row, else the
    exception of the signing request, or whether its answer holds
    [MESSAGE=SUCCESS]. *)
Definition verdict (w : world) (d : DB) (identifier : string)
    (row : firmware_row) : result (option bool) :=
  match Sql.select_boardconfig (Str.around identifier) d with
  | None => inr None
  | Some boardconfig =>
      match Sql.select_identity (Str.around boardconfig)
              (Some (fw_buildid row)) d with
      | None => inr None
      | Some (chip_id, board_id, unique_buildid) =>
          match net_tss w (tss_request chip_id board_id unique_buildid) with
          | inl e => inl e
          | inr text => inr (Some (Str.contains "MESSAGE=SUCCESS" text))
          end
      end
  end.

(** The record of a row with a verdict. *)
Definition record (w : world) (d : DB) (identifier : string)
    (row : firmware_row) : option (gmap string pyval) :=
  match verdict w d identifier row with
  | inr (Some signed) => Some (<["signed" := PyBool signed]> (dict_of_row row))
  | _ => None
  end.

(** The records of the rows with a verdict, largest buildid first. *)
Definition answer (w : world) (d : DB) (identifier : string)
    : list (gmap string pyval) :=
  sorted_reverse dict_buildid
    (omap (record w d identifier)
       (Sql.select_firmwares (Str.around identifier) d)).

(** What the signing task of the record [r] of [row] comes to when it runs
    alone on the records as they were built. *)
Definition alone_outcome (w : world) (d : DB) (identifier : string)
    (r : ref) (row : firmware_row)
    : ref * result (option ref) * gmap string pyval :=
  (r,
   match verdict w d identifier row with
   | inl e => inl e
   | inr None => inr None
   | inr (Some _) => inr (Some r)
   end,
   match verdict w d identifier row with
   | inr (Some signed) => <["signed" := PyBool signed]> (dict_of_row row)
   | _ => dict_of_row row
   end).

End Service.

(** What is left of the signing task of the record [r] only consults the
    tables, reads [buildid] and sets [signed] in its own record, deletes
    firmware rows and talks to the network. *)
Fixpoint checks_only (r : ref) {A} (p : prog A) : Prop :=
  match p with
  | Await ev k =>
      match ev in event X return (X → Prop) → Prop with
      | INSERT _ => λ _, False
      | DICT_get d key => λ K, d = r ∧ key = "buildid" ∧ ∀ x, K x
      | DICT_set d key _ => λ K, d = r ∧ key = "signed" ∧ ∀ x, K x
      | _ => λ K, ∀ x, K x
      end (λ x, checks_only r (k x))
  | _ => True
  end.

(** The two stores agree on what the signing task of [r] reads. *)
Definition same_for (r : ref) (s s' : store) : Prop :=
  devices (db s) = devices (db s') ∧
  buildmanifest (db s) = buildmanifest (db s') ∧
  dict_of s r = dict_of s' r.

(** From [s] to [s'] no row was added or changed, and no key of a record
    was changed except [signed]. *)
Definition request_frame (s s' : store) : Prop :=
  devices (db s') = devices (db s) ∧
  buildmanifest (db s') = buildmanifest (db s) ∧
  firmwares (db s') `sublist_of` firmwares (db s) ∧
  ∀ r key, key ≠ "signed" → dict_of s' r !! key = dict_of s r !! key.

(** What a signing task will give, if it runs alone from [s]: its outcome
    and the record it leaves. *)
Definition foreseen (w : world) (s : store) (t : typed_task (option ref))
    (x : ref * result (option ref) * gmap string pyval) : Prop :=
  checks_only x.1.1 t.2 ∧
  (exec w t.2 s).2 = x.1.2 ∧
  dict_of (exec w t.2 s).1 x.1.1 = x.2.

(** The firmware rows that one request leaves in place. *)
Definition keeps {X} (ev : event X) (row : firmware_row) : bool :=
  match ev with
  | DELETE_firmwares buildid pattern =>
      match Sql.as_text buildid with
      | inr b => negb (Sql.firmware_matches b pattern row)
      | inl _ => true
      end
  | _ => true
  end.

(** The firmware rows that a coroutine leaves in place when it runs alone
    from [s]. *)
Fixpoint spares (w : world) {A} (p : prog A) (s : store) (row : firmware_row)
    : bool :=
  match p with
  | Await ev k =>
      let '(s', x) := handle w ev s in
      keeps ev row && spares w (k x) s' row
  | _ => true
  end.

(** The firmware rows that what is left of every task of the pool leaves
    in place. *)
Definition spared (w : world) {A} (c : typed_config A) (row : firmware_row)
    : bool :=
  forallb (λ t, spares w t.2 (tc_store c) row) (tc_pool c).

(** A firmware row that the request for [identifier] selects and cannot
    check: the device is known and no identity row matches it and the
    buildid of the row. *)
Definition orphan (d : DB) (identifier : string) (row : firmware_row) : bool :=
  Str.like (Str.around identifier) (fw_devices row) &&
  match Sql.select_boardconfig (Str.around identifier) d with
  | None => false
  | Some boardconfig =>
      bool_decide (Sql.select_identity (Str.around boardconfig)
                     (Some (fw_buildid row)) d = None)
  end.

(** ** A request on the example *)

(** The INTEGER column on the example: the text of the example row is a
    decimal literal and comes back as that integer. *)
Definition example_size_column (text : string) : pyval :=
  if decide (text = "5000000000") then PyInt 5000000000 else PyStr text.

(** The harvested store with the record of a request for [iPhone10,3], as
    the request builds it and as it leaves it. *)
Definition example_request_store : store :=
  Store example_db
    {[ 0%nat := dict_of_row example_size_column example_firmware_row ]}.

Definition example_answered_store : store :=
  Store example_db
    {[ 0%nat := <["signed" := PyBool true]>
                  (dict_of_row example_size_column example_firmware_row) ]}.

Definition example_request_schedule : list nat := replicate 10 0%nat.


(** The store without the manifest of the firmware, after a request for
    [iPhone10,3]: the firmware row is gone, the new record is at the first
    free reference. *)
Definition orphan_answered_store : store :=
  Store (mkDB (devices example_db) [] [])
    {[ 0%nat := example_dict;
       1%nat := dict_of_row example_size_column example_firmware_row ]}.

(* ===================================================================== *)
(** * The string models on the values of the spec's scenario             *)
(* ===================================================================== *)

Example int16_chip_id : Str.int16 "0x8015" = inr 0x8015.
Proof. reflexivity. Qed.

Example int16_board_id : Str.int16 "0x6" = inr 6.
Proof. reflexivity. Qed.

Example int16_not_hex : Str.int16 "0xZZ" = inl ValueError.
Proof. reflexivity. Qed.

Example like_folds_case : Str.like (Str.around "D22AP") "d22ap" = true.
Proof. reflexivity. Qed.

Example like_is_substring :
  Str.like (Str.around "iPhone10,3") "iPhone10,3, iPhone10,6" = true ∧
  Str.like (Str.around "iPhone10,4") "iPhone10,3, iPhone10,6" = false.
Proof. split; reflexivity. Qed.

Example like_wildcard_in_identifier :
  Str.like (Str.around "iPhone1_,3") "iPhone10,3" = true.
Proof. reflexivity. Qed.

Example sibling_manifest_path :
  Path.render (Path.join (Path.mk "/" ["fw"]) "BuildManifest.plist")
  = "/fw/BuildManifest.plist".
Proof. reflexivity. Qed.

Example path_without_segment : Path.parent (Path.parse "/") = inl IndexError.
Proof. reflexivity. Qed.

Example sort_largest_build_first :
  build <$> sort_by_build
    [Firm "iOS" true false None "20A5283p" "16.0";
     Firm "iOS" true false None "20B5045d" "16.1";
     Firm "iPadOS" true false None "20A5283p" "16.0"]
  = ["20B5045d"; "20A5283p"; "20A5283p"] ∧
  osStr <$> sort_by_build
    [Firm "iOS" true false None "20A5283p" "16.0";
     Firm "iOS" true false None "20B5045d" "16.1";
     Firm "iPadOS" true false None "20A5283p" "16.0"]
  = ["iOS"; "iOS"; "iPadOS"].
Proof. split; reflexivity. Qed.

(* ===================================================================== *)
(** * Running one coroutine                                               *)
(* ===================================================================== *)

Lemma exec_bind w {A B} (p : prog A) (f : A → prog B) s :
  exec w (bind p f) s =
  match exec w p s with
  | (s', inl e) => (s', inl e)
  | (s', inr a) => exec w (f a) s'
  end.
Proof.
  revert s. induction p as [a|e|X ev k IH]; intros s; simpl; try done.
  destruct (handle w ev s) as [s' x]. apply IH.
Qed.

Lemma prefix_spec (n h : string) :
  String.prefix n h = true ↔ ∃ after, h = (n ++ after)%string.
Proof.
  revert h. induction n as [|c n IH]; intros h.
  - split; [intros _; by exists h | by destruct h].
  - destruct h as [|d h]; simpl; [split; [done | intros [? [=]]]|].
    destruct (ascii_dec c d) as [->|Hne].
    + rewrite IH. split.
      * intros [after ->]. by exists after.
      * intros [after [= ->]]. by exists after.
    + split; [done|]. intros [after [= <- _]]. done.
Qed.

Lemma contains_spec (needle hay : string) :
  Str.contains needle hay = true ↔ substring needle hay.
Proof.
  induction hay as [|c hay IH]; cbn [Str.contains].
  - rewrite orb_false_r, prefix_spec. split.
    + intros [after ->]. by exists "", after.
    + intros ([|? before] & after & H); simpl in H; [by exists after | done].
  - rewrite orb_true_iff, prefix_spec, IH. split.
    + intros [[after ->] | (before & after & ->)].
      * by exists "", after.
      * by exists (String c before), after.
    + intros ([|d before] & after & H); simpl in H.
      * left. by exists after.
      * right. injection H as <- ->. by exists before, after.
Qed.

Lemma dict_of_set d h (r : ref) (v : gmap string pyval) :
  dict_of (Store d (<[r := v]> h)) r = v.
Proof. unfold dict_of. simpl. by rewrite lookup_insert_eq. Qed.

(** The signing check, read off its source: one outcome per path. *)
Lemma exec_is_firmware_signed w identifier firmware s :
  exec w (_is_firmware_signed identifier firmware) s =
  match Sql.select_boardconfig (Str.around identifier) (db s) with
  | None => (s, inr None)
  | Some boardconfig =>
      match dict_of s firmware !! "buildid" with
      | None => (s, inl (KeyError "buildid"))
      | Some buildid =>
          match Sql.as_text buildid with
          | inl e => (s, inl e)
          | inr b =>
              match Sql.select_identity (Str.around boardconfig) b (db s) with
              | None =>
                  (with_db s (Sql.delete_firmwares b (Str.around identifier) (db s)),
                   inr None)
              | Some (chip_id, board_id, unique_buildid) =>
                  match net_tss w (tss_request chip_id board_id unique_buildid) with
                  | inl e => (s, inl e)
                  | inr text =>
                      (Store (db s)
                         (<[firmware :=
                              <["signed" := PyBool (Str.contains "MESSAGE=SUCCESS" text)]>
                                (dict_of s firmware)]> (heap s)),
                       inr (Some firmware))
                  end
              end
          end
      end
  end.
Proof.
  unfold _is_firmware_signed. simpl.
  destruct (Sql.select_boardconfig _ _) as [bc|]; simpl; [|done].
  destruct (dict_of s firmware !! "buildid") as [b|] eqn:Hb; simpl; [|done].
  destruct (Sql.as_text b) as [e|t] eqn:Ht; simpl; [done|].
  destruct (Sql.select_identity _ _ _) as [[[chip board] ubid]|]; simpl.
  - destruct (net_tss w _) as [e|text]; simpl; done.
  - rewrite Hb. simpl. rewrite Ht. done.
Qed.





(** C2.  When a boardconfig is found for the identifier and a build
    identity is found for that boardconfig and the buildid of the firmware,
    and the signing service answers with a text, [_is_firmware_signed]
    returns the firmware record it was given, with [signed] set to a boolean
    that is true exactly when [MESSAGE=SUCCESS] occurs in that text. *)
Theorem checkSigned_reads_marker w identifier firmware s
    boardconfig buildid b chip_id board_id unique_buildid text :
  Sql.select_boardconfig (Str.around identifier) (db s) = Some boardconfig →
  dict_of s firmware !! "buildid" = Some buildid →
  Sql.as_text buildid = inr b →
  Sql.select_identity (Str.around boardconfig) b (db s)
    = Some (chip_id, board_id, unique_buildid) →
  net_tss w (tss_request chip_id board_id unique_buildid) = inr text →
  ∃ signed s',
    exec w (_is_firmware_signed identifier firmware) s = (s', inr (Some firmware)) ∧
    dict_of s' firmware = <["signed" := PyBool signed]> (dict_of s firmware) ∧
    (signed = true ↔ substring "MESSAGE=SUCCESS" text).
Proof.
  intros Hbc Hbuild Htext Hid Hpost.
  eexists _, _. rewrite exec_is_firmware_signed, Hbc, Hbuild, Htext, Hid, Hpost.
  split; [done|]. split; [apply dict_of_set | apply contains_spec].
Qed.

Lemma checkSigned_reads_marker_witness :
  ∃ signed s',
    exec example_world (_is_firmware_signed "iPhone10,3" 0%nat) example_store
      = (s', inr (Some 0%nat)) ∧
    dict_of s' 0%nat = <["signed" := PyBool signed]> (dict_of example_store 0%nat) ∧
    (signed = true ↔
     substring "MESSAGE=SUCCESS" "STATUS=0&MESSAGE=SUCCESS&REQUEST_STRING=").
Proof.
  apply (checkSigned_reads_marker example_world "iPhone10,3" 0%nat example_store
           "D22AP" (PyStr "20A5283p") (Some "20A5283p")
           0x8015 0x6 ["x"%byte; "y"%byte]);
    vm_compute; reflexivity.
Defined.




(** C10.  When [_is_firmware_signed] returns a result, it is the reference
    it was given, the tables are as before, and the record differs from the
    input record by the key [signed] only: its keys are those of the input
    and [signed], and every other key holds what it held.  When it returns
    no result, or raises, no record has been modified. *)
Theorem checkSigned_frame w identifier firmware s s' r :
  exec w (_is_firmware_signed identifier firmware) s = (s', r) →
  match r with
  | inr (Some returned) =>
      returned = firmware ∧
      db s' = db s ∧
      ∃ signed,
        heap s' = <[firmware := <["signed" := PyBool signed]> (dict_of s firmware)]> (heap s) ∧
        dom (dict_of s' firmware) = {["signed"]} ∪ dom (dict_of s firmware) ∧
        ∀ k, k ≠ "signed" → dict_of s' firmware !! k = dict_of s firmware !! k
  | _ => heap s' = heap s
  end.
Proof.
  rewrite exec_is_firmware_signed.
  repeat case_match; intros ?; simplify_eq; try done.
  split; [done|]. split; [done|]. eexists. split; [done|].
  rewrite dict_of_set. split.
  - by rewrite dom_insert_L.
  - intros k Hk. by rewrite lookup_insert_ne.
Qed.

Lemma checkSigned_frame_witness :
  match (exec example_world (_is_firmware_signed "iPhone10,3" 0%nat) example_store).2 with
  | inr (Some returned) =>
      returned = 0%nat ∧
      db (exec example_world (_is_firmware_signed "iPhone10,3" 0%nat) example_store).1
        = db example_store ∧
      ∃ signed,
        heap (exec example_world (_is_firmware_signed "iPhone10,3" 0%nat) example_store).1
          = <[0%nat := <["signed" := PyBool signed]> (dict_of example_store 0%nat)]>
              (heap example_store) ∧
        dom (dict_of (exec example_world (_is_firmware_signed "iPhone10,3" 0%nat)
                        example_store).1 0%nat)
          = {["signed"]} ∪ dom (dict_of example_store 0%nat) ∧
        ∀ k, k ≠ "signed" →
          dict_of (exec example_world (_is_firmware_signed "iPhone10,3" 0%nat)
                     example_store).1 0%nat !! k
          = dict_of example_store 0%nat !! k
  | _ =>
      heap (exec example_world (_is_firmware_signed "iPhone10,3" 0%nat) example_store).1
        = heap example_store
  end.
Proof.
  apply (checkSigned_frame example_world "iPhone10,3" 0%nat example_store).
  apply surjective_pairing.
Defined.

(* ===================================================================== *)
(** * The catalog fetch                                                   *)
(* ===================================================================== *)

Lemma exec_scrape_data_tasks py w s :
  exec w (scrape_data_tasks py) s =
  (s, match net_catalog w with
      | inl e => inl e
      | inr resp =>
          if decide (cat_status resp ≠ 200)
          then inl (HTTPException (cat_status resp) (cat_reason resp))
          else match cat_json resp with
               | inl e => inl e
               | inr data => inr (create_tasks py data)
               end
      end).
Proof.
  unfold scrape_data_tasks. simpl.
  destruct (net_catalog w) as [e|resp]; simpl; [done|].
  destruct (decide _); simpl; [done|].
  by destruct (cat_json resp).
Qed.

Lemma scrape_data_bad_status py w s resp :
  net_catalog w = inr resp →
  cat_status resp ≠ 200 →
  scrape_data py w s s (inl (HTTPException (cat_status resp) (cat_reason resp))) ∧
  ∀ s' r,
    scrape_data py w s s' r →
    s' = s ∧ r = inl (HTTPException (cat_status resp) (cat_reason resp)).
Proof.
  intros Hcat Hstatus.
  assert (exec w (scrape_data_tasks py) s
          = (s, inl (HTTPException (cat_status resp) (cat_reason resp)))) as Hexec.
  { rewrite exec_scrape_data_tasks, Hcat. by destruct (decide _). }
  split; [by constructor|].
  intros s' r Hrun. destruct Hrun as [s' e He | s' tasks s'' r He _];
    rewrite Hexec in He; by simplify_eq.
Qed.

(** C5.  When the catalog fetch is answered with a status outside of 200
    to 299, [scrape_data] raises [HTTPException] with that status and
    reason, in every run, and the store is what it was before the pass. *)
Theorem catalog_failure_aborts py w s resp :
  net_catalog w = inr resp →
  ¬ (200 ≤ cat_status resp < 300) →
  scrape_data py w s s (inl (HTTPException (cat_status resp) (cat_reason resp))) ∧
  ∀ s' r,
    scrape_data py w s s' r →
    s' = s ∧ r = inl (HTTPException (cat_status resp) (cat_reason resp)).
Proof.
  intros Hcat Hstatus. apply scrape_data_bad_status; [done | lia].
Qed.

Lemma catalog_failure_aborts_witness :
  scrape_data example_py failing_world example_store example_store
    (inl (HTTPException 503 "Service Unavailable")) ∧
  ∀ s' r,
    scrape_data example_py failing_world example_store s' r →
    s' = example_store ∧ r = inl (HTTPException 503 "Service Unavailable").
Proof.
  apply (catalog_failure_aborts example_py failing_world example_store
           (CatalogResponse 503 "Service Unavailable" (inr example_catalog)));
    [reflexivity | simpl; lia].
Defined.

(* ===================================================================== *)
(** * The manifest resolver                                               *)
(* ===================================================================== *)

Lemma exec_sync_get_manifest w url s :
  exec w (_sync_get_manifest url) s =
  (s, inr match net_zip_namelist w url with
          | inl _ => None
          | inr names =>
              match List.find (Str.contains "BuildManifest") names with
              | None => None
              | Some entry =>
                  match net_zip_read w url entry with
                  | inl _ => None
                  | inr manifest => Some manifest
                  end
              end
          end).
Proof.
  unfold _sync_get_manifest, next_containing. simpl.
  destruct (net_zip_namelist w url) as [e|names]; simpl; [done|].
  destruct (List.find _ names) as [entry|]; simpl; [|done].
  by destruct (net_zip_read w url entry).
Qed.




(* ===================================================================== *)
(** * Plans: what a scraper coroutine does to the tables                  *)
(* ===================================================================== *)

Lemma issues_bind w {A B} (p : prog A) (f : A → prog B) l l' a o :
  issues w p l (inr a) → issues w (f a) l' o → issues w (bind p f) (l ++ l') o.
Proof.
  revert l. induction p as [b|e|X ev k IH]; intros l; simpl.
  - intros [-> [= ->]]. done.
  - intros [_ [=]].
  - destruct ev; simpl; eauto.
    intros (l0 & -> & Hk) Hf. exists (l0 ++ l'). eauto.
Qed.

Lemma issues_bind_raise w {A B} (p : prog A) (f : A → prog B) l e :
  issues w p l (inl e) → issues w (bind p f) l (inl e).
Proof.
  revert l. induction p as [b|e'|X ev k IH]; intros l; simpl.
  - intros [_ [=]].
  - intros [-> [= ->]]. done.
  - destruct ev; simpl; eauto.
    intros (l0 & -> & Hk). exists l0. eauto.
Qed.

Lemma issues_try_except_return w {A} (p : prog A) h l a :
  issues w p l (inr a) → issues w (try_except p h) l (inr a).
Proof.
  revert l. induction p as [b|e'|X ev k IH]; intros l; simpl.
  - done.
  - intros [_ [=]].
  - destruct ev; simpl; eauto.
    intros (l0 & -> & Hk). exists l0. eauto.
Qed.

Lemma issues_try_except_raise w {A} (p : prog A) h l l' e o :
  issues w p l (inl e) → issues w (h e) l' o →
  issues w (try_except p h) (l ++ l') o.
Proof.
  revert l. induction p as [b|e'|X ev k IH]; intros l; simpl.
  - intros [_ [=]].
  - intros [-> [= ->]]. done.
  - destruct ev; simpl; eauto.
    intros (l0 & -> & Hk) Hh. exists (l0 ++ l'). eauto.
Qed.

Lemma plannable_Ret w {A} (a : A) : plannable w (Ret a).
Proof. by exists [], (inr a). Qed.

Lemma plannable_Raise w {A} e : plannable w (@Raise A e).
Proof. by exists [], (inl e). Qed.

Lemma plannable_lift w {A} (r : result A) : plannable w (lift r).
Proof. destruct r; [apply plannable_Raise | apply plannable_Ret]. Qed.

Lemma plannable_bind w {A B} (p : prog A) (f : A → prog B) :
  plannable w p → (∀ a, plannable w (f a)) → plannable w (bind p f).
Proof.
  intros (l & [e|a] & Hp) Hf.
  - exists l, (inl e). by apply issues_bind_raise.
  - destruct (Hf a) as (l' & o & Hfa). exists (l ++ l'), o.
    by eapply issues_bind.
Qed.

Lemma plannable_try_except w {A} (p : prog A) h :
  plannable w p → (∀ e, plannable w (h e)) → plannable w (try_except p h).
Proof.
  intros (l & [e|a] & Hp) Hh.
  - destruct (Hh e) as (l' & o & He). exists (l ++ l'), o.
    by eapply issues_try_except_raise.
  - exists l, (inr a). by apply issues_try_except_return.
Qed.

(** The source's [try: INSERT; commit  except IntegrityError: pass]. *)
Lemma issues_guarded_insert w i :
  issues w
    (except_IntegrityError (await (INSERT i);; ask COMMIT) (Ret tt))
    [i] (if overflows i then inl OverflowError else inr tt).
Proof.
  simpl. exists []. split; [done|]. intros r. unfold possible_reply.
  destruct (overflows i).
  - intros ->. done.
  - intros [-> | ->]; done.
Qed.

Lemma plannable_network w {X A} (ev : event X) (k : X → prog A) :
  is_network ev = true → (∀ x, plannable w (k x)) → plannable w (Await ev k).
Proof.
  intros Hnet Hk. unfold plannable. destruct ev; try done; simpl; apply Hk.
Qed.

Lemma plannable_await w {X} (ev : event (result X)) :
  is_network ev = true → plannable w (await ev).
Proof. intros Hnet. apply plannable_network; [done|]. apply plannable_lift. Qed.

Lemma plannable_COMMIT w {A} (k : unit → prog A) :
  (∀ x, plannable w (k x)) → plannable w (Await COMMIT k).
Proof. intros Hk. apply Hk. Qed.

Lemma plannable_guarded_insert w i :
  plannable w (except_IntegrityError (await (INSERT i);; ask COMMIT) (Ret tt)).
Proof. eexists _, _. apply issues_guarded_insert. Qed.

Lemma plannable_except_Raise w {A} e (h : prog A) :
  plannable w h → plannable w (except_IntegrityError (Raise e) h).
Proof.
  intros Hh. unfold except_IntegrityError. simpl.
  case_decide; [done | apply plannable_Raise].
Qed.

Section ScraperPlans.

Context (py : pylib) (w : world).

Lemma plannable_scrape_device d : plannable w (_scrape_device d).
Proof.
  unfold _scrape_device. destruct (hd_error (board d)) as [b|]; simpl.
  - apply plannable_guarded_insert.
  - apply plannable_except_Raise, plannable_Ret.
Qed.

Lemma plannable_probe n src l : plannable w (probe n src l).
Proof.
  induction n as [|n IH]; cbn [probe]; [apply plannable_Ret|].
  apply plannable_network; [done|]. intros [e|resp]; simpl.
  - apply plannable_Raise.
  - destruct (decide _); [done|].
    destruct (head_content_length resp); simpl;
      [apply plannable_Ret | apply plannable_Raise].
Qed.

Lemma plannable_first_reachable src links :
  plannable w (first_reachable src links).
Proof.
  induction links as [|l rest IH]; cbn [first_reachable]; [apply plannable_Ret|].
  apply plannable_bind; [apply plannable_probe|].
  intros [hit|]; [apply plannable_Ret | done].
Qed.

Lemma plannable_sync_get_manifest url : plannable w (_sync_get_manifest url).
Proof.
  unfold _sync_get_manifest.
  apply plannable_try_except; [|intros; apply plannable_Ret].
  apply plannable_bind; [by apply plannable_await|]. intros names.
  apply plannable_bind; [apply plannable_lift|]. intros name.
  apply plannable_bind; [by apply plannable_await|]. intros manifest.
  apply plannable_Ret.
Qed.

Lemma plannable_get_manifest url : plannable w (get_manifest py url).
Proof.
  unfold get_manifest.
  apply plannable_bind; [apply plannable_lift|]. intros parsed.
  apply plannable_bind; [apply plannable_lift|]. intros dir.
  apply plannable_bind; [by apply plannable_await|]. intros resp.
  destruct (decide _); [|apply plannable_sync_get_manifest].
  apply plannable_bind; [apply plannable_lift|]. intros body.
  apply plannable_Ret.
Qed.

Lemma plannable_fetch_manifest n url : plannable w (fetch_manifest py n url).
Proof.
  induction n as [|n IH]; cbn [fetch_manifest]; [apply plannable_Ret|].
  apply plannable_bind.
  - apply plannable_try_except; [apply plannable_get_manifest|].
    intros; apply plannable_Ret.
  - intros [m|]; [apply plannable_Ret | done].
Qed.

Lemma plannable_insert_identity_row i : plannable w (insert_identity_row i).
Proof.
  unfold insert_identity_row.
  destruct (Str.int16 (ApChipID i)) as [e|chip]; simpl;
    [apply plannable_except_Raise, plannable_Ret|].
  destruct (Str.int16 (ApBoardID i)) as [e|board]; simpl;
    [apply plannable_except_Raise, plannable_Ret|].
  apply plannable_guarded_insert.
Qed.

Lemma plannable_scrape_identities l : plannable w (scrape_identities l).
Proof.
  induction l as [|i rest IH]; cbn [scrape_identities]; [apply plannable_Ret|].
  destruct (RestoreBehavior i) as [behavior|]; [|done].
  destruct (decide _); [done|].
  apply plannable_bind; [apply plannable_insert_identity_row | done].
Qed.

Lemma plannable_scrape_sources fw srcs : plannable w (scrape_sources py fw srcs).
Proof.
  induction srcs as [|src rest IH]; cbn [scrape_sources]; [apply plannable_Ret|].
  destruct (decide _); [done|].
  apply plannable_bind; [apply plannable_first_reachable|].
  intros [[[url size] supported]|]; [|done].
  apply plannable_bind; [apply plannable_guarded_insert|]. intros _.
  apply plannable_bind; [apply plannable_fetch_manifest|].
  intros [raw|]; [|apply plannable_Ret].
  apply plannable_bind; [apply plannable_lift|]. intros identities.
  apply plannable_bind; [apply plannable_scrape_identities | done].
Qed.

Lemma plannable_scrape_firmware fw : plannable w (_scrape_firmware py fw).
Proof.
  unfold _scrape_firmware.
  apply plannable_bind; [apply plannable_lift|]. intros srcs.
  apply plannable_scrape_sources.
Qed.

End ScraperPlans.

(* ===================================================================== *)
(** * INSERTs and the uniqueness constraints                              *)
(* ===================================================================== *)

Lemma extends_refl d : extends d d.
Proof. by repeat split. Qed.

Lemma extends_trans d1 d2 d3 : extends d1 d2 → extends d2 d3 → extends d1 d3.
Proof.
  intros (? & ? & ?) (? & ? & ?). repeat split; by etrans.
Qed.

Lemma Exists_subseteq {A} (P : A → Prop) (l l' : list A) :
  l ⊆ l' → Exists P l → Exists P l'.
Proof.
  intros Hsub (x & Hx & HP)%Exists_exists. apply Exists_exists. eauto.
Qed.

Lemma insert_possible i d :
  possible_reply i
    match Sql.insert i d with
    | inl e => inl e
    | inr _ => inr tt
    end.
Proof.
  unfold possible_reply.
  destruct i as [r|r|r]; simpl;
    unfold Sql.insert_device, Sql.insert_firmware, Sql.insert_identity.
  - case_decide; auto.
  - case_decide; auto.
  - destruct (negb _); [done|]. case_decide; auto.
Qed.

Lemma insert_settles i d d' :
  Sql.insert i d = inr d' → settled i d' ∧ extends d d'.
Proof.
  unfold settled.
  destruct i as [r|r|r]; simpl;
    unfold Sql.insert_device, Sql.insert_firmware, Sql.insert_identity.
  - case_decide; intros [= <-]. simpl. split.
    + exists IntegrityError. rewrite decide_True; [done|].
      apply Exists_app. right. constructor. by left.
    + repeat split; simpl; try done. by apply sublist_subseteq, sublist_inserts_r.
  - case_decide; intros [= <-]. simpl. split.
    + exists IntegrityError. rewrite decide_True; [done|].
      apply Exists_app. right. by constructor.
    + repeat split; simpl; try done. by apply sublist_subseteq, sublist_inserts_r.
  - destruct (negb _) eqn:Hfit; [done|]. case_decide; intros [= <-]. simpl. split.
    + exists IntegrityError. rewrite decide_True; [done|].
      apply Exists_app. right. constructor. by left.
    + repeat split; simpl; try done. by apply sublist_subseteq, sublist_inserts_r.
Qed.

Lemma settled_extends i d d' : extends d d' → settled i d → settled i d'.
Proof.
  intros (Hd & Hf & Hb) [e He]. unfold settled.
  destruct i as [r|r|r]; simpl in *;
    unfold Sql.insert_device, Sql.insert_firmware, Sql.insert_identity in *.
  - case_decide; [|done]. rewrite decide_True; eauto using Exists_subseteq.
  - case_decide; [|done]. rewrite decide_True; eauto using Exists_subseteq.
  - destruct (negb _); [eauto|].
    case_decide; [|done]. rewrite decide_True; eauto using Exists_subseteq.
Qed.

Lemma insert_effect_extends i s s' :
  insert_effect i s s' → extends (db s) (db s') ∧ settled i (db s').
Proof.
  intros [[-> Hs] | [_ Hins]].
  - split; [apply extends_refl | done].
  - apply insert_settles in Hins as [? ?]. done.
Qed.

(** One request of a planned coroutine: the plan loses its head when the
    request is an INSERT and is unchanged otherwise. *)
Lemma handle_issues w {X A} (ev : event X) (k : X → prog A) l o s s' x :
  issues w (Await ev k) l o →
  handle w ev s = (s', x) →
  ∃ l', issues w (k x) l' o ∧
        ((l' = l ∧ s' = s) ∨ (∃ i, l = i :: l' ∧ insert_effect i s s')).
Proof.
  destruct ev; simpl; try done; try (intros Hk [= <- <-]; eauto).
  intros (l' & -> & Hk). unfold run_insert.
  pose proof (insert_possible i (db s)) as Hposs.
  destruct (Sql.insert i (db s)) as [e|d'] eqn:Hins; intros [= <- <-].
  - exists l'. split; [auto|]. right. exists i. split; [done|].
    left. split; [done|]. by exists e.
  - exists l'. split; [auto|]. right. exists i. split; [done|].
    right. done.
Qed.

(* ===================================================================== *)
(** * Plans along a schedule                                              *)
(* ===================================================================== *)

Lemma task_step_plans w s n t s' n' t' plan :
  planned w t plan →
  task_step w s n t = Some (s', n', t') →
  ∃ l', planned w t' (l', plan.2) ∧
        ((l' = plan.1 ∧ s' = s) ∨ (∃ i, plan.1 = i :: l' ∧ insert_effect i s s')).
Proof.
  destruct plan as [l oe], t as [A m aw p]. intros (o & Hissues & Hout).
  simpl in *.
  assert (∀ m' aw' s0 n0,
    Some (s0, n0, Task A m' aw' p) = Some (s', n', t') → s0 = s →
    ∃ l', planned w t' (l', oe) ∧
          ((l' = l ∧ s' = s) ∨ (∃ i, l = i :: l' ∧ insert_effect i s s'))) as Hsame.
  { intros m' aw' s0 n0 [= <- <- <-] ->. exists l. split; [by exists o | by left]. }
  destruct p as [a|e|X ev k].
  - destruct m; simpl; [done | destruct n | ]; eauto; done.
  - destruct m; simpl; [done | destruct n | ]; eauto; done.
  - assert (∀ m',
      (if is_network ev && negb aw
       then Some (s, n, Task A m' true (Await ev k))
       else let '(s1, x) := handle w ev s in Some (s1, n, Task A m' false (k x)))
      = Some (s', n', t') →
      ∃ l', planned w t' (l', oe) ∧
            ((l' = l ∧ s' = s) ∨ (∃ i, l = i :: l' ∧ insert_effect i s s'))) as Hev.
    { intros m'. destruct (_ && _); [eauto|].
      destruct (handle w ev s) as [s1 x] eqn:Hh. intros [= <- <- <-].
      destruct (handle_issues _ _ _ _ _ _ _ _ Hissues Hh) as (l' & Hk & Heff).
      exists l'. split; [by exists o | done]. }
    destruct m; simpl; [apply Hev | destruct n; [done | eauto] | apply Hev].
Qed.

Lemma step_at_plans w idx c c' plans :
  Forall2 (planned w) (pool c) plans →
  step_at w idx c = Some c' →
  ∃ plan l',
    plans !! idx = Some plan ∧
    Forall2 (planned w) (pool c') (<[idx := (l', plan.2)]> plans) ∧
    ((l' = plan.1 ∧ cfg_store c' = cfg_store c) ∨
     (∃ i, plan.1 = i :: l' ∧ insert_effect i (cfg_store c) (cfg_store c'))).
Proof.
  intros Hplans. unfold step_at.
  destruct (pool c !! idx) as [t|] eqn:Ht; [|done].
  destruct (task_step w _ _ t) as [[[s' n'] t']|] eqn:Hstep; [|done].
  intros [= <-]. simpl.
  destruct (Forall2_lookup_l _ _ _ _ _ Hplans Ht) as (plan & Hplan & Hp).
  destruct (task_step_plans _ _ _ _ _ _ _ _ Hp Hstep) as (l' & Hp' & Heff).
  exists plan, l'. split; [done|]. split; [|done].
  by apply Forall2_insert.
Qed.

Lemma outcomes_insert (plans : list (list insertion * option exn)) idx plan l' :
  plans !! idx = Some plan →
  (<[idx := (l', plan.2)]> plans).*2 = plans.*2.
Proof.
  intros Hplan. rewrite list_fmap_insert. simpl.
  apply list_insert_id. by rewrite list_lookup_fmap, Hplan.
Qed.

Lemma elem_of_insert_plan (plans : list (list insertion * option exn)) idx plan x y :
  plans !! idx = Some plan →
  y ∈ <[idx := x]> plans → y = x ∨ (y ∈ plans).
Proof.
  intros Hplan (j & Hj)%list_elem_of_lookup.
  destruct (decide (idx = j)) as [<-|Hne].
  - rewrite list_lookup_insert_eq in Hj by eauto using lookup_lt_Some.
    left. congruence.
  - rewrite list_lookup_insert_ne in Hj by done.
    right. eapply list_elem_of_lookup_2. eauto.
Qed.

Lemma elem_of_insert_plan_other (plans : list (list insertion * option exn))
    idx plan x y :
  plans !! idx = Some plan →
  y ∈ plans → y = plan ∨ y ∈ <[idx := x]> plans.
Proof.
  intros Hplan (j & Hj)%list_elem_of_lookup.
  destruct (decide (idx = j)) as [<-|Hne].
  - left. congruence.
  - right. eapply list_elem_of_lookup_2. by rewrite list_lookup_insert_ne.
Qed.

(** First pass: the tasks work through their plans. *)
Lemma run_covers w P sched : ∀ c plans,
  Forall2 (planned w) (pool c) plans →
  covers P (db (cfg_store c)) plans →
  ∃ plans',
    Forall2 (planned w) (pool (run w sched c)) plans' ∧
    plans'.*2 = plans.*2 ∧
    covers P (db (cfg_store (run w sched c))) plans'.
Proof.
  induction sched as [|idx sched IH]; intros c plans Hplans Hcov; simpl.
  { by exists plans. }
  destruct (step_at w idx c) as [c'|] eqn:Hstep; simpl; [|by apply IH].
  destruct (step_at_plans _ _ _ _ _ Hplans Hstep)
    as (plan & l' & Hidx & Hplans' & Heff).
  destruct (IH c' _ Hplans') as (plans'' & ? & Hout & ?).
  - intros i Hi. 
    assert (extends (db (cfg_store c)) (db (cfg_store c'))) as Hext.
    { destruct Heff as [[_ ->] | (i0 & _ & Hins)]; [apply extends_refl|].
      by apply insert_effect_extends in Hins as [? _]. }
    destruct (Hcov i Hi) as [Hs | (plan0 & Hin & Hi0)].
    { left. by eapply settled_extends. }
    destruct (elem_of_insert_plan_other _ _ _ (l', plan.2) _ Hidx Hin)
      as [-> | Hin']; [|right; eauto].
    destruct Heff as [[-> _] | (i0 & Hl & Hins)].
    + right. exists (plan.1, plan.2). split; [|done].
      eapply list_elem_of_lookup_2.
      apply list_lookup_insert_eq. eauto using lookup_lt_Some.
    + rewrite Hl in Hi0. apply elem_of_cons in Hi0 as [-> | Hi0].
      * left. by apply insert_effect_extends in Hins as [_ ?].
      * right. exists (l', plan.2). split; [|done].
        eapply list_elem_of_lookup_2.
        apply list_lookup_insert_eq. eauto using lookup_lt_Some.
  - exists plans''. split; [done|]. split; [|done].
    rewrite Hout. by eapply outcomes_insert.
Qed.

(** Second pass: when every planned INSERT is refused, nothing moves. *)
Lemma run_frozen w sched : ∀ c plans,
  Forall2 (planned w) (pool c) plans →
  (∀ plan i, plan ∈ plans → i ∈ plan.1 → settled i (db (cfg_store c))) →
  cfg_store (run w sched c) = cfg_store c ∧
  ∃ plans',
    Forall2 (planned w) (pool (run w sched c)) plans' ∧
    plans'.*2 = plans.*2.
Proof.
  induction sched as [|idx sched IH]; intros c plans Hplans Hset; simpl.
  { split; [done|]. by exists plans. }
  destruct (step_at w idx c) as [c'|] eqn:Hstep; simpl; [|by apply IH].
  destruct (step_at_plans _ _ _ _ _ Hplans Hstep)
    as (plan & l' & Hidx & Hplans' & Heff).
  assert (plan ∈ plans) as Hplan by (by eapply list_elem_of_lookup_2).
  assert (cfg_store c' = cfg_store c ∧ l' ⊆ plan.1) as [Hstore Hsub].
  { destruct Heff as [[-> ->] | (i & Hl & [[-> _] | [_ Hins]])]; [done| |].
    - split; [done|]. rewrite Hl. intros x Hx. by right.
    - destruct (Hset plan i Hplan) as [e He]; [rewrite Hl; by left|].
      congruence. }
  destruct (IH c' _ Hplans') as (Hstore' & plans'' & ? & Hout).
  - intros plan0 i Hin Hi. rewrite Hstore.
    destruct (elem_of_insert_plan _ _ _ _ _ Hidx Hin) as [-> | Hin'].
    + apply (Hset plan i Hplan). by apply Hsub.
    + by apply (Hset plan0 i).
  - split; [congruence|]. exists plans''. split; [done|].
    rewrite Hout. by eapply outcomes_insert.
Qed.

(* ===================================================================== *)
(** * Every group of tasks can be run to its end                          *)
(* ===================================================================== *)

Lemma run_app w sched1 sched2 c :
  run w (sched1 ++ sched2) c = run w sched2 (run w sched1 c).
Proof. revert c. induction sched1 as [|i sched1 IH]; intros c; simpl; [done|]. apply IH. Qed.

Lemma step_at_lookup w idx s n tasks t s' n' t' :
  tasks !! idx = Some t →
  task_step w s n t = Some (s', n', t') →
  run w [idx] (Config s n tasks) = Config s' n' (<[idx := t']> tasks).
Proof. intros Ht Hstep. simpl. unfold step_at. simpl. by rewrite Ht, Hstep. Qed.

(** A task that is not waiting for a permit runs alone to its end; the
    permits do not decrease. *)
Lemma run_alone w {A} (p : prog A) : ∀ m aw s n tasks idx,
  m ≠ Queued →
  tasks !! idx = Some (Task A m aw p) →
  ∃ sched s' n' t',
    run w sched (Config s n tasks) = Config s' n' (<[idx := t']> tasks) ∧
    finished t' ∧ n' = (if m is Holding then S n else n).
Proof.
  induction p as [a|e|X ev k IH]; intros m aw s n tasks idx Hm Hidx.
  - destruct m; [|done|].
    + exists [], s, n, (Task A Outside aw (Ret a)).
      simpl. rewrite list_insert_id by done. done.
    + exists [idx], s, (S n), (Task A Outside false (Ret a)).
      split; [by eapply step_at_lookup|]. done.
  - destruct m; [|done|].
    + exists [], s, n, (Task A Outside aw (Raise e)).
      simpl. rewrite list_insert_id by done. done.
    + exists [idx], s, (S n), (Task A Outside false (Raise e)).
      split; [by eapply step_at_lookup|]. done.
  - assert (∀ aw0 tasks0, tasks0 !! idx = Some (Task A m aw0 (Await ev k)) →
            is_network ev && negb aw0 = false →
            ∃ sched s' n' t',
              run w sched (Config s n tasks0) = Config s' n' (<[idx := t']> tasks0) ∧
              finished t' ∧ n' = (if m is Holding then S n else n)) as Hserve.
    { intros aw0 tasks0 Hidx0 Hnow.
      destruct (handle w ev s) as [s1 x] eqn:Hh.
      assert (task_step w s n (Task A m aw0 (Await ev k))
              = Some (s1, n, Task A m false (k x))) as Hstep.
      { destruct m; simpl; [|done|]; by rewrite Hnow, Hh. }
      destruct (IH x m false s1 n (<[idx := Task A m false (k x)]> tasks0) idx Hm)
        as (sched & s' & n' & t' & Hrun & Hfin & Hn).
      { apply list_lookup_insert_eq. eauto using lookup_lt_Some. }
      exists (idx :: sched), s', n', t'. split; [|done].
      change (idx :: sched) with ([idx] ++ sched). rewrite run_app.
      rewrite (step_at_lookup _ _ _ _ _ _ _ _ _ Hidx0 Hstep), Hrun.
      by rewrite list_insert_insert_eq. }
    destruct (is_network ev && negb aw) eqn:Hnow; [|by eapply Hserve].
    assert (task_step w s n (Task A m aw (Await ev k))
            = Some (s, n, Task A m true (Await ev k))) as Hsend.
    { destruct m; simpl; [|done|]; by rewrite Hnow. }
    destruct (Hserve true (<[idx := Task A m true (Await ev k)]> tasks))
      as (sched & s' & n' & t' & Hrun & Hfin & Hn).
    { apply list_lookup_insert_eq. eauto using lookup_lt_Some. }
    { by rewrite andb_false_r. }
    exists (idx :: sched), s', n', t'. split; [|done].
    change (idx :: sched) with ([idx] ++ sched). rewrite run_app.
    rewrite (step_at_lookup _ _ _ _ _ _ _ _ _ Hidx Hsend), Hrun.
    by rewrite list_insert_insert_eq.
Qed.

(** With one permit free, any task runs alone to its end and leaves the
    permit free. *)
Lemma run_task w t s n tasks idx :
  tasks !! idx = Some t →
  ∃ sched s' n' t',
    run w sched (Config s (S n) tasks) = Config s' (S n') (<[idx := t']> tasks) ∧
    finished t'.
Proof.
  destruct t as [A m aw p]. intros Hidx.
  destruct (decide (m = Queued)) as [->|Hm].
  - destruct (run_alone w p Holding false s n
                (<[idx := Task A Holding false p]> tasks) idx)
      as (sched & s' & n' & t' & Hrun & Hfin & ->); [done| |].
    { apply list_lookup_insert_eq. eauto using lookup_lt_Some. }
    exists (idx :: sched), s', n, t'. split; [|done].
    change (idx :: sched) with ([idx] ++ sched). rewrite run_app.
    rewrite (step_at_lookup w idx s (S n) tasks _ s n (Task A Holding false p) Hidx)
      by done.
    by rewrite Hrun, list_insert_insert_eq.
  - destruct (run_alone w p m aw s (S n) tasks idx Hm Hidx)
      as (sched & s' & n' & t' & Hrun & Hfin & ->).
    exists sched, s'. destruct m; [by exists n, t' | done | by exists (S n), t'].
Qed.

(** With one permit free, the tasks from [idx] on can be run to their end
    one after the other. *)
Lemma run_all w : ∀ k tasks s n,
  ∃ sched c,
    run w sched (Config s (S n) tasks) = c ∧
    (0 < permits c)%nat ∧
    List.length (pool c) = List.length tasks ∧
    (∀ j t, (j < k)%nat → pool c !! j = Some t → finished t) ∧
    (∀ j, (k ≤ j)%nat → pool c !! j = tasks !! j).
Proof.
  induction k as [|k IH]; intros tasks s n.
  { exists [], (Config s (S n) tasks). simpl.
    split; [done|]. split; [lia|]. split; [done|]. split; [intros; lia | done]. }
  destruct (IH tasks s n) as (sched & [s1 n1 tasks1] & Hrun & Hn & Hlen & Hdone & Hrest).
  simpl in *. destruct (tasks1 !! k) as [t|] eqn:Hk.
  - destruct n1 as [|n1]; [lia|].
    destruct (run_task w t s1 n1 tasks1 k Hk) as (sched' & s' & n' & t' & Hrun' & Hfin).
    exists (sched ++ sched'), (Config s' (S n') (<[k := t']> tasks1)).
    rewrite run_app, Hrun, Hrun'. simpl. split; [done|]. split; [lia|].
    split; [by rewrite length_insert|]. split.
    + intros j t0 Hj. destruct (decide (j = k)) as [->|Hne].
      * rewrite list_lookup_insert_eq by eauto using lookup_lt_Some. by intros [= <-].
      * rewrite list_lookup_insert_ne by done. apply Hdone. lia.
    + intros j Hj. rewrite list_lookup_insert_ne by lia. apply Hrest. lia.
  - exists sched, (Config s1 n1 tasks1). simpl.
    split; [done|]. split; [done|]. split; [done|]. split.
    + intros j t0 Hj. destruct (decide (j = k)) as [->|Hne]; [congruence|].
      apply Hdone. lia.
    + intros j Hj. apply Hrest. lia.
Qed.

Lemma run_to_end w tasks s :
  ∃ sched, Forall finished (pool (run w sched (Config s HTTP_SEMAPHORE tasks))).
Proof.
  destruct (run_all w (List.length tasks) tasks s 99)
    as (sched & c & Hrun & _ & Hlen & Hdone & _).
  exists sched. change HTTP_SEMAPHORE with 100%nat. rewrite Hrun.
  apply Forall_lookup. intros j t Hj. apply (Hdone j t); [|done].
  rewrite <- Hlen. eauto using lookup_lt_Some.
Qed.

(* ===================================================================== *)
(** * A second pass over the same catalog                                 *)
(* ===================================================================== *)

Lemma initial_plans w tasks :
  Forall (λ t, plannable w (code t)) tasks →
  ∃ plans, Forall2 (planned w) tasks plans.
Proof.
  induction 1 as [|t tasks (l & o & Ht) _ [plans IH]].
  - by exists [].
  - exists ((l, error_of o) :: plans). constructor; [by exists o | done].
Qed.

Lemma returned_plan w t plan : planned w t plan → returned t → plan = ([], None).
Proof.
  destruct t as [A m aw p], plan as [l oe].
  intros (o & Hissues & Hout) [_ [a Hcode]]. simpl in *. subst p.
  destruct Hissues as [-> ->]. by subst.
Qed.

Lemma raised_plan w t plan e : planned w t plan → raised e t → plan.2 = Some e.
Proof.
  destruct t as [A m aw p], plan as [l oe].
  intros (o & Hissues & Hout) [_ Hcode]. simpl in *. subst p.
  destruct Hissues as [-> ->]. by subst.
Qed.

Lemma finished_cases t : finished t → returned t ∨ ∃ e, raised e t.
Proof.
  destruct t as [A m aw p]. intros [Hm Hp]. simpl in *.
  destruct p as [a|e|]; [left | right | done].
  - split; eauto.
  - exists e. by split.
Qed.

(** No task of a planned pool raises when every plan ends in a return. *)
Lemma no_raise w tasks (plans : list (list insertion * option exn)) e :
  Forall2 (planned w) tasks plans →
  (∀ plan, plan ∈ plans → plan.2 = None) →
  ¬ Exists (raised e) tasks.
Proof.
  intros Hplans Hnone (t & Ht & Hraised)%Exists_exists.
  apply list_elem_of_lookup in Ht as [j Hj].
  destruct (Forall2_lookup_l _ _ _ _ _ Hplans Hj) as (plan & Hplan & Hp).
  apply (raised_plan _ _ _ _ Hp) in Hraised.
  rewrite Hnone in Hraised; [done|]. by eapply list_elem_of_lookup_2.
Qed.

Lemma outcomes_None (plans plans' : list (list insertion * option exn)) :
  plans'.*2 = plans.*2 →
  (∀ plan, plan ∈ plans → plan.2 = None) →
  ∀ plan, plan ∈ plans' → plan.2 = None.
Proof.
  intros Heq Hnone plan Hin.
  assert (plan.2 ∈ plans.*2) as (plan0 & -> & Hin0)%list_elem_of_fmap.
  { rewrite <- Heq. by apply list_elem_of_fmap_2. }
  by apply Hnone.
Qed.

Lemma TaskGroup_idempotent w tasks s0 s1 :
  Forall (λ t, plannable w (code t)) tasks →
  TaskGroup w s0 tasks s1 (inr tt) →
  TaskGroup w s1 tasks s1 (inr tt) ∧
  ∀ s2 r, TaskGroup w s1 tasks s2 r → s2 = s1 ∧ r = inr tt.
Proof.
  intros (plans0 & Hplans0)%initial_plans Hfirst.
  inversion Hfirst as [sched1 c1 Hrun1 Hret1 Hs1 |]; subst.
  set (P := λ i, ∃ plan, plan ∈ plans0 ∧ i ∈ plan.1).
  destruct (run_covers w P sched1 (Config s0 HTTP_SEMAPHORE tasks) plans0)
    as (plans1 & Hplans1 & Hout1 & Hcov1); [done | by right |].
  set (c1 := run w sched1 (Config s0 HTTP_SEMAPHORE tasks)) in *.
  assert (∀ plan, plan ∈ plans1 → plan = ([], None)) as Hdone.
  { intros plan (j & Hj)%list_elem_of_lookup.
    destruct (Forall2_lookup_r _ _ _ _ _ Hplans1 Hj) as (t & Ht & Hp).
    apply (returned_plan _ _ _ Hp).
    eapply Forall_lookup_1; eauto. }
  assert (∀ plan i, plan ∈ plans0 → i ∈ plan.1 → settled i (db (cfg_store c1)))
    as Hsettled.
  { intros plan i Hplan Hi. destruct (Hcov1 i) as [?|(plan1 & Hin1 & Hi1)];
      [by exists plan | done |].
    rewrite (Hdone _ Hin1) in Hi1. by apply elem_of_nil in Hi1. }
  assert (∀ plan, plan ∈ plans0 → plan.2 = None) as Hnone.
  { apply (outcomes_None plans1); [done|].
    intros plan Hin. by rewrite (Hdone _ Hin). }
  assert (∀ sched,
    cfg_store (run w sched (Config (cfg_store c1) HTTP_SEMAPHORE tasks)) = cfg_store c1 ∧
    ∀ e, ¬ Exists (raised e)
             (pool (run w sched (Config (cfg_store c1) HTTP_SEMAPHORE tasks))))
    as Hsecond.
  { intros sched.
    destruct (run_frozen w sched (Config (cfg_store c1) HTTP_SEMAPHORE tasks) plans0)
      as (Hstore & plans2 & Hplans2 & Hout2); [done | done |].
    split; [done|]. intros e. apply (no_raise w _ plans2); [done|].
    by apply (outcomes_None plans0). }
  split.
  - destruct (run_to_end w tasks (cfg_store c1)) as [sched Hfin].
    destruct (Hsecond sched) as [Hstore Hnoraise].
    rewrite <- Hstore at 2. econstructor; [done|].
    apply Forall_forall. intros t Ht.
    destruct (finished_cases t) as [?|[e He]]; [|done|].
    { eapply Forall_forall; [exact Hfin | done]. }
    destruct (Hnoraise e). apply Exists_exists. eauto.
  - intros s2 r Hsecond2.
    inversion Hsecond2 as [sched c2 Hrun2 Hret2 | sched c2 e Hrun2 Hraise2]; subst.
    + by destruct (Hsecond sched) as [-> _].
    + by destruct (Hsecond sched) as [_ []%(.$ e)].
Qed.

Lemma create_tasks_plannable py w data :
  Forall (λ t, plannable w (code t)) (spawn <$> create_tasks py data).
Proof.
  unfold create_tasks. rewrite fmap_app, <- !list_fmap_compose.
  apply Forall_app. split; apply Forall_fmap, Forall_forall; intros x _; simpl.
  - apply plannable_scrape_device.
  - apply plannable_scrape_firmware.
Qed.

(** C4.  After a pass of [scrape_data] that returned, a second pass on the
    same network answers can run, and every run of it, under any schedule
    of its tasks, returns without an error and leaves the store exactly as
    the first pass left it: the same rows in [devices], [firmwares] and
    [buildmanifest], none added.  Every INSERT of the second pass violates
    a uniqueness constraint and the violation is swallowed. *)
Theorem harvest_idempotent py w s0 s1 :
  scrape_data py w s0 s1 (inr tt) →
  scrape_data py w s1 s1 (inr tt) ∧
  ∀ s2 r, scrape_data py w s1 s2 r → s2 = s1 ∧ r = inr tt.
Proof.
  intros Hfirst.
  inversion Hfirst as [| s0' tasks s1' r Hexec Hgroup]; subst.
  rewrite exec_scrape_data_tasks in Hexec. injection Hexec as <- Htasks.
  assert (∀ s, exec w (scrape_data_tasks py) s = (s, inr tasks)) as Hexec.
  { intros s. by rewrite exec_scrape_data_tasks, Htasks. }
  assert (Forall (λ t, plannable w (code t)) (spawn <$> tasks)) as Hplannable.
  { destruct (net_catalog w) as [|resp]; [done|]. destruct (decide _); [done|].
    destruct (cat_json resp) as [|data]; [done|]. injection Htasks as <-.
    apply create_tasks_plannable. }
  destruct (TaskGroup_idempotent w _ _ _ Hplannable Hgroup) as [Hagain Honly].
  split.
  - by eapply scrape_data_joins.
  - intros s2 r Hsecond.
    inversion Hsecond as [s' e He | s' tasks' s'' r' He Hgroup']; subst;
      rewrite Hexec in He; simplify_eq. by apply Honly.
Qed.

Lemma TaskGroup_returns_to w s tasks sched s' :
  cfg_store (run w sched (Config s HTTP_SEMAPHORE tasks)) = s' →
  Forall returned (pool (run w sched (Config s HTTP_SEMAPHORE tasks))) →
  TaskGroup w s tasks s' (inr tt).
Proof. intros <- Hret. by econstructor. Qed.

Lemma harvest_idempotent_witness :
  scrape_data example_py example_world harvested_store harvested_store (inr tt) ∧
  ∀ s2 r,
    scrape_data example_py example_world harvested_store s2 r →
    s2 = harvested_store ∧ r = inr tt.
Proof.
  apply (harvest_idempotent example_py example_world empty_store harvested_store).
  eapply scrape_data_joins; [reflexivity|].
  apply (TaskGroup_returns_to _ _ _ example_schedule).
  - vm_compute. reflexivity.
  - vm_compute. repeat constructor; eauto.
Defined.

(* ===================================================================== *)
(** * How a pass ends                                                     *)
(* ===================================================================== *)





Lemma finished_pool tasks :
  Forall finished tasks →
  Forall returned tasks ∨ ∃ e, Exists (raised e) tasks.
Proof.
  induction 1 as [|t tasks Ht _ [IH | [e IH]]].
  - left. constructor.
  - destruct (finished_cases t Ht) as [? | [e ?]].
    + left. by constructor.
    + right. exists e. by constructor.
  - right. exists e. by constructor.
Qed.

(** Every group of tasks ends, one way or the other. *)
Lemma TaskGroup_total w tasks s : ∃ s' r, TaskGroup w s tasks s' r.
Proof.
  destruct (run_to_end w tasks s) as [sched Hfin].
  destruct (finished_pool _ Hfin) as [Hret | [e Hraise]].
  - eexists _, _. by eapply TaskGroup_returns.
  - eexists _, _. by eapply TaskGroup_raises.
Qed.

Lemma scrape_data_total py w s : ∃ s' r, scrape_data py w s s' r.
Proof.
  destruct (exec w (scrape_data_tasks py) s) as [s' [e|tasks]] eqn:Hexec.
  - exists s', (inl e). by constructor.
  - destruct (TaskGroup_total w (spawn <$> tasks) s') as (s'' & r & Hgroup).
    exists s'', r. by econstructor.
Qed.

(* ===================================================================== *)
(** * Build identities that cannot be inserted                            *)
(* ===================================================================== *)

Lemma int16_error x e : Str.int16 x = inl e → e = ValueError.
Proof.
  unfold Str.int16. destruct (Str.lstrip x) as [|[[] [] [] [] [] [] [] []] ?];
    destruct (Str.digits16 _ _ _); congruence.
Qed.





(* ===================================================================== *)
(** * The refresh loop                                                    *)
(* ===================================================================== *)

Lemma main_crashed_stuck py env e s st : ¬ main_step py env (Crashed e s) st.
Proof. inversion 1. Qed.

Lemma main_sleeping_next py env secs i s st :
  main_step py env (Sleeping secs i s) st → secs = 60 ∧ st = Scraping (S i) s.
Proof. by inversion 1. Qed.

(** C8, amended.  Every iteration of the loop of [main] runs
    [scrape_data].  When the pass returns, the loop sleeps 60 seconds and
    then starts the next iteration, and does nothing else.  When the pass
    raises, the exception leaves [main]: there is no sleep, no retry and no
    further iteration. *)
Theorem main_iteration py env i s :
  (∃ st, main_step py env (Scraping i s) st) ∧
  ∀ st,
    main_step py env (Scraping i s) st →
    (∃ s', st = Sleeping 60 i s' ∧
           scrape_data py (env i) s s' (inr tt) ∧
           main_step py env st (Scraping (S i) s') ∧
           ∀ st', main_step py env st st' → st' = Scraping (S i) s') ∨
    (∃ e s', st = Crashed e s' ∧
             scrape_data py (env i) s s' (inl e) ∧
             ∀ st', ¬ main_step py env st st').
Proof.
  split.
  - destruct (scrape_data_total py (env i) s) as (s' & [e|[]] & Hrun).
    + exists (Crashed e s'). by constructor.
    + exists (Sleeping 60 i s'). by constructor.
  - intros st Hstep. inversion Hstep as [? ? s' Hrun | ? ? s' e Hrun |]; subst.
    + left. exists s'. split; [done|]. split; [done|]. split; [constructor|].
      intros st' Hnext. by apply main_sleeping_next in Hnext as [_ ->].
    + right. exists e, s'. split; [done|]. split; [done|].
      intros st'. apply main_crashed_stuck.
Qed.

(** C8 fails on the source: after a pass that raises there is no wait and
    no second pass. *)
Lemma failed_pass_ends_loop :
  (∀ s' r, scrape_data example_py failing_world example_store s' r →
           r = inl (HTTPException 503 "Service Unavailable")) ∧
  (∀ st, rtc (main_step example_py (λ _, failing_world))
             (Scraping 0 example_store) st →
         st = Scraping 0 example_store ∨
         st = Crashed (HTTPException 503 "Service Unavailable") example_store) ∧
  ¬ ∃ s', rtc (main_step example_py (λ _, failing_world))
              (Scraping 0 example_store) (Scraping 1 s').
Proof.
  assert (∀ s' r, scrape_data example_py failing_world example_store s' r →
                  s' = example_store ∧
                  r = inl (HTTPException 503 "Service Unavailable")) as Hfail.
  { apply (scrape_data_bad_status example_py failing_world example_store
             (CatalogResponse 503 "Service Unavailable" (inr example_catalog)));
      [reflexivity | done]. }
  assert (∀ st, rtc (main_step example_py (λ _, failing_world))
                    (Scraping 0 example_store) st →
                st = Scraping 0 example_store ∨
                st = Crashed (HTTPException 503 "Service Unavailable") example_store)
    as Hreach.
  { intros st Hrtc. inversion Hrtc as [|? mid ? Hstep Hrest]; subst; [by left|].
    right. inversion Hstep as [? ? s' Hrun | ? ? s' e Hrun |]; subst;
      apply Hfail in Hrun as [-> [= <-]].
    inversion Hrest as [|? ? ? Hnext]; subst; [done|].
    by apply main_crashed_stuck in Hnext. }
  split; [intros s' r Hrun; by apply Hfail in Hrun as [_ ->]|].
  split; [done|].
  intros [s' Hrtc]. by destruct (Hreach _ Hrtc).
Qed.

(* ===================================================================== *)
(** * The semaphore                                                       *)
(* ===================================================================== *)

Lemma task_step_sem w s n t s' n' t' :
  sem_ok t →
  task_step w s n t = Some (s', n', t') →
  sem_ok t' ∧
  (n' + (if holds_permit t' then 1 else 0)
   = n + (if holds_permit t then 1 else 0))%nat.
Proof.
  destruct t as [A m aw p]. unfold sem_ok, holds_permit. simpl.
  destruct p as [a|e|X ev k], m; simpl; intros Hok Hstep;
    try done;
    try (destruct n; [done|]);
    try (destruct (is_network ev && negb aw); [|destruct (handle w ev s)]);
    injection Hstep as <- <- <-; simpl; split; try done; try lia.
  by destruct Hok as [_ Hk].
Qed.

Lemma holders_insert tasks idx t t' :
  tasks !! idx = Some t →
  (holders (<[idx := t']> tasks) + (if holds_permit t then 1 else 0)
   = holders tasks + (if holds_permit t' then 1 else 0))%nat.
Proof.
  unfold holders. revert idx.
  induction tasks as [|x tasks IH]; intros [|idx]; simpl; try done.
  - intros [= ->]. destruct (holds_permit t), (holds_permit t'); simpl; lia.
  - intros Hidx. specialize (IH idx Hidx).
    destruct (holds_permit x); simpl; lia.
Qed.

(** The permits that are out are the permits that are held, and no task
    sends a guarded request outside of the semaphore. *)
Lemma run_sem w sched : ∀ c,
  Forall sem_ok (pool c) →
  Forall sem_ok (pool (run w sched c)) ∧
  (permits (run w sched c) + holders (pool (run w sched c))
   = permits c + holders (pool c))%nat.
Proof.
  induction sched as [|idx sched IH]; intros c Hok; simpl; [done|].
  destruct (step_at w idx c) as [c'|] eqn:Hstep; simpl; [|by apply IH].
  unfold step_at in Hstep.
  destruct (pool c !! idx) as [t|] eqn:Ht; [|done].
  destruct (task_step w _ _ t) as [[[s' n'] t']|] eqn:Htask; [|done].
  injection Hstep as <-.
  destruct (task_step_sem _ _ _ _ _ _ _ (Forall_lookup_1 _ _ _ _ Hok Ht) Htask)
    as [Hok' Hn].
  destruct (IH (Config s' n' (<[idx := t']> (pool c)))) as [Hall Hsum].
  { simpl. by apply Forall_insert. }
  split; [done|]. rewrite Hsum. simpl.
  pose proof (holders_insert _ _ _ t' Ht). lia.
Qed.



Lemma module_task_sem_ok py t : module_task py t → sem_ok t.
Proof.
  intros [|d|fw|identifier firmware]; unfold sem_ok; simpl; try done.
  - split; [done|]. intros [e|resp]; simpl; [done|].
    destruct (decide _); simpl; [done|]. by destruct (cat_json resp).
  - unfold _scrape_device. destruct (hd_error (board d)); simpl; [|done].
    split; [done|]. intros [e|[]]; simpl; [by case_decide|].
    split; done.
Qed.




(* ===================================================================== *)
(** * LIKE with the pattern [%x%]                                         *)
(* ===================================================================== *)


















(* ===================================================================== *)
(** * The uniqueness constraints hold in every store that is reached      *)
(* ===================================================================== *)

Lemma NoDup_fmap_snoc {A B} (f : A → B) (l : list A) x :
  NoDup (f <$> l) → ¬ Exists (λ y, f y = f x) l → NoDup (f <$> (l ++ [x])).
Proof.
  intros Hl Hx. rewrite fmap_app. apply NoDup_app. split; [done|]. split.
  - intros y (z & Hy & Hz)%list_elem_of_fmap Hin.
    apply list_elem_of_singleton in Hin. apply Hx, Exists_exists.
    exists z. split; [done | congruence].
  - apply NoDup_singleton.
Qed.

Lemma NoDup_fmap_filter {A B} (f : A → B) (P : A → bool) (l : list A) :
  NoDup (f <$> l) → NoDup (f <$> List.filter P l).
Proof.
  induction l as [|x l IH]; [done|]. cbn [List.filter fmap list_fmap].
  intros [Hx Hl]%NoDup_cons. destruct (P x); [|by apply IH].
  cbn [fmap list_fmap]. apply NoDup_cons. split; [|by apply IH].
  intros (y & Hy & Hin)%list_elem_of_fmap. apply Hx, list_elem_of_fmap.
  exists y. split; [done|]. by apply list_elem_of_In, filter_In in Hin as [?%list_elem_of_In _].
Qed.

Lemma insert_consistent i d d' :
  consistent d → Sql.insert i d = inr d' → consistent d'.
Proof.
  intros (Hid & Hbc & Hfw & Hub & Hbm).
  destruct i as [r|r|r]; simpl;
    unfold Sql.insert_device, Sql.insert_firmware, Sql.insert_identity.
  - case_decide as Hclash; intros [= <-].
    repeat split; simpl; try done; apply NoDup_fmap_snoc; try done;
      intros Hex; apply Hclash; eapply Exists_impl; try exact Hex;
      intros x Hx; unfold Sql.device_clash; auto.
  - case_decide as Hclash; intros [= <-].
    repeat split; simpl; try done. apply NoDup_fmap_snoc; [done|].
    intros Hex. apply Hclash. eapply Exists_impl; [exact Hex|].
    intros x [= Hb Hd]. by split.
  - destruct (negb _); [done|]. case_decide as Hclash; intros [= <-].
    repeat split; simpl; try done; apply NoDup_fmap_snoc; try done;
      intros Hex; apply Hclash; eapply Exists_impl; try exact Hex;
      intros x Hx; unfold Sql.identity_clash.
    + by left.
    + right. by injection Hx.
Qed.

Lemma delete_consistent b pattern d :
  consistent d → consistent (Sql.delete_firmwares b pattern d).
Proof.
  intros (Hid & Hbc & Hfw & Hub & Hbm). repeat split; simpl; try done.
  by apply NoDup_fmap_filter.
Qed.

Lemma handle_consistent w {X} (ev : event X) s :
  consistent (db s) → consistent (db (handle w ev s).1).
Proof.
  intros Hs. destruct ev; simpl; try done.
  - unfold run_insert. destruct (Sql.insert i (db s)) eqn:Hins; simpl; [done|].
    by eapply insert_consistent.
  - destruct (Sql.as_text buildid); simpl; [done|]. by apply delete_consistent.
Qed.

Lemma exec_consistent w {A} (p : prog A) : ∀ s,
  consistent (db s) → consistent (db (exec w p s).1).
Proof.
  induction p as [a|e|X ev k IH]; intros s Hs; simpl; try done.
  pose proof (handle_consistent w ev s Hs) as Hs'.
  destruct (handle w ev s) as [s' x]. by apply IH.
Qed.

Lemma task_step_consistent w s n t s' n' t' :
  task_step w s n t = Some (s', n', t') →
  consistent (db s) → consistent (db s').
Proof.
  destruct t as [A m aw p]. intros Hstep Hs.
  destruct p as [a|e|X ev k], m; simpl in Hstep;
    try done;
    try (destruct n; [done|]);
    try (by injection Hstep as <- <- <-).
  all: destruct (is_network ev && negb aw); [by injection Hstep as <- <- <-|].
  all: pose proof (handle_consistent w ev s Hs) as Hs'.
  all: destruct (handle w ev s); by injection Hstep as <- <- <-.
Qed.

Lemma run_consistent w sched : ∀ c,
  consistent (db (cfg_store c)) → consistent (db (cfg_store (run w sched c))).
Proof.
  induction sched as [|idx sched IH]; intros c Hc; simpl; [done|].
  destruct (step_at w idx c) as [c'|] eqn:Hstep; simpl; [|by apply IH].
  apply IH. unfold step_at in Hstep.
  destruct (pool c !! idx) as [t|]; [|done].
  destruct (task_step w _ _ t) as [[[s' n'] t']|] eqn:Htask; [|done].
  injection Hstep as <-. simpl. by eapply task_step_consistent.
Qed.

Lemma pass_consistent py w s s' r :
  scrape_data py w s s' r →
  consistent (db s) →
  consistent (db s').
Proof.
  intros Hrun Hs.
  destruct Hrun as [s' e He | s1 tasks s' r He Hgroup].
  - rewrite exec_scrape_data_tasks in He. by injection He as <- _.
  - rewrite exec_scrape_data_tasks in He. injection He as <- _.
    destruct Hgroup as [sched c Hrun _ | sched c e Hrun _]; subst c;
      by apply (run_consistent w sched (Config s HTTP_SEMAPHORE _)).
Qed.

(** X3.  A pass of [scrape_data], however its tasks are interleaved and
    whether it returns or raises, keeps the uniqueness constraints that
    [main] declares: no two device rows with the same identifier or the same
    boardconfig, no two firmware rows with the same buildid and devices, no
    two identity rows with the same unique build token or the same
    boardconfig and buildid. *)
Theorem scrape_data_consistent py w s s' r :
  scrape_data py w s s' r →
  consistent (db s) →
  consistent (db s').
Proof. apply pass_consistent. Qed.

Lemma scrape_data_consistent_witness :
  consistent (db harvested_store).
Proof.
  apply (scrape_data_consistent example_py example_world empty_store
           harvested_store (inr tt)).
  - eapply scrape_data_joins; [reflexivity|].
    apply (TaskGroup_returns_to _ _ _ example_schedule).
    + vm_compute. reflexivity.
    + vm_compute. repeat constructor; eauto.
  - repeat split; constructor.
Defined.

(** X4.  [_is_firmware_signed] keeps the same uniqueness constraints:
    tables that satisfy them before the call satisfy them after it. *)
Theorem is_firmware_signed_consistent w identifier firmware s :
  consistent (db s) →
  consistent (db (exec w (_is_firmware_signed identifier firmware) s).1).
Proof. apply exec_consistent. Qed.

Lemma is_firmware_signed_consistent_witness :
  consistent (db (exec example_world (_is_firmware_signed "iPhone10,3" 0%nat)
                    orphan_store).1).
Proof.
  apply (is_firmware_signed_consistent example_world "iPhone10,3" 0%nat orphan_store).
  repeat split; simpl; repeat constructor; set_solver.
Defined.

(* ===================================================================== *)
(** * The order in which firmwares are scheduled                          *)
(* ===================================================================== *)

Lemma ascii_compare_lt_trans a b c :
  Ascii.compare a b = Lt → Ascii.compare b c = Lt → Ascii.compare a c = Lt.
Proof. unfold Ascii.compare. rewrite !N.compare_lt_iff. lia. Qed.

Lemma string_compare_lt_trans a : ∀ b c,
  String.compare a b = Lt → String.compare b c = Lt → String.compare a c = Lt.
Proof.
  induction a as [|x a IH]; intros [|y b] [|z c]; simpl; try done.
  destruct (Ascii.compare x y) eqn:Hxy; try done;
    destruct (Ascii.compare y z) eqn:Hyz; try done.
  - apply Ascii.compare_eq_iff in Hxy as ->, Hyz as ->.
    replace (Ascii.compare z z) with Eq; [apply IH|].
    unfold Ascii.compare. by rewrite N.compare_refl.
  - apply Ascii.compare_eq_iff in Hxy as ->. by rewrite Hyz.
  - apply Ascii.compare_eq_iff in Hyz as <-. by rewrite Hxy.
  - by rewrite (ascii_compare_lt_trans _ _ _ Hxy Hyz).
Qed.

Lemma string_compare_refl a : String.compare a a = Eq.
Proof.
  induction a as [|x a IH]; [done|]. simpl.
  unfold Ascii.compare. by rewrite N.compare_refl.
Qed.

Lemma ltb_irrefl a : String.ltb a a = false.
Proof. unfold String.ltb. by rewrite string_compare_refl. Qed.

Lemma ltb_asym a b : String.ltb a b = true → String.ltb b a = false.
Proof.
  unfold String.ltb. rewrite (String.compare_antisym b a).
  by destruct (String.compare a b).
Qed.

(** "Not smaller than" is transitive. *)
Lemma ltb_false_trans a b c :
  String.ltb a b = false → String.ltb b c = false → String.ltb a c = false.
Proof.
  unfold String.ltb. intros Hab Hbc.
  destruct (String.compare a c) eqn:Hac; try done.
  destruct (String.compare a b) eqn:Hab'; try done.
  - apply String.compare_eq_iff in Hab' as ->. by rewrite Hac in Hbc.
  - assert (String.compare b a = Lt) as Hba.
    { rewrite String.compare_antisym, Hab'. done. }
    by rewrite (string_compare_lt_trans _ _ _ Hba Hac) in Hbc.
Qed.

Section SortedReverse.

Context {A : Type} (key : A → string).

Lemma insert_by_key_perm x l : insert_by_key key x l ≡ₚ x :: l.
Proof.
  induction l as [|y l IH]; simpl; [done|].
  destruct (String.ltb _ _); [|done]. rewrite IH. apply Permutation_swap.
Qed.

Lemma sorted_reverse_perm l : sorted_reverse key l ≡ₚ l.
Proof.
  induction l as [|x l IH]; simpl; [done|].
  by rewrite insert_by_key_perm, IH.
Qed.

Lemma insert_by_key_descend x l :
  keys_descend key l → keys_descend key (insert_by_key key x l).
Proof.
  induction l as [|y l IH]; simpl; [done|]. intros [Hy Hl].
  destruct (String.ltb (key x) (key y)) eqn:Hxy; simpl.
  - split; [|by apply IH].
    rewrite (insert_by_key_perm x l). constructor; [by apply ltb_asym | done].
  - split; [|done]. constructor; [done|].
    eapply Forall_impl; [exact Hy|]. intros z Hz. by eapply ltb_false_trans.
Qed.

Lemma sorted_reverse_descend l : keys_descend key (sorted_reverse key l).
Proof.
  induction l as [|x l IH]; simpl; [done|].
  by apply insert_by_key_descend.
Qed.

Lemma keys_descend_lookup l i j x y :
  keys_descend key l → (i < j)%nat → l !! i = Some x → l !! j = Some y →
  String.ltb (key x) (key y) = false.
Proof.
  revert i j. induction l as [|z l IH]; intros i j Hl Hij; [done|].
  destruct Hl as [Hz Hl]. destruct i as [|i], j as [|j]; try lia; simpl.
  - intros [= ->] Hy. eapply Forall_forall in Hz; [exact Hz|].
    by eapply list_elem_of_lookup_2.
  - apply IH; [done | lia].
Qed.

Lemma sorted_reverse_descending l : descending (key <$> sorted_reverse key l).
Proof.
  intros i j x y Hij Hx Hy. rewrite list_lookup_fmap in Hx, Hy.
  destruct (sorted_reverse key l !! i) as [fx|] eqn:Hfx; [|done].
  destruct (sorted_reverse key l !! j) as [fy|] eqn:Hfy; [|done].
  injection Hx as <-. injection Hy as <-.
  by apply (keys_descend_lookup _ i j fx fy (sorted_reverse_descend l)).
Qed.

Lemma insert_by_key_stable b x l :
  List.filter (λ f, String.eqb (key f) b) (insert_by_key key x l)
  = List.filter (λ f, String.eqb (key f) b) (x :: l).
Proof.
  induction l as [|y l IH]; [done|]. cbn [insert_by_key].
  destruct (String.ltb (key x) (key y)) eqn:Hxy; [|done].
  cbn [List.filter] in *. rewrite IH.
  destruct (String.eqb (key x) b) eqn:Hx, (String.eqb (key y) b) eqn:Hy; try done.
  apply String.eqb_eq in Hx, Hy. rewrite Hx, Hy, ltb_irrefl in Hxy. done.
Qed.

Lemma sorted_reverse_stable l b :
  List.filter (λ f, String.eqb (key f) b) (sorted_reverse key l)
  = List.filter (λ f, String.eqb (key f) b) l.
Proof.
  induction l as [|x l IH]; [done|]. cbn [sorted_reverse foldr].
  rewrite insert_by_key_stable. cbn [List.filter].
  change (foldr (insert_by_key key) [] l) with (sorted_reverse key l).
  by rewrite IH.
Qed.

End SortedReverse.

(** The sort of [scrape_data] is this sort, on the builds. *)
Lemma sort_by_build_eq l : sort_by_build l = sorted_reverse build l.
Proof.
  induction l as [|x l IH]; [done|]. cbn [sort_by_build sorted_reverse foldr].
  change (foldr insert_by_build [] l) with (sort_by_build l).
  change (foldr (insert_by_key build) [] l) with (sorted_reverse build l).
  rewrite IH. generalize (sorted_reverse build l). intros sorted.
  induction sorted as [|y sorted IHs]; [done|]. simpl. by rewrite IHs.
Qed.

Lemma sort_by_build_perm l : sort_by_build l ≡ₚ l.
Proof. rewrite sort_by_build_eq. apply sorted_reverse_perm. Qed.

(** X5.  [firmwares.sort(key=lambda x: x['build'], reverse=True)] keeps
    exactly the firmwares it was given, each as often as before, and leaves
    no build before a larger one. *)
Theorem sort_by_build_sorted_permutation (l : list firm) :
  sort_by_build l ≡ₚ l ∧ descending (build <$> sort_by_build l).
Proof.
  split; [apply sort_by_build_perm|].
  rewrite sort_by_build_eq. apply sorted_reverse_descending.
Qed.

(** X6.  The sort is stable: the firmwares of one build come out in the
    order in which the catalog listed them. *)
Theorem sort_by_build_stable (l : list firm) b :
  List.filter (λ f, String.eqb (build f) b) (sort_by_build l)
  = List.filter (λ f, String.eqb (build f) b) l.
Proof. rewrite sort_by_build_eq. apply sorted_reverse_stable. Qed.

(* ===================================================================== *)
(** * What the plans of the scraper contain                               *)
(* ===================================================================== *)

Lemma pw_Ret (P : insertion → Prop) (E : exn → Prop) w {A} (a : A)
    (Q : A → Prop) :
  Q a → plans_within P E w (Ret a) Q.
Proof. intros HQ. exists [], (inr a). repeat split; done. Qed.

Lemma pw_Raise (P : insertion → Prop) (E : exn → Prop) w {A} e (Q : A → Prop) :
  E e → plans_within P E w (Raise e) Q.
Proof. intros HE. exists [], (inl e). repeat split; done. Qed.

Lemma pw_lift (P : insertion → Prop) (E : exn → Prop) w {A} (r : result A)
    (Q : A → Prop) :
  (∀ e, r = inl e → E e) →
  (∀ a, r = inr a → Q a) →
  plans_within P E w (lift r) Q.
Proof.
  destruct r; simpl; intros HE HQ; [apply pw_Raise | apply pw_Ret]; auto.
Qed.

Lemma pw_bind (P : insertion → Prop) (E : exn → Prop) w {A B} (p : prog A)
    (f : A → prog B) (Q : A → Prop) (Q' : B → Prop) :
  plans_within P E w p Q →
  (∀ a, Q a → plans_within P E w (f a) Q') →
  plans_within P E w (bind p f) Q'.
Proof.
  intros (l & [e|a] & Hp & Hl & HQ) Hf.
  - exists l, (inl e). split; [by apply issues_bind_raise|]. done.
  - destruct (Hf a HQ) as (l' & o & Hfa & Hl' & HQ').
    exists (l ++ l'), o. split; [by eapply issues_bind|].
    split; [by apply Forall_app | done].
Qed.

Lemma pw_try_except (P : insertion → Prop) (E E' : exn → Prop) w {A}
    (p : prog A) h (Q : A → Prop) :
  plans_within P E' w p Q →
  (∀ e, E' e → plans_within P E w (h e) Q) →
  plans_within P E w (try_except p h) Q.
Proof.
  intros (l & [e|a] & Hp & Hl & HQ) Hh.
  - destruct (Hh e HQ) as (l' & o & He & Hl' & HQ').
    exists (l ++ l'), o. split; [by eapply issues_try_except_raise|].
    split; [by apply Forall_app | done].
  - exists l, (inr a). split; [by apply issues_try_except_return | done].
Qed.

Lemma pw_weaken (P P' : insertion → Prop) (E E' : exn → Prop) w {A}
    (p : prog A) (Q Q' : A → Prop) :
  plans_within P E w p Q →
  (∀ i, P i → P' i) →
  (∀ e, E e → E' e) →
  (∀ a, Q a → Q' a) →
  plans_within P' E' w p Q'.
Proof.
  intros (l & o & Hp & Hl & HQ) HP HE HQQ. exists l, o. split; [done|].
  split; [by eapply Forall_impl|]. destruct o; auto.
Qed.

(** A network request is answered by the network, whatever the store. *)
Lemma pw_network (P : insertion → Prop) (E : exn → Prop) w {X A}
    (ev : event X) (k : X → prog A) (Q : A → Prop) :
  is_network ev = true →
  plans_within P E w (k (handle w ev empty_store).2) Q →
  plans_within P E w (Await ev k) Q.
Proof. intros Hnet Hk. unfold plans_within. by destruct ev. Qed.

Lemma pw_guarded_insert (P : insertion → Prop) (E : exn → Prop) w i
    (Q : unit → Prop) :
  P i →
  (overflows i = true → E OverflowError) →
  Q tt →
  plans_within P E w
    (except_IntegrityError (await (INSERT i);; ask COMMIT) (Ret tt)) Q.
Proof.
  intros HP HE HQ. eexists [i], _. split; [apply issues_guarded_insert|].
  split; [by constructor|]. destruct (overflows i); auto.
Qed.

Lemma pw_except_Raise (P : insertion → Prop) (E : exn → Prop) w {A} e
    (h : prog A) (Q : A → Prop) :
  e ≠ IntegrityError →
  E e →
  plans_within P E w (except_IntegrityError (Raise e) h) Q.
Proof.
  intros Hne HE. unfold except_IntegrityError. simpl.
  case_decide; [done | by apply pw_Raise].
Qed.

(** A coroutine without an INSERT leaves the store alone, and its outcome
    does not depend on the store. *)
Lemma issues_nil_exec w {A} (p : prog A) o s :
  issues w p [] o → exec w p s = (s, o).
Proof.
  revert s. induction p as [a|e|X ev k IH]; intros s; simpl.
  - by intros [_ ->].
  - by intros [_ ->].
  - destruct ev; simpl; try done; eauto.
    by intros (l' & [=] & _).
Qed.

Lemma pw_quiet (P : insertion → Prop) (E : exn → Prop) w {A} (p : prog A)
    (Q : A → Prop) :
  plans_within (λ _, False) E w p Q →
  plans_within P (λ e, E e ∧ ∀ s, exec w p s = (s, inl e)) w p
    (λ a, Q a ∧ ∀ s, exec w p s = (s, inr a)).
Proof.
  intros (l & o & Hp & Hl & HQ).
  destruct l as [|i l]; [|by apply Forall_cons in Hl as [[] _]].
  exists [], o. split; [done|]. split; [done|].
  destruct o; (split; [done|]); intros s; by apply issues_nil_exec.
Qed.
Section ScraperPlanContents.

Context (py : pylib) (w : world).

Lemma pw_scrape_device d :
  plans_within (insert_of_device d) (λ e, board d = [] ∧ e = IndexError) w
    (_scrape_device d) (λ _, True).
Proof.
  unfold _scrape_device. destruct (board d) as [|b rest] eqn:Hb; simpl.
  - by apply pw_except_Raise.
  - apply pw_guarded_insert; [|done..]. exists b. by rewrite Hb.
Qed.

Lemma pw_probe P n src l :
  plans_within P (probe_error w (link_url l)) w (probe n src l)
    (probed w src [l]).
Proof.
  induction n as [|n IH]; cbn [probe]; [by apply pw_Ret|].
  apply pw_network; [done|]. simpl.
  destruct (net_head w (link_url l)) as [e|[status len]] eqn:Hhead; simpl.
  { apply pw_Raise. by left. }
  destruct (decide _) as [|Hstatus]; [done|]. simpl in Hstatus.
  apply dec_stable in Hstatus as ->.
  destruct len as [size|]; simpl; [|apply pw_Raise; by right].
  apply pw_Ret. intros url size' supported [= <- <- <-].
  split; [destruct l; apply list_elem_of_here | done].
Qed.

Lemma pw_first_reachable P src links :
  plans_within P (λ e, ∃ l, l ∈ links ∧ probe_error w (link_url l) e) w
    (first_reachable src links) (probed w src links).
Proof.
  induction links as [|l rest IH]; cbn [first_reachable]; [by apply pw_Ret|].
  eapply pw_bind.
  { eapply pw_weaken; [apply (pw_probe P)|done| |done].
    intros e He. exists l. split; [apply list_elem_of_here | done]. }
  intros [hit|] Hhit.
  - apply pw_Ret. intros url size supported Heq.
    destruct (Hhit url size supported Heq) as (Hin & ? & ?).
    apply list_elem_of_singleton in Hin. split; [|done].
    rewrite Hin. apply list_elem_of_here.
  - eapply pw_weaken; [exact IH|done| |].
    + intros e (l' & Hin & He). exists l'. split; [by apply list_elem_of_further | done].
    + intros hit Hrest url size supported Heq.
      destruct (Hrest url size supported Heq) as (Hin & ? & ?).
      split; [by apply list_elem_of_further | done].
Qed.

Lemma pw_sync_get_manifest P url :
  plans_within P (λ _, False) w (_sync_get_manifest url) (λ _, True).
Proof.
  unfold _sync_get_manifest.
  apply (pw_try_except _ _ (λ _, True)); [|intros; by apply pw_Ret].
  apply pw_network; [done|]. apply (pw_bind _ _ _ _ _ (λ _, True)); [by apply pw_lift|].
  intros names _. apply (pw_bind _ _ _ _ _ (λ _, True)); [by apply pw_lift|].
  intros name _. apply pw_network; [done|].
  apply (pw_bind _ _ _ _ _ (λ _, True)); [by apply pw_lift|].
  intros manifest _. by apply pw_Ret.
Qed.

Lemma pw_get_manifest P url :
  plans_within P (λ _, True) w (get_manifest py url) (λ _, True).
Proof.
  unfold get_manifest.
  apply (pw_bind _ _ _ _ _ (λ _, True)); [by apply pw_lift|]. intros parsed _.
  apply (pw_bind _ _ _ _ _ (λ _, True)); [by apply pw_lift|]. intros dir _.
  apply pw_network; [done|].
  apply (pw_bind _ _ _ _ _ (λ _, True)); [by apply pw_lift|]. intros resp _.
  destruct (decide _).
  - apply (pw_bind _ _ _ _ _ (λ _, True)); [by apply pw_lift|]. intros body _.
    by apply pw_Ret.
  - eapply pw_weaken; [apply (pw_sync_get_manifest P)|done..].
Qed.

Lemma pw_fetch_manifest P n url :
  plans_within P (λ _, False) w (fetch_manifest py n url) (λ _, True).
Proof.
  induction n as [|n IH]; cbn [fetch_manifest]; [by apply pw_Ret|].
  apply (pw_bind _ _ _ _ _ (λ _, True)).
  - apply (pw_try_except _ _ (λ _, True)); [apply pw_get_manifest|].
    intros; by apply pw_Ret.
  - intros [m|] _; [by apply pw_Ret | done].
Qed.

Lemma pw_insert_identity_row (P : insertion → Prop) i :
  RestoreBehavior i = Some "Erase" →
  (∀ r, bound_row i r → P (INTO_buildmanifest r)) →
  plans_within P (identity_error i) w (insert_identity_row i) (λ _, True).
Proof.
  intros Herase HP. unfold insert_identity_row.
  pose proof (int16_error (ApChipID i)) as Hchip_error.
  pose proof (int16_error (ApBoardID i)) as Hboard_error.
  destruct (Str.int16 (ApChipID i)) as [e|chip] eqn:Hchip; simpl.
  { apply pw_except_Raise; [|by left]. by rewrite (Hchip_error e). }
  destruct (Str.int16 (ApBoardID i)) as [e|board] eqn:Hboard; simpl.
  { apply pw_except_Raise; [|by right; left]. by rewrite (Hboard_error e). }
  assert (bound_row i (IdentityRow (DeviceClass i) (BuildNumber i) chip board
                         (UniqueBuildID i))) as Hbound by by repeat split.
  apply pw_guarded_insert; [by apply HP| |done].
  intros Hover. right. right. by eexists.
Qed.

Lemma pw_scrape_identities (P : insertion → Prop) l :
  (∀ i r, i ∈ l → bound_row i r → P (INTO_buildmanifest r)) →
  plans_within P
    (λ e, ∃ i, i ∈ l ∧ RestoreBehavior i = Some "Erase" ∧ identity_error i e) w
    (scrape_identities l) (λ _, True).
Proof.
  induction l as [|i rest IH]; intros HP; cbn [scrape_identities];
    [by apply pw_Ret|].
  assert (plans_within P
            (λ e, ∃ i0, i0 ∈ i :: rest ∧ RestoreBehavior i0 = Some "Erase" ∧
                        identity_error i0 e) w
            (scrape_identities rest) (λ _, True)) as Hrest.
  { eapply pw_weaken; [apply IH|done| |done].
    - intros i' r Hin. apply HP. by right.
    - intros e (i' & Hin & He). exists i'. split; [by right | done]. }
  destruct (RestoreBehavior i) as [behavior|] eqn:Hbehavior; [|done].
  destruct (decide _) as [|Herase]; [done|].
  apply dec_stable in Herase as ->.
  apply (pw_bind _ _ _ _ _ (λ _, True)); [|done].
  eapply pw_weaken; [apply (pw_insert_identity_row P i)|done| |done].
  - done.
  - intros r. apply HP. by left.
  - intros e He. exists i. split; [by left | done].
Qed.

Lemma pw_scrape_sources fw all srcs :
  sources fw = Some all →
  srcs ⊆ all →
  plans_within (insert_of_firm py w fw) (firmware_error py w fw) w
    (scrape_sources py fw srcs) (λ _, True).
Proof.
  intros Hall. induction srcs as [|src rest IH]; intros Hsub;
    cbn [scrape_sources]; [by apply pw_Ret|].
  assert (plans_within (insert_of_firm py w fw) (firmware_error py w fw) w
            (scrape_sources py fw rest) (λ _, True)) as Hrest.
  { apply IH. intros x Hx. apply Hsub. by right. }
  assert (src ∈ all) as Hsrc by (apply Hsub; by left).
  destruct (decide _) as [|Hipsw]; [done|]. apply dec_stable in Hipsw.
  eapply pw_bind.
  { eapply pw_weaken; [apply pw_first_reachable|done| |done].
    intros e ([url] & Hin & He). left. exists url. split; [|done].
    by exists all, src. }
  intros [[[url size] supported]|] Hhit; [|done].
  destruct (Hhit url size supported eq_refl) as (Hlink & -> & Hhead).
  assert (row_of_firm w fw (FirmwareRow (version fw) (build fw) url size
                              (Str.join ", " (src_deviceMap src)))) as Hrow.
  { split; [done|]. split; [done|]. by exists all, src. }
  apply (pw_bind _ _ _ _ _ (λ _, True)).
  { by apply pw_guarded_insert. }
  intros _ _. eapply pw_bind.
  { eapply pw_weaken; [apply pw_quiet, pw_fetch_manifest|done| |done].
    by intros e [[] _]. }
  intros [raw|] [_ Hexec]; [|by apply pw_Ret].
  apply (pw_bind _ _ _ _ _ (λ identities, plistlib_loads py raw = inr identities)).
  { apply pw_lift; [|done]. intros e He. right. eexists _, raw.
    split; [exact Hrow|]. split; [exact Hexec|]. by left. }
  intros identities Hloads.
  apply (pw_bind _ _ _ _ _ (λ _, True)); [|done].
  eapply pw_weaken; [apply pw_scrape_identities|done| |done].
  - intros i r Hin Hbound. simpl. eexists _, raw, identities, i.
    split; [exact Hrow|]. done.
  - intros e (i & Hin & Herase & He). right. eexists _, raw.
    split; [exact Hrow|]. split; [exact Hexec|]. right. by exists identities, i.
Qed.

Lemma pw_scrape_firmware fw :
  plans_within (insert_of_firm py w fw)
    (λ e, firmware_error py w fw e ∨ (sources fw = None ∧ e = KeyError "sources")) w
    (_scrape_firmware py fw) (λ _, True).
Proof.
  unfold _scrape_firmware. destruct (sources fw) as [all|] eqn:Hall; simpl.
  - eapply pw_weaken; [by apply (pw_scrape_sources fw all)|done| |done].
    intros e He. by left.
  - apply pw_Raise. by right.
Qed.

End ScraperPlanContents.

(* ===================================================================== *)
(** * What a pass does to the tables                                      *)
(* ===================================================================== *)

(** A relation on stores that every planned INSERT respects holds between
    the stores at the two ends of any schedule. *)
Lemma run_plans_inv w (P : insertion → Prop) (R : store → store → Prop) :
  (∀ s, R s s) →
  (∀ s1 s2 s3, R s1 s2 → R s2 s3 → R s1 s3) →
  (∀ i s s', P i → insert_effect i s s' → R s s') →
  ∀ sched c plans,
    Forall2 (planned w) (pool c) plans →
    (∀ plan, plan ∈ plans → Forall P plan.1) →
    R (cfg_store c) (cfg_store (run w sched c)).
Proof.
  intros Hrefl Htrans Hins.
  induction sched as [|idx sched IH]; intros c plans Hplans HP; simpl; [done|].
  destruct (step_at w idx c) as [c'|] eqn:Hstep; simpl; [|by eapply IH].
  destruct (step_at_plans _ _ _ _ _ Hplans Hstep)
    as (plan & l' & Hidx & Hplans' & Heff).
  assert (plan ∈ plans) as Hplan by (by eapply list_elem_of_lookup_2).
  apply (Htrans _ (cfg_store c')).
  - destruct Heff as [[_ ->] | (i & Hl & Heff)]; [done|].
    apply (Hins i); [|done].
    specialize (HP plan Hplan). rewrite Hl in HP. by apply Forall_cons in HP as [? _].
  - apply (IH c' _ Hplans'). intros plan0 Hin.
    destruct (elem_of_insert_plan _ _ _ _ _ Hidx Hin) as [-> | Hin']; [|by apply HP].
    simpl. specialize (HP plan Hplan).
    destruct Heff as [[-> _] | (i & Hl & _)]; [done|].
    rewrite Hl in HP. by apply Forall_cons in HP as [_ ?].
Qed.

Lemma grows_refl d : grows d d.
Proof. by repeat split. Qed.

Lemma grows_trans d1 d2 d3 : grows d1 d2 → grows d2 d3 → grows d1 d3.
Proof. intros (? & ? & ?) (? & ? & ?). repeat split; by etrans. Qed.

Lemma insert_grows i d d' : Sql.insert i d = inr d' → grows d d'.
Proof.
  destruct i as [r|r|r]; simpl;
    unfold Sql.insert_device, Sql.insert_firmware, Sql.insert_identity.
  - case_decide; intros [= <-]. repeat split; simpl; try done. by exists [r].
  - case_decide; intros [= <-]. repeat split; simpl; try done. by exists [r].
  - destruct (negb _); [done|]. case_decide; intros [= <-].
    repeat split; simpl; try done. by exists [r].
Qed.

Lemma added_refl P d : added P d d.
Proof. repeat split; auto. Qed.

Lemma added_trans P d1 d2 d3 : added P d1 d2 → added P d2 d3 → added P d1 d3.
Proof.
  intros (H1 & H2 & H3) (H1' & H2' & H3'). repeat split; intros r Hr.
  - destruct (H1' r Hr); auto.
  - destruct (H2' r Hr); auto.
  - destruct (H3' r Hr); auto.
Qed.

Lemma insert_added (P : insertion → Prop) i d d' :
  P i → Sql.insert i d = inr d' → added P d d'.
Proof.
  intros HP.
  destruct i as [r|r|r]; simpl;
    unfold Sql.insert_device, Sql.insert_firmware, Sql.insert_identity.
  - case_decide; intros [= <-]. repeat split; simpl; auto.
    intros r' [?| ->%list_elem_of_singleton]%elem_of_app; auto.
  - case_decide; intros [= <-]. repeat split; simpl; auto.
    intros r' [?| ->%list_elem_of_singleton]%elem_of_app; auto.
  - destruct (negb _); [done|]. case_decide; intros [= <-].
    repeat split; simpl; auto.
    intros r' [?| ->%list_elem_of_singleton]%elem_of_app; auto.
Qed.

Lemma plans_of_tasks (P : insertion → Prop) w tasks :
  Forall (λ t, plans_within P (λ _, True) w (code t) (λ _, True)) tasks →
  ∃ plans, Forall2 (planned w) tasks plans ∧ ∀ plan, plan ∈ plans → Forall P plan.1.
Proof.
  induction 1 as [|t tasks (l & o & Ht & Hl & _) _ (plans & IH & HP)].
  - exists []. split; [constructor|]. by intros ? ?%elem_of_nil.
  - exists ((l, error_of o) :: plans). split.
    + constructor; [by exists o | done].
    + intros plan [->|Hin]%elem_of_cons; [done | by apply HP].
Qed.

Lemma TaskGroup_inv w (P : insertion → Prop) (R : store → store → Prop)
    tasks s s' r :
  (∀ s, R s s) →
  (∀ s1 s2 s3, R s1 s2 → R s2 s3 → R s1 s3) →
  (∀ i s s', P i → insert_effect i s s' → R s s') →
  Forall (λ t, plans_within P (λ _, True) w (code t) (λ _, True)) tasks →
  TaskGroup w s tasks s' r →
  R s s'.
Proof.
  intros Hrefl Htrans Hins (plans & Hplans & HP)%plans_of_tasks Hgroup.
  destruct Hgroup as [sched c Hrun _ | sched c e Hrun _]; subst c;
    by apply (run_plans_inv w P R Hrefl Htrans Hins sched
                (Config s HTTP_SEMAPHORE tasks) plans).
Qed.

Lemma create_tasks_within py w data :
  Forall (λ t, plans_within (insert_of_catalog py w data) (λ _, True) w (code t)
                (λ _, True))
    (spawn <$> create_tasks py data).
Proof.
  unfold create_tasks. rewrite fmap_app, <- !list_fmap_compose.
  apply Forall_app. split; apply Forall_fmap, Forall_forall; intros x Hx; simpl.
  - apply list_elem_of_In, filter_In in Hx as [Hx%list_elem_of_In Hkeep].
    eapply pw_weaken; [apply pw_scrape_device| |done..].
    intros i (b & Hb & ->). simpl. by exists x.
  - assert (x ∈ List.filter keep_firm (ios data)) as Hx'.
    { by rewrite <- (sort_by_build_perm (List.filter keep_firm (ios data))). }
    apply list_elem_of_In, filter_In in Hx' as [Hx'%list_elem_of_In Hkeep].
    eapply pw_weaken; [apply pw_scrape_firmware| |done..].
    intros [r|r|r]; simpl; [done| |]; intros Hr; by exists x.
Qed.

Lemma scrape_data_inv py w (R : store → store → Prop) s s' r :
  (∀ s, R s s) →
  (∀ s1 s2 s3, R s1 s2 → R s2 s3 → R s1 s3) →
  (∀ data i s s',
     (∃ resp, net_catalog w = inr resp ∧ cat_json resp = inr data) →
     insert_of_catalog py w data i → insert_effect i s s' → R s s') →
  scrape_data py w s s' r →
  R s s'.
Proof.
  intros Hrefl Htrans Hins Hrun.
  destruct Hrun as [s' e He | s1 tasks s' r He Hgroup];
    rewrite exec_scrape_data_tasks in He; injection He as <- Htasks; [done|].
  destruct (net_catalog w) as [|resp] eqn:Hcat; [done|].
  destruct (decide _); [done|].
  destruct (cat_json resp) as [|data] eqn:Hjson; [done|]. injection Htasks as <-.
  apply (TaskGroup_inv w (insert_of_catalog py w data) R
           (spawn <$> create_tasks py data) s s' r Hrefl Htrans);
    [| apply create_tasks_within | done].
  intros i s0 s0'. apply Hins. by exists resp.
Qed.

Lemma pass_only_appends py w s s' r :
  scrape_data py w s s' r →
  grows (db s) (db s') ∧ heap s' = heap s.
Proof.
  apply (scrape_data_inv py w (λ s s', grows (db s) (db s') ∧ heap s' = heap s)).
  - intros s0. split; [apply grows_refl | done].
  - intros s1 s2 s3 [? ?] [? ?]. split; [by eapply grows_trans | congruence].
  - intros data i s0 s0' _ _ [[-> _] | [Hheap Hins]].
    + split; [apply grows_refl | done].
    + split; [by eapply insert_grows | done].
Qed.

(** X7.  A pass of [scrape_data], under any schedule and whether it returns
    or raises, deletes and changes no row: each table after the pass is the
    table before it with rows added at its end.  The records of the query
    service are not touched. *)
Theorem scrape_data_only_appends py w s s' r :
  scrape_data py w s s' r →
  grows (db s) (db s') ∧ heap s' = heap s.
Proof. apply pass_only_appends. Qed.

Lemma scrape_data_only_appends_witness :
  grows (db empty_store) (db harvested_store) ∧
  heap harvested_store = heap empty_store.
Proof.
  apply (scrape_data_only_appends example_py example_world empty_store
           harvested_store (inr tt)).
  eapply scrape_data_joins; [reflexivity|].
  apply (TaskGroup_returns_to _ _ _ example_schedule).
  - vm_compute. reflexivity.
  - vm_compute. repeat constructor; eauto.
Defined.


Lemma scrape_data_added py w s s' r resp data :
  net_catalog w = inr resp →
  cat_json resp = inr data →
  scrape_data py w s s' r →
  added (insert_of_catalog py w data) (db s) (db s').
Proof.
  intros Hcat Hjson.
  apply (scrape_data_inv py w
           (λ s s', added (insert_of_catalog py w data) (db s) (db s'))).
  - intros s0. apply added_refl.
  - intros s1 s2 s3. apply added_trans.
  - intros data' i s0 s0' (resp' & Hcat' & Hjson') Hi [[-> _] | [_ Hins]].
    + apply added_refl.
    + apply (insert_added _ i); [|done]. congruence.
Qed.

(** X8.  Every row of [devices] after a pass on the catalog [data] was there
    before the pass or is the row of a catalog device that passes the
    filter of [scrape_data]: its identifier is the key of that device and
    its boardconfig the first board of that device. *)
Theorem scrape_data_device_rows py w s s' r resp data row :
  net_catalog w = inr resp →
  cat_json resp = inr data →
  scrape_data py w s s' r →
  row ∈ devices (db s') →
  row ∈ devices (db s) ∨ row_of_device data row.
Proof.
  intros Hcat Hjson Hrun.
  destruct (scrape_data_added _ _ _ _ _ _ _ Hcat Hjson Hrun) as (H & _ & _).
  apply H.
Qed.

Lemma scrape_data_device_rows_witness :
  DeviceRow "iPhone10,3" "D22AP" ∈ devices (db empty_store) ∨
  row_of_device example_catalog
    (DeviceRow "iPhone10,3" "D22AP").
Proof.
  apply (scrape_data_device_rows example_py example_world empty_store harvested_store (inr tt)
           (CatalogResponse 200 "OK" (inr example_catalog)) example_catalog).
  - reflexivity.
  - reflexivity.
  - eapply scrape_data_joins; [reflexivity|].
    apply (TaskGroup_returns_to _ _ _ example_schedule).
    + vm_compute. reflexivity.
    + vm_compute. repeat constructor; eauto.
  - exact (list_elem_of_here _ _).
Defined.


(** X9.  Every row of [firmwares] after a pass on the catalog [data] was
    there before the pass or comes from a catalog firmware that passes the
    filter: it carries the version and the build of that firmware, its URL
    is a link of one of the ipsw sources of that firmware and answered 200
    to the probe, its size is the [Content-Length] of that answer and its
    devices text is the joined device map of that source. *)
Theorem scrape_data_firmware_rows py w s s' r resp data row :
  net_catalog w = inr resp →
  cat_json resp = inr data →
  scrape_data py w s s' r →
  row ∈ firmwares (db s') →
  row ∈ firmwares (db s) ∨ row_of_catalog_firm w data row.
Proof.
  intros Hcat Hjson Hrun.
  destruct (scrape_data_added _ _ _ _ _ _ _ Hcat Hjson Hrun) as (_ & H & _).
  apply H.
Qed.

Lemma scrape_data_firmware_rows_witness :
  FirmwareRow "16.0" "20A5283p" "/fw/iPhone_16.0_20A5283p.ipsw" "5000000000" "iPhone10,3, iPhone10,6" ∈ firmwares (db empty_store) ∨
  row_of_catalog_firm example_world example_catalog
    (FirmwareRow "16.0" "20A5283p" "/fw/iPhone_16.0_20A5283p.ipsw" "5000000000" "iPhone10,3, iPhone10,6").
Proof.
  apply (scrape_data_firmware_rows example_py example_world empty_store harvested_store (inr tt)
           (CatalogResponse 200 "OK" (inr example_catalog)) example_catalog).
  - reflexivity.
  - reflexivity.
  - eapply scrape_data_joins; [reflexivity|].
    apply (TaskGroup_returns_to _ _ _ example_schedule).
    + vm_compute. reflexivity.
    + vm_compute. repeat constructor; eauto.
  - exact (list_elem_of_here _ _).
Defined.





(* ===================================================================== *)
(** * What makes a pass raise                                             *)
(* ===================================================================== *)

Lemma keep_device_board d : keep_device d = true → board d ≠ [].
Proof.
  unfold keep_device. intros H Hb. rewrite Hb in H. simpl in H.
  by rewrite andb_false_r in H.
Qed.





(* ===================================================================== *)
(** * After a pass that returned                                          *)
(* ===================================================================== *)

Lemma added_row_in P d d' :
  added P d d' ↔ ∀ i, row_in i d' → row_in i d ∨ P i.
Proof.
  split.
  - intros (H1 & H2 & H3) [r|r|r]; simpl; auto.
  - intros H. repeat split; intros r Hr.
    + by apply (H (INTO_devices r)).
    + by apply (H (INTO_firmwares r)).
    + by apply (H (INTO_buildmanifest r)).
Qed.

Lemma added_weaken (P P' : insertion → Prop) d d' :
  (∀ i, P i → P' i) → added P d d' → added P' d d'.
Proof.
  intros HP (H1 & H2 & H3). repeat split; intros r Hr.
  - destruct (H1 r Hr); auto.
  - destruct (H2 r Hr); auto.
  - destruct (H3 r Hr); auto.
Qed.

Lemma insert_accepted i d d' : Sql.insert i d = inr d' → overflows i = false.
Proof.
  destruct i as [r|r|r]; simpl; try done.
  unfold Sql.insert_identity. by destruct (negb _).
Qed.

(** What a coroutine adds when it runs alone is in its plan, and was
    accepted by the binding. *)
Lemma exec_added w {A} (p : prog A) l o s :
  issues w p l o →
  added (λ i, i ∈ l ∧ overflows i = false) (db s) (db (exec w p s).1).
Proof.
  revert l s. induction p as [a|e|X ev k IH]; intros l s; simpl.
  - intros _. apply added_refl.
  - intros _. apply added_refl.
  - destruct ev; simpl; try done; eauto.
    intros (l' & -> & Hk). unfold run_insert.
    pose proof (insert_possible i (db s)) as Hposs.
    destruct (Sql.insert i (db s)) as [e|d'] eqn:Hins.
    + eapply added_weaken; [|apply (IH _ l' s); by apply Hk].
      intros j [Hj ?]. split; [by right | done].
    + eapply added_trans.
      * apply (insert_added (λ j, j ∈ i :: l' ∧ overflows j = false) i);
          [|exact Hins]. split; [by left | by eapply insert_accepted].
      * eapply added_weaken; [|apply (IH _ l' (with_db s d')); by apply Hk].
        intros j [Hj ?]. split; [by right | done].
Qed.

Lemma inserts_alone_planned w {A} (p : prog A) l o i :
  issues w p l o → inserts_alone w p i → i ∈ l ∧ overflows i = false.
Proof.
  intros Hissues Hi.
  pose proof (exec_added w p l o empty_store Hissues) as Hadded.
  destruct (proj1 (added_row_in _ _ _) Hadded i Hi) as [Hempty|]; [|done].
  destruct i; simpl in Hempty; by apply elem_of_nil in Hempty.
Qed.

(** When every task of a group has returned, every INSERT of every plan has
    been made or refused: making it again would violate a constraint. *)
Lemma TaskGroup_settles w tasks s s' plans :
  Forall2 (planned w) tasks plans →
  TaskGroup w s tasks s' (inr tt) →
  ∀ plan i, plan ∈ plans → i ∈ plan.1 → settled i (db s').
Proof.
  intros Hplans Hgroup plan i Hplan Hi.
  inversion Hgroup as [sched c Hrun Hret|]; subst.
  destruct (run_covers w (λ i, ∃ plan, plan ∈ plans ∧ i ∈ plan.1) sched
              (Config s HTTP_SEMAPHORE tasks) plans Hplans)
    as (plans' & Hplans' & _ & Hcov).
  { intros i0 Hi0. by right. }
  destruct (Hcov i) as [?|(plan' & Hin' & Hi')]; [by exists plan | done|].
  apply list_elem_of_lookup in Hin' as [k Hk].
  destruct (Forall2_lookup_r _ _ _ _ _ Hplans' Hk) as (t & Ht & Hplanned).
  assert (returned t) as Hreturned by (by eapply Forall_lookup_1).
  rewrite (returned_plan _ _ _ Hplanned Hreturned) in Hi'.
  by apply elem_of_nil in Hi'.
Qed.

Lemma scrape_data_settles py w s s' c i :
  scrape_data py w s s' (inr tt) →
  (∀ data, (∃ resp, net_catalog w = inr resp ∧ cat_json resp = inr data) →
           c ∈ create_tasks py data) →
  inserts_alone w (code (spawn c)) i →
  ∃ e, Sql.insert i (db s') = inl e ∧ e ≠ OverflowError.
Proof.
  intros Hrun Hc Hi.
  inversion Hrun as [| s1 tasks s2 r He Hgroup]; subst.
  rewrite exec_scrape_data_tasks in He. injection He as <- Htasks.
  destruct (net_catalog w) as [|resp] eqn:Hcat; [done|].
  destruct (decide _) as [|Hs]; [done|].
  destruct (cat_json resp) as [|data] eqn:Hjson; [done|]. injection Htasks as <-.
  specialize (Hc data (ex_intro _ resp (conj eq_refl Hjson))).
  destruct (initial_plans w (spawn <$> create_tasks py data)
              (create_tasks_plannable py w data)) as [plans Hplans].
  assert (spawn c ∈ spawn <$> create_tasks py data) as Hin
    by (apply list_elem_of_fmap; by exists c).
  apply list_elem_of_lookup in Hin as [k Hk].
  destruct (Forall2_lookup_l _ _ _ _ _ Hplans Hk) as (plan & Hplan & o & Hissues & _).
  destruct (inserts_alone_planned _ _ _ _ _ Hissues Hi) as [Hmem Hfits].
  destruct (TaskGroup_settles _ _ _ _ _ Hplans Hgroup plan i) as [e He];
    [by eapply list_elem_of_lookup_2 | done |].
  exists e. split; [done|]. intros ->.
  destruct i as [r|r|r]; simpl in He, Hfits.
  - unfold Sql.insert_device in He. by case_decide.
  - unfold Sql.insert_firmware in He. by case_decide.
  - unfold Sql.insert_identity in He. rewrite Hfits in He. by case_decide.
Qed.

(** X12.  After a pass that returned, every catalog device that passes the
    filter is accounted for in [devices]: there is a row with its
    identifier, or a row that holds its first board under another
    identifier. *)
Theorem pass_records_device py w s s' resp data d :
  net_catalog w = inr resp →
  cat_json resp = inr data →
  scrape_data py w s s' (inr tt) →
  d ∈ device_list data →
  keep_device d = true →
  ∃ row, row ∈ devices (db s') ∧
         (dev_identifier row = key d ∨
          hd_error (board d) = Some (dev_boardconfig row)).
Proof.
  intros Hcat Hjson Hrun Hd Hkeep.
  destruct (board d) as [|b rest] eqn:Hboard;
    [by apply keep_device_board in Hkeep|].
  destruct (scrape_data_settles py w s s' (Unguarded (_scrape_device d))
              (INTO_devices (DeviceRow (key d) b)) Hrun) as (e & He & _).
  - intros data' (resp' & Hcat' & Hjson').
    assert (data' = data) as -> by congruence.
    unfold create_tasks. apply elem_of_app. left.
    apply list_elem_of_fmap. exists d. split; [done|].
    apply list_elem_of_In, filter_In. split; [by apply list_elem_of_In | done].
  - unfold inserts_alone, _scrape_device. rewrite Hboard. simpl.
    apply list_elem_of_here.
  - simpl in He. unfold Sql.insert_device in He.
    destruct (decide _) as [Hclash|]; [|done].
    apply Exists_exists in Hclash as (row & Hin & Hclash).
    exists row. split; [done|]. destruct Hclash as [?|Hb]; [by left|].
    right. simpl in Hb. by rewrite Hb.
Qed.

Lemma pass_records_device_witness :
  ∃ row, row ∈ devices (db harvested_store) ∧
         (dev_identifier row = "iPhone10,3" ∨
          hd_error ["D22AP"] = Some (dev_boardconfig row)).
Proof.
  apply (pass_records_device example_py example_world empty_store harvested_store
           (CatalogResponse 200 "OK" (inr example_catalog)) example_catalog
           (Device "iPhone10,3" (Some "arm64") "iPhone" ["D22AP"])).
  - reflexivity.
  - reflexivity.
  - eapply scrape_data_joins; [reflexivity|].
    apply (TaskGroup_returns_to _ _ _ example_schedule).
    + vm_compute. reflexivity.
    + vm_compute. repeat constructor; eauto.
  - exact (list_elem_of_here _ _).
  - reflexivity.
Defined.

Lemma elem_of_create_tasks_firm py data fw :
  fw ∈ ios data → keep_firm fw = true →
  _bound_scrape_firmware py fw ∈ create_tasks py data.
Proof.
  intros Hfw Hkeep. unfold create_tasks. apply elem_of_app. right.
  apply list_elem_of_fmap. exists fw. split; [done|].
  rewrite (sort_by_build_perm (List.filter keep_firm (ios data))).
  apply list_elem_of_In, filter_In. split; [by apply list_elem_of_In | done].
Qed.


(* ===================================================================== *)
(** * A firmware task run alone: links, manifests                         *)
(* ===================================================================== *)

Lemma exec_try_except w {A} (p : prog A) h s :
  exec w (try_except p h) s =
  match exec w p s with
  | (s', inl e) => exec w (h e) s'
  | (s', inr a) => (s', inr a)
  end.
Proof.
  revert s. induction p as [a|e|X ev k IH]; intros s; simpl; try done.
  destruct (handle w ev s) as [s' x]. apply IH.
Qed.

Lemma quiet_exec (E : exn → Prop) w {A} (p : prog A) (Q : A → Prop) s :
  plans_within (λ _, False) E w p Q →
  exec w p s = (s, (exec w p empty_store).2).
Proof.
  intros (l & o & Hp & Hl & _).
  destruct l as [|i l]; [|by apply Forall_cons in Hl as [[] _]].
  by rewrite !(issues_nil_exec _ _ _ _ Hp).
Qed.

Lemma exec_probe_dead w n src l s :
  dead_link w l → exec w (probe n src l) s = (s, inr None).
Proof.
  intros (resp & Hhead & Hstatus). induction n as [|n IH]; cbn [probe]; [done|].
  rewrite exec_bind. simpl. rewrite Hhead. simpl.
  rewrite decide_True by done. apply IH.
Qed.


Lemma exec_first_reachable_hit w src dead url size others s :
  Forall (dead_link w) dead →
  net_head w url = inr (HeadResponse 200 (Some size)) →
  exec w (first_reachable src (dead ++ Link url :: others)) s
  = (s, inr (Some (url, size, Str.join ", " (src_deviceMap src)))).
Proof.
  intros Hdead Hhead.
  induction Hdead as [|l dead Hl _ IH]; cbn [first_reachable app].
  - rewrite exec_bind. cbn [probe]. rewrite exec_bind. simpl. rewrite Hhead.
    simpl. done.
  - by rewrite exec_bind, exec_probe_dead.
Qed.



Lemma exec_fetch_manifest_none py w n url s :
  (∀ s0 raw, (exec w (get_manifest py url) s0).2 ≠ inr (Some raw)) →
  exec w (fetch_manifest py n url) s = (s, inr None).
Proof.
  intros Hnone. induction n as [|n IH]; cbn [fetch_manifest]; [done|].
  rewrite exec_bind, exec_try_except.
  rewrite (quiet_exec _ _ _ _ _ (pw_get_manifest py w (λ _, False) url)).
  specialize (Hnone empty_store).
  destruct (exec w (get_manifest py url) empty_store).2 as [e|[raw|]]; simpl.
  - apply IH.
  - by destruct (Hnone raw).
  - apply IH.
Qed.

Lemma exec_guarded_insert w i s :
  overflows i = false →
  exec w (except_IntegrityError (await (INSERT i);; ask COMMIT) (Ret tt)) s
  = ((run_insert i s).1, inr tt).
Proof.
  intros Hfits. simpl. unfold run_insert.
  pose proof (insert_possible i (db s)) as Hposs. unfold possible_reply in Hposs.
  rewrite Hfits in Hposs.
  destruct (Sql.insert i (db s)) as [e|d'] eqn:Hins; simpl.
  - destruct Hposs as [[=]|[= ->]]. done.
  - done.
Qed.

(** X16.  When the first reachable link of an ipsw source is found and
    [get_manifest] yields no manifest for it (it raises or returns [None],
    three times), [_scrape_firmware] has made the INSERT of the firmware row
    and returns at once: the sources that follow are not looked at and no
    identity row is added. *)
Theorem missing_manifest_ends_firmware py w fw src rest dead url others size s :
  src_type src = "ipsw" →
  src_links src = dead ++ Link url :: others →
  Forall (dead_link w) dead →
  net_head w url = inr (HeadResponse 200 (Some size)) →
  (∀ s0 raw, (exec w (get_manifest py url) s0).2 ≠ inr (Some raw)) →
  exec w (scrape_sources py fw (src :: rest)) s
  = ((run_insert
        (INTO_firmwares
           (FirmwareRow (version fw) (build fw) url size
              (Str.join ", " (src_deviceMap src)))) s).1,
     inr tt).
Proof.
  intros Hipsw Hlinks Hdead Hhead Hnone. cbn [scrape_sources].
  rewrite decide_False by (by intros []).
  rewrite exec_bind, Hlinks, (exec_first_reachable_hit _ _ _ _ size) by done.
  rewrite exec_bind, exec_guarded_insert by done.
  rewrite exec_bind, exec_fetch_manifest_none by done.
  done.
Qed.


Lemma missing_manifest_ends_firmware_witness :
  exec no_manifest_world
    (scrape_sources example_py example_firm
       [Source "ipsw" [Link "/fw/iPhone_16.0_20A5283p.ipsw"]
          ["iPhone10,3"; "iPhone10,6"];
        Source "ipsw" [Link "/fw/other.ipsw"] ["iPhone10,1"]])
    empty_store
  = ((run_insert (INTO_firmwares example_firmware_row) empty_store).1, inr tt).
Proof.
  apply (missing_manifest_ends_firmware example_py no_manifest_world example_firm
           (Source "ipsw" [Link "/fw/iPhone_16.0_20A5283p.ipsw"]
              ["iPhone10,3"; "iPhone10,6"])
           [Source "ipsw" [Link "/fw/other.ipsw"] ["iPhone10,1"]]
           [] "/fw/iPhone_16.0_20A5283p.ipsw" [] "5000000000" empty_store).
  - reflexivity.
  - reflexivity.
  - constructor.
  - reflexivity.
  - intros s0 raw. vm_compute. discriminate.
Defined.


(** X14.  After a pass that returned, every identity row that the task of
    a filtered catalog firmware inserts when it runs alone on empty tables
    is represented in [buildmanifest]: by a row with the same unique build
    token, or by a row with the same boardconfig and buildid. *)
Theorem pass_records_identity py w s s' resp data fw row :
  net_catalog w = inr resp →
  cat_json resp = inr data →
  scrape_data py w s s' (inr tt) →
  fw ∈ ios data →
  keep_firm fw = true →
  row ∈ buildmanifest (db (exec w (_scrape_firmware py fw) empty_store).1) →
  ∃ row', row' ∈ buildmanifest (db s') ∧
          (bm_unique_buildid row' = bm_unique_buildid row ∨
           (bm_boardconfig row' = bm_boardconfig row ∧
            bm_buildid row' = bm_buildid row)).
Proof.
  intros Hcat Hjson Hrun Hfw Hkeep Hrow.
  destruct (scrape_data_settles py w s s' (_bound_scrape_firmware py fw)
              (INTO_buildmanifest row) Hrun) as (e & He & Hne).
  - intros data' (resp' & Hcat' & Hjson').
    assert (data' = data) as -> by congruence.
    by apply elem_of_create_tasks_firm.
  - exact Hrow.
  - simpl in He. unfold Sql.insert_identity in He.
    destruct (negb _); [congruence|].
    destruct (decide _) as [Hclash|]; [|done].
    apply Exists_exists in Hclash as (row' & Hin & Hclash).
    by exists row'.
Qed.

Lemma pass_records_identity_witness :
  ∃ row', row' ∈ buildmanifest (db harvested_store) ∧
          (bm_unique_buildid row' = bm_unique_buildid example_identity_row ∨
           (bm_boardconfig row' = bm_boardconfig example_identity_row ∧
            bm_buildid row' = bm_buildid example_identity_row)).
Proof.
  apply (pass_records_identity example_py example_world empty_store harvested_store
           (CatalogResponse 200 "OK" (inr example_catalog)) example_catalog
           example_firm example_identity_row).
  - reflexivity.
  - reflexivity.
  - eapply scrape_data_joins; [reflexivity|].
    apply (TaskGroup_returns_to _ _ _ example_schedule).
    + vm_compute. reflexivity.
    + vm_compute. repeat constructor; eauto.
  - exact (list_elem_of_here _ _).
  - reflexivity.
  - exact (list_elem_of_here _ _).
Defined.

(* ===================================================================== *)
(** * The signing check and the tables                                    *)
(* ===================================================================== *)

Lemma find_first {A} (f : A → bool) l x :
  List.find f l = Some x →
  ∃ before after,
    l = before ++ x :: after ∧ f x = true ∧
    Forall (λ y, f y = false) before.
Proof.
  induction l as [|y l IH]; simpl; [done|].
  destruct (f y) eqn:Hy.
  - intros [= ->]. by exists [], l.
  - intros (before & after & -> & Hx & Hbefore)%IH.
    exists (y :: before), after. split; [done|]. split; [done|].
    by constructor.
Qed.




Lemma filter_sublist {A} (f : A → bool) l : List.filter f l `sublist_of` l.
Proof.
  induction l as [|x l IH]; simpl; [done|].
  destruct (f x); by constructor.
Qed.



(* ===================================================================== *)
(** * The archive fallback                                                *)
(* ===================================================================== *)

(** X20.  When the archive fallback [_sync_get_manifest] returns a
    manifest, it is the content of the first entry of the archive listing
    whose name contains [BuildManifest]. *)
Theorem sync_get_manifest_first_match w url s s' manifest :
  exec w (_sync_get_manifest url) s = (s', inr (Some manifest)) →
  ∃ names before entry after,
    net_zip_namelist w url = inr names ∧
    names = before ++ entry :: after ∧
    substring "BuildManifest" entry ∧
    Forall (λ name, ¬ substring "BuildManifest" name) before ∧
    net_zip_read w url entry = inr manifest.
Proof.
  rewrite exec_sync_get_manifest. intros [= _ Hm].
  destruct (net_zip_namelist w url) as [|names]; [done|].
  destruct (List.find _ names) as [entry|] eqn:Hfind; [|done].
  destruct (net_zip_read w url entry) as [|m] eqn:Hread; [done|].
  injection Hm as ->.
  apply find_first in Hfind as (before & after & -> & Hentry & Hbefore).
  exists (before ++ entry :: after), before, entry, after.
  split; [done|]. split; [done|]. split; [by apply contains_spec|].
  split; [|done]. eapply Forall_impl; [exact Hbefore|].
  intros name Hname Hsub%contains_spec. congruence.
Qed.

Lemma sync_get_manifest_first_match_witness :
  ∃ names before entry after,
    net_zip_namelist example_world "/fw/iPhone_16.0_20A5283p.ipsw" = inr names ∧
    names = before ++ entry :: after ∧
    substring "BuildManifest" entry ∧
    Forall (λ name, ¬ substring "BuildManifest" name) before ∧
    net_zip_read example_world "/fw/iPhone_16.0_20A5283p.ipsw" entry
      = inr ["m"%byte].
Proof.
  apply (sync_get_manifest_first_match example_world
           "/fw/iPhone_16.0_20A5283p.ipsw" empty_store empty_store).
  reflexivity.
Defined.

(* ===================================================================== *)
(** * The permits at the end of a group                                   *)
(* ===================================================================== *)

Lemma holders_finished tasks : Forall finished tasks → holders tasks = 0%nat.
Proof.
  unfold holders. induction 1 as [|t tasks [Hmode _] _ IH]; simpl; [done|].
  unfold holds_permit at 1. rewrite Hmode. simpl. exact IH.
Qed.

Lemma holders_spawned py tasks : Forall (module_task py) tasks → holders tasks = 0%nat.
Proof.
  unfold holders. induction 1 as [|t tasks Ht _ IH]; simpl; [done|].
  by destruct Ht.
Qed.

(** X19.  When all the tasks of a group have returned or raised, all 100
    permits of [HTTP_SEMAPHORE] are free again: [async with] gives the
    permit back also when the body raises. *)
Theorem permits_all_returned py w s tasks sched :
  Forall (module_task py) tasks →
  Forall finished (pool (run w sched (Config s HTTP_SEMAPHORE tasks))) →
  permits (run w sched (Config s HTTP_SEMAPHORE tasks)) = HTTP_SEMAPHORE.
Proof.
  intros Htasks Hdone.
  destruct (run_sem w sched (Config s HTTP_SEMAPHORE tasks)) as [_ Hsum].
  { eapply Forall_impl; [exact Htasks|]. apply module_task_sem_ok. }
  simpl in Hsum.
  rewrite (holders_finished _ Hdone), (holders_spawned py _ Htasks) in Hsum.
  by rewrite !Nat.add_0_r in Hsum.
Qed.

(* ===================================================================== *)
(** * The loop of [main] and the tables                                   *)
(* ===================================================================== *)

(** X21.  Along the loop of [main], over any number of passes and whatever
    the network answers in each of them: the uniqueness constraints keep
    holding, every table only grows at its end, and no record of the query
    service is touched. *)
Theorem main_keeps_tables py env st st' :
  rtc (main_step py env) st st' →
  consistent (db (store_of st)) →
  consistent (db (store_of st')) ∧
  grows (db (store_of st)) (db (store_of st')) ∧
  heap (store_of st') = heap (store_of st).
Proof.
  induction 1 as [st|st mid st' Hstep _ IH]; intros Hst.
  - split; [done|]. split; [apply grows_refl | done].
  - assert (consistent (db (store_of mid)) ∧
            grows (db (store_of st)) (db (store_of mid)) ∧
            heap (store_of mid) = heap (store_of st)) as (Hmid & Hgrows & Hheap).
    { destruct Hstep as [i s s' Hrun | i s s' e Hrun | i s]; simpl in *.
      - split; [by eapply pass_consistent | by eapply pass_only_appends].
      - split; [by eapply pass_consistent | by eapply pass_only_appends].
      - split; [done|]. split; [apply grows_refl | done]. }
    destruct (IH Hmid) as (? & ? & ?).
    split; [done|]. split; [by eapply grows_trans | congruence].
Qed.

Lemma main_keeps_tables_witness :
  consistent (db harvested_store) ∧
  grows (db empty_store) (db harvested_store) ∧
  heap harvested_store = heap empty_store.
Proof.
  apply (main_keeps_tables example_py (λ _, example_world)
           (Scraping 0 empty_store) (Scraping 1 harvested_store)).
  - apply (rtc_l _ _ (Sleeping 60 0 harvested_store)).
    + apply main_scraped. eapply scrape_data_joins; [reflexivity|].
      apply (TaskGroup_returns_to _ _ _ example_schedule).
      * vm_compute. reflexivity.
      * vm_compute. repeat constructor; eauto.
    + apply rtc_once. apply main_slept.
  - repeat split; constructor.
Defined.

Lemma permits_all_returned_witness :
  permits (run example_world example_schedule
             (Config empty_store HTTP_SEMAPHORE
                [spawn (Unguarded (_scrape_device example_device));
                 spawn (_bound_scrape_firmware example_py example_firm)]))
  = HTTP_SEMAPHORE.
Proof.
  apply (permits_all_returned example_py).
  - repeat constructor.
  - vm_compute. repeat constructor.
Defined.

(* ===================================================================== *)
(** * The identifier as a pattern                                         *)
(* ===================================================================== *)




(* ===================================================================== *)
(** * The retries of a firmware task                                      *)
(* ===================================================================== *)

Section Sent.

Context (select : ∀ X, event X → bool) (w : world).







End Sent.

Section Retries.

Context (py : pylib) (w : world).














End Retries.


(* ===================================================================== *)
(** * The query service: pools of one type                                *)
(* ===================================================================== *)

Lemma untyped_spawn {A} (c : coroutine A) : untyped (typed_spawn c) = spawn c.
Proof. by destruct c. Qed.

Lemma task_step_untyped w {A} s n (t : typed_task A) :
  task_step w s n (untyped t)
  = (λ x, (x.1, untyped x.2)) <$> typed_step w s n t.
Proof.
  destruct t as [[m aw] p]. unfold untyped. simpl.
  destruct m, p as [a|e|X ev k]; simpl; try done;
    try (by destruct n);
    (destruct (is_network ev && negb aw); [done|]);
    by destruct (handle w ev s).
Qed.

Lemma step_at_untyped w {A} i (c : typed_config A) :
  step_at w i (untyped_config c) = untyped_config <$> typed_step_at w i c.
Proof.
  unfold step_at, typed_step_at.
  cbn [pool cfg_store permits untyped_config]. rewrite list_lookup_fmap.
  destruct (tc_pool c !! i) as [t|]; cbn [fmap option_fmap option_map]; [|done].
  rewrite task_step_untyped.
  destruct (typed_step w (tc_store c) (tc_permits c) t) as [[[s' n'] t']|];
    cbn [fmap option_fmap option_map]; [|done].
  unfold untyped_config. cbn [tc_store tc_permits tc_pool fst snd].
  by rewrite list_fmap_insert.
Qed.

(** The pool of one type runs as the pool of the event loop does. *)
Lemma run_untyped w {A} sched (c : typed_config A) :
  run w sched (untyped_config c) = untyped_config (typed_run w sched c).
Proof.
  revert c. induction sched as [|i sched IH]; intros c; simpl; [done|].
  rewrite step_at_untyped.
  destruct (typed_step_at w i c) as [c'|]; simpl; apply IH.
Qed.

(* ===================================================================== *)
(** * The signing tasks of one request do not disturb each other          *)
(* ===================================================================== *)

Lemma checks_only_is_firmware_signed identifier r :
  checks_only r (_is_firmware_signed identifier r).
Proof.
  unfold _is_firmware_signed. simpl. intros [boardconfig|]; simpl; [|done].
  split; [done|]. split; [done|]. intros [e|buildid]; simpl; [done|].
  intros [e|[[[chip board] ubid]|]]; simpl; [done| |].
  - intros [e|text]; simpl; [done|]. split; [done|]. split; [done|]. done.
  - split; [done|]. split; [done|]. intros [e|buildid']; simpl; [done|].
    intros [e|[]]; simpl; done.
Qed.

Lemma dict_of_with_db s d r : dict_of (with_db s d) r = dict_of s r.
Proof. done. Qed.

Lemma same_for_refl r s : same_for r s s.
Proof. done. Qed.

Lemma same_for_sym r s s' : same_for r s s' → same_for r s' s.
Proof. intros (? & ? & ?). by repeat split. Qed.

Lemma same_for_trans r s1 s2 s3 :
  same_for r s1 s2 → same_for r s2 s3 → same_for r s1 s3.
Proof. intros (? & ? & ?) (? & ? & ?). repeat split; congruence. Qed.

(** The answer to a request of the task of [r] is the same in two stores
    that agree for [r], and they agree for [r] afterwards. *)
Lemma handle_same_for w r {X A} (ev : event X) (k : X → prog A) s s' :
  checks_only r (Await ev k) →
  same_for r s s' →
  (handle w ev s).2 = (handle w ev s').2 ∧
  same_for r (handle w ev s).1 (handle w ev s').1.
Proof.
  intros Hchecks (Hdev & Hbm & Hdict).
  destruct ev; simpl in *; try done.
  - unfold Sql.select_boardconfig. by rewrite Hdev.
  - unfold Sql.select_identity. rewrite Hbm. done.
  - destruct (Sql.as_text buildid); simpl; [done|]. done.
  - destruct Hchecks as (-> & _ & _). by rewrite Hdict.
  - destruct Hchecks as (-> & _ & _). split; [done|].
    repeat split; simpl; try done. by rewrite !dict_of_set, Hdict.
Qed.

Lemma handle_checks_only w r {X A} (ev : event X) (k : X → prog A) s :
  checks_only r (Await ev k) → checks_only r (k (handle w ev s).2).
Proof.
  destruct ev; simpl; try done; try (by intros H; apply H);
    intros (_ & _ & H); apply H.
Qed.

Lemma exec_same_for w r {A} (p : prog A) : ∀ s s',
  checks_only r p →
  same_for r s s' →
  (exec w p s).2 = (exec w p s').2 ∧
  same_for r (exec w p s).1 (exec w p s').1.
Proof.
  induction p as [a|e|X ev k IH]; intros s s' Hchecks Hsame; simpl; try done.
  destruct (handle_same_for w r ev k s s' Hchecks Hsame) as [Hanswer Hnext].
  pose proof (handle_checks_only w r ev k s Hchecks) as Hk.
  destruct (handle w ev s) as [s1 x], (handle w ev s') as [s1' x'].
  simpl in *. subst x'. by apply IH.
Qed.

(** A request of the task of [r] leaves every other record alone, and
    changes the tables and its own record within the frame. *)
Lemma handle_other w r r' {X A} (ev : event X) (k : X → prog A) s :
  checks_only r (Await ev k) → r' ≠ r → same_for r' s (handle w ev s).1.
Proof.
  intros Hchecks Hne. destruct ev; simpl in *; try done.
  - by destruct (Sql.as_text buildid).
  - destruct Hchecks as (-> & _ & _). repeat split; simpl; try done.
    unfold dict_of. simpl. by rewrite lookup_insert_ne.
Qed.

Lemma request_frame_refl s : request_frame s s.
Proof. by repeat split. Qed.

Lemma request_frame_trans s1 s2 s3 :
  request_frame s1 s2 → request_frame s2 s3 → request_frame s1 s3.
Proof.
  intros (? & ? & ? & H12) (? & ? & ? & H23).
  repeat split; [congruence | congruence | by etrans |].
  intros r key Hkey. by rewrite H23, H12.
Qed.

Lemma handle_frame w r {X A} (ev : event X) (k : X → prog A) s :
  checks_only r (Await ev k) → request_frame s (handle w ev s).1.
Proof.
  intros Hchecks. destruct ev; simpl in *; try done;
    try apply request_frame_refl.
  - destruct (Sql.as_text buildid); simpl; [apply request_frame_refl|].
    repeat split; simpl; try done. apply filter_sublist.
  - destruct Hchecks as (-> & -> & _). repeat split; simpl; try done.
    intros r' key Hkey. unfold dict_of at 1. simpl.
    destruct (decide (r' = r)) as [->|Hne].
    + rewrite lookup_insert_eq. simpl. by rewrite lookup_insert_ne.
    + by rewrite lookup_insert_ne.
Qed.

Lemma foreseen_same_for w s s' t x :
  same_for x.1.1 s s' → foreseen w s t x → foreseen w s' t x.
Proof.
  intros Hsame (Hchecks & Hres & Hdict).
  destruct (exec_same_for w _ _ s s' Hchecks Hsame) as [Hres' (_ & _ & Hdict')].
  split; [done|]. split; congruence.
Qed.

(** One step of a pool whose tasks are foreseen. *)
Lemma typed_step_foreseen w s n t x s' n' t' :
  typed_step w s n t = Some (s', n', t') →
  foreseen w s t x →
  foreseen w s' t' x ∧
  request_frame s s' ∧
  ∀ r', r' ≠ x.1.1 → same_for r' s s'.
Proof.
  destruct t as [[m aw] p]. intros Hstep (Hchecks & Hres & Hdict).
  simpl in Hchecks, Hres, Hdict.
  assert (∀ m' aw', foreseen w s (m', aw', p) x) as Hsame
    by (intros; by split).
  destruct m, p as [a|e|X ev k]; simpl in Hstep;
    try done;
    try (destruct n; [done|]);
    try (injection Hstep as <- <- <-;
         split; [apply Hsame|]; split; [apply request_frame_refl | done]).
  all: destruct (is_network ev && negb aw);
    [injection Hstep as <- <- <-;
     split; [apply Hsame|]; split; [apply request_frame_refl | done]|].
  all: pose proof (handle_checks_only w _ ev k s Hchecks) as Hk.
  all: pose proof (handle_frame w _ ev k s Hchecks) as Hframe.
  all: pose proof (λ r', handle_other w _ r' ev k s Hchecks) as Hother.
  all: simpl in Hres, Hdict.
  all: destruct (handle w ev s) as [s1 answer]; injection Hstep as <- <- <-.
  all: split; [by split|]; by split.
Qed.

Lemma typed_step_at_foreseen w i (c c' : typed_config (option ref)) xs :
  typed_step_at w i c = Some c' →
  NoDup xs.*1.*1 →
  Forall2 (foreseen w (tc_store c)) (tc_pool c) xs →
  Forall2 (foreseen w (tc_store c')) (tc_pool c') xs ∧
  request_frame (tc_store c) (tc_store c').
Proof.
  unfold typed_step_at. intros Hstep Hnodup Hpool.
  destruct (tc_pool c !! i) as [t|] eqn:Ht; [|done].
  destruct (typed_step w _ _ t) as [[[s' n'] t']|] eqn:Htask; [|done].
  injection Hstep as <-. simpl.
  destruct (Forall2_lookup_l _ _ _ _ _ Hpool Ht) as (x & Hx & Hforeseen).
  destruct (typed_step_foreseen _ _ _ _ _ _ _ _ Htask Hforeseen)
    as (Hnext & Hframe & Hothers).
  split; [|done].
  apply Forall2_same_length_lookup. split.
  { rewrite length_insert. by eapply Forall2_length. }
  intros j tj xj Htj Hxj. destruct (decide (j = i)) as [->|Hne].
  - rewrite list_lookup_insert_eq in Htj by (by eapply lookup_lt_Some).
    injection Htj as <-. by assert (xj = x) as -> by congruence.
  - rewrite list_lookup_insert_ne in Htj by done.
    pose proof (Forall2_lookup_lr _ _ _ _ _ _ Hpool Htj Hxj) as Hj.
    apply (foreseen_same_for _ (tc_store c)); [|done].
    apply Hothers. intros Heq.
    apply Hne. eapply (NoDup_lookup xs.*1.*1); [done| |].
    + by rewrite !list_lookup_fmap, Hxj.
    + by rewrite !list_lookup_fmap, Hx, Heq.
Qed.

Lemma typed_run_foreseen w sched : ∀ (c : typed_config (option ref)) xs,
  NoDup xs.*1.*1 →
  Forall2 (foreseen w (tc_store c)) (tc_pool c) xs →
  Forall2 (foreseen w (tc_store (typed_run w sched c)))
    (tc_pool (typed_run w sched c)) xs ∧
  request_frame (tc_store c) (tc_store (typed_run w sched c)).
Proof.
  induction sched as [|i sched IH]; intros c xs Hnodup Hpool; simpl.
  - split; [done | apply request_frame_refl].
  - destruct (typed_step_at w i c) as [c'|] eqn:Hstep; simpl; [|by apply IH].
    destruct (typed_step_at_foreseen _ _ _ _ _ Hstep Hnodup Hpool)
      as [Hpool' Hframe].
    destruct (IH c' xs Hnodup Hpool') as [Hend Hframe'].
    split; [done | by eapply request_frame_trans].
Qed.

(* ===================================================================== *)
(** * The query service: what a request answers                           *)
(* ===================================================================== *)

Section ServiceAnswers.

Context (size_column : string → pyval) (w : world) (identifier : string).

Lemma dict_of_row_buildid row :
  dict_of_row size_column row !! "buildid" = Some (PyStr (fw_buildid row)).
Proof. unfold dict_of_row. by simplify_map_eq. Qed.

Lemma allocated_db s dicts refs s1 : allocated s dicts refs s1 → db s1 = db s.
Proof. by intros (_ & _ & _ & ->). Qed.

Lemma allocated_dict s dicts refs s1 i r d :
  allocated s dicts refs s1 →
  refs !! i = Some r → dicts !! i = Some d → dict_of s1 r = d.
Proof.
  intros (Hlen & Hnodup & _ & ->) Hr Hd. unfold dict_of. simpl.
  erewrite lookup_union_Some_l; [done|].
  apply elem_of_list_to_map.
  - by rewrite fst_zip by lia.
  - apply list_elem_of_lookup. exists i. by apply lookup_zip_Some.
Qed.

Lemma allocated_old s dicts refs s1 r :
  allocated s dicts refs s1 → r ∉ refs → dict_of s1 r = dict_of s r.
Proof.
  intros (Hlen & _ & _ & ->) Hr. unfold dict_of. simpl.
  rewrite lookup_union_r; [done|].
  apply not_elem_of_list_to_map. by rewrite fst_zip by lia.
Qed.

(** The signing task of a record that was just built, run alone. *)
Lemma exec_alone_outcome s rows refs s1 i r row :
  allocated s (dict_of_row size_column <$> rows) refs s1 →
  refs !! i = Some r →
  rows !! i = Some row →
  foreseen w s1 (typed_spawn (is_firmware_signed identifier r))
    (alone_outcome size_column w (db s) identifier r row).
Proof.
  intros Halloc Hr Hrow.
  assert (dict_of s1 r = dict_of_row size_column row) as Hdict.
  { eapply allocated_dict; [done..|]. by rewrite list_lookup_fmap, Hrow. }
  pose proof (allocated_db _ _ _ _ Halloc) as Hdb.
  split; [apply checks_only_is_firmware_signed|].
  unfold alone_outcome, verdict. cbn [fst snd].
  change ((typed_spawn (is_firmware_signed identifier r)).2)
    with (_is_firmware_signed identifier r).
  rewrite exec_is_firmware_signed, Hdb, Hdict, dict_of_row_buildid.
  cbn [Sql.as_text].
  destruct (Sql.select_boardconfig _ _) as [boardconfig|]; [|done].
  destruct (Sql.select_identity _ _ _) as [[[chip board] ubid]|].
  - destruct (net_tss w _) as [e|text]; cbn [fst snd]; [done|]. split; [done|].
    by rewrite dict_of_set.
  - cbn [fst snd]. split; [done|]. by rewrite dict_of_with_db.
Qed.

Lemma initial_foreseen s rows refs s1 :
  allocated s (dict_of_row size_column <$> rows) refs s1 →
  Forall2 (foreseen w s1)
    ((λ r, typed_spawn (is_firmware_signed identifier r)) <$> refs)
    (zip_with (alone_outcome size_column w (db s) identifier) refs rows).
Proof.
  intros Halloc.
  assert (List.length refs = List.length rows) as Hlen.
  { destruct Halloc as (Hlen & _). by rewrite length_fmap in Hlen. }
  apply Forall2_same_length_lookup. split.
  { rewrite length_fmap, length_zip_with. lia. }
  intros i t x Ht Hx. rewrite list_lookup_fmap in Ht.
  destruct (refs !! i) as [r|] eqn:Hr; [|done]. injection Ht as <-.
  apply lookup_zip_with_Some in Hx as (r' & row & -> & Hr' & Hrow).
  assert (r' = r) as -> by congruence.
  by eapply exec_alone_outcome.
Qed.

Lemma outcomes_refs s refs rows :
  List.length refs = List.length rows →
  (zip_with (alone_outcome size_column w (db s) identifier) refs rows).*1.*1
  = refs.
Proof.
  revert rows. induction refs as [|r refs IH]; intros [|row rows]; simpl;
    try done. intros [= Hlen]. by rewrite IH.
Qed.

(** Every run of the tasks of one request ends in what was foreseen. *)
Lemma request_foreseen s rows refs s1 sched :
  allocated s (dict_of_row size_column <$> rows) refs s1 →
  let c := typed_run w sched
             (TypedConfig s1 HTTP_SEMAPHORE
                ((λ r, typed_spawn (is_firmware_signed identifier r)) <$> refs)) in
  Forall2 (foreseen w (tc_store c)) (tc_pool c)
    (zip_with (alone_outcome size_column w (db s) identifier) refs rows) ∧
  request_frame s1 (tc_store c).
Proof.
  intros Halloc c.
  assert (List.length refs = List.length rows) as Hlen.
  { destruct Halloc as (Hlen & _). by rewrite length_fmap in Hlen. }
  apply (typed_run_foreseen w sched (TypedConfig s1 HTTP_SEMAPHORE _)).
  - rewrite outcomes_refs by done. by destruct Halloc as (_ & ? & _).
  - by apply initial_foreseen.
Qed.

End ServiceAnswers.

Lemma fmap_insert_by_key {A B} (f : A → B) (key : B → string) key' x l :
  (∀ a, key' a = key (f a)) →
  f <$> insert_by_key key' x l = insert_by_key key (f x) (f <$> l).
Proof.
  intros Hkey. induction l as [|y l IH]; [done|].
  cbn [insert_by_key fmap list_fmap]. rewrite !Hkey.
  destruct (String.ltb (key (f x)) (key (f y))); [|done].
  cbn [fmap list_fmap]. f_equal. exact IH.
Qed.

Lemma fmap_sorted_reverse {A B} (f : A → B) (key : B → string) key' l :
  (∀ a, key' a = key (f a)) →
  f <$> sorted_reverse key' l = sorted_reverse key (f <$> l).
Proof.
  intros Hkey. induction l as [|x l IH]; [done|].
  cbn [sorted_reverse foldr fmap list_fmap].
  change (foldr (insert_by_key key') [] l) with (sorted_reverse key' l).
  change (foldr (insert_by_key key) [] (f <$> l)) with (sorted_reverse key (f <$> l)).
  by rewrite (fmap_insert_by_key f key), IH.
Qed.

Lemma omap_cons {A B} (f : A → option B) x (l : list A) :
  omap f (x :: l) =
  match f x with
  | Some y => y :: omap f l
  | None => omap f l
  end.
Proof. done. Qed.

Section ServiceTheorems.

Context (size_column : string → pyval) (w : world) (identifier : string).

(** The tasks that have returned have returned what was foreseen. *)
Lemma returned_foreseen (d : DB) s' : ∀ refs rows pool results,
  Forall2 (foreseen w s') pool
    (zip_with (alone_outcome size_column w d identifier) refs rows) →
  List.length refs = List.length rows →
  Forall2 typed_returned pool results →
  dict_of s' <$> omap id results = omap (record size_column w d identifier) rows ∧
  omap id results ⊆ refs ∧
  Forall (λ row, ∃ o, verdict w d identifier row = inr o) rows.
Proof.
  induction refs as [|r refs IH]; intros [|row rows] pool results Hpool Hlen Hret;
    simpl in Hpool, Hlen; try done.
  - apply Forall2_nil_inv_r in Hpool as ->.
    apply Forall2_nil_inv_l in Hret as ->. done.
  - apply Forall2_cons_inv_r in Hpool as (t & pool' & Ht & Hpool & ->).
    apply Forall2_cons_inv_l in Hret as (res & results' & [_ Hres] & Hret & ->).
    injection Hlen as Hlen.
    destruct (IH rows pool' results' Hpool Hlen Hret) as (Hdicts & Hsub & Hverdicts).
    destruct Ht as (_ & Houtcome & Hdict). rewrite Hres in Houtcome, Hdict.
    unfold alone_outcome in Houtcome, Hdict. simpl in Houtcome, Hdict.
    rewrite !omap_cons. unfold record at 1.
    destruct (verdict w d identifier row) as [e|[signed|]] eqn:Hverdict;
      [done| |]; injection Houtcome as ->; cbn [id].
    + split; [by rewrite fmap_cons, Hdict, Hdicts|]. split.
      * intros x [->|Hx]%elem_of_cons; [by left | right; by apply Hsub].
      * constructor; [by eexists | done].
    + split; [done|]. split.
      * intros x Hx. right. by apply Hsub.
      * constructor; [by eexists | done].
Qed.

Lemma raised_foreseen (d : DB) s' e : ∀ refs rows pool,
  Forall2 (foreseen w s') pool
    (zip_with (alone_outcome size_column w d identifier) refs rows) →
  Exists (typed_raised e) pool →
  ∃ row, row ∈ rows ∧ verdict w d identifier row = inl e.
Proof.
  induction refs as [|r refs IH]; intros [|row rows] pool Hpool Hraised;
    simpl in Hpool; try (apply Forall2_nil_inv_r in Hpool as ->;
                         by apply Exists_nil in Hraised).
  apply Forall2_cons_inv_r in Hpool as (t & pool' & Ht & Hpool & ->).
  apply Exists_cons in Hraised as [[_ Hcode] | Hraised].
  - exists row. split; [by left|].
    destruct Ht as (_ & Houtcome & _). rewrite Hcode in Houtcome.
    unfold alone_outcome in Houtcome. simpl in Houtcome.
    by destruct (verdict w d identifier row) as [e'|[signed|]]; simplify_eq.
  - destruct (IH rows pool' Hpool Hraised) as (row' & Hin & Hverdict).
    exists row'. split; [by right | done].
Qed.

Lemma returned_answer s s' response :
  get_beta_firmwares size_column w identifier s s' (inr response) →
  dict_of s' <$> response = answer size_column w (db s) identifier ∧
  Forall (λ row, ∃ o, verdict w (db s) identifier row = inr o)
    (Sql.select_firmwares (Str.around identifier) (db s)).
Proof.
  intros Hrun.
  inversion Hrun as [refs s1 sched c results Halloc Hc Hret Htext|]; subst.
  destruct (request_foreseen size_column w identifier s _ refs s1 sched Halloc)
    as [Hpool _].
  assert (List.length refs
          = List.length (Sql.select_firmwares (Str.around identifier) (db s)))
    as Hlen.
  { destruct Halloc as (Hlen & _). by rewrite length_fmap in Hlen. }
  destruct (returned_foreseen _ _ _ _ _ _ Hpool Hlen Hret)
    as (Hdicts & _ & Hverdicts).
  split; [|done]. unfold answer. rewrite <- Hdicts.
  by apply fmap_sorted_reverse.
Qed.

Lemma raised_verdict s s' e :
  get_beta_firmwares size_column w identifier s s' (inl e) →
  ∃ row, row ∈ Sql.select_firmwares (Str.around identifier) (db s) ∧
         verdict w (db s) identifier row = inl e.
Proof.
  intros Hrun.
  inversion Hrun as [|refs s1 sched c e' Halloc Hc Hraised]; subst.
  destruct (request_foreseen size_column w identifier s _ refs s1 sched Halloc)
    as [Hpool _].
  by eapply raised_foreseen.
Qed.



End ServiceTheorems.

(* ===================================================================== *)
(** * The query service: the rows a request deletes                       *)
(* ===================================================================== *)

Lemma filter_filter {A} (f g : A → bool) l :
  List.filter f (List.filter g l) = List.filter (λ x, g x && f x) l.
Proof.
  induction l as [|x l IH]; [done|]. simpl.
  destruct (g x); simpl; [|done]. destruct (f x); by rewrite IH.
Qed.

Lemma filter_ext_in {A} (f g : A → bool) l :
  (∀ x, x ∈ l → f x = g x) → List.filter f l = List.filter g l.
Proof.
  intros H. apply List.filter_ext_in. intros x Hx. apply H.
  by apply list_elem_of_In.
Qed.

Lemma filter_all {A} (f : A → bool) l :
  (∀ x, x ∈ l → f x = true) → List.filter f l = l.
Proof.
  induction l as [|x l IH]; intros H; [done|]. simpl.
  rewrite (H x) by left. f_equal. apply IH. intros y Hy. apply H. by right.
Qed.

Lemma handle_keeps w r {X A} (ev : event X) (k : X → prog A) s :
  checks_only r (Await ev k) →
  firmwares (db (handle w ev s).1) = List.filter (keeps ev) (firmwares (db s)).
Proof.
  intros Hchecks.
  destruct ev; simpl in *; try done; try (by rewrite filter_all).
  unfold keeps. destruct (Sql.as_text buildid); simpl; [by rewrite filter_all | done].
Qed.

Lemma spares_same_for w r {A} (p : prog A) : ∀ s s' row,
  checks_only r p → same_for r s s' → spares w p s row = spares w p s' row.
Proof.
  induction p as [a|e|X ev k IH]; intros s s' row Hchecks Hsame; simpl; try done.
  destruct (handle_same_for w r ev k s s' Hchecks Hsame) as [Hanswer Hnext].
  pose proof (handle_checks_only w r ev k s Hchecks) as Hk.
  destruct (handle w ev s) as [s1 x], (handle w ev s') as [s1' x'].
  simpl in *. subst x'. f_equal. by apply IH.
Qed.

Lemma forallb_ext_lookup {A} (f f' : A → bool) l :
  (∀ i x, l !! i = Some x → f' x = f x) → forallb f l = forallb f' l.
Proof.
  induction l as [|y l IH]; intros H; [done|]. simpl.
  rewrite (H 0%nat y) by done. f_equal. apply IH.
  intros i x Hx. by apply (H (S i)).
Qed.

Lemma forallb_insert {A} (f f' : A → bool) (g : bool) : ∀ l j t t',
  l !! j = Some t →
  (∀ i ti, i ≠ j → l !! i = Some ti → f' ti = f ti) →
  f t = g && f' t' →
  forallb f l = g && forallb f' (<[j := t']> l).
Proof.
  induction l as [|y l IH]; intros j t t' Hj Hothers Ht; [done|].
  destruct j as [|j].
  - injection Hj as ->. cbn [forallb insert list_insert].
    rewrite Ht, <- andb_assoc. f_equal. f_equal.
    apply forallb_ext_lookup. intros i x Hx. by apply (Hothers (S i)).
  - cbn [forallb insert list_insert].
    rewrite (IH j t t' Hj); [| |done].
    + rewrite (Hothers 0%nat y) by done. by destruct g, (f y).
    + intros i ti Hi Hti. apply (Hothers (S i)); [lia | done].
Qed.

(** One step of the pool leaves in place what the pool was to leave in
    place. *)
Lemma typed_step_at_spared w j (c c' : typed_config (option ref)) xs :
  typed_step_at w j c = Some c' →
  NoDup xs.*1.*1 →
  Forall2 (foreseen w (tc_store c)) (tc_pool c) xs →
  List.filter (spared w c') (firmwares (db (tc_store c')))
  = List.filter (spared w c) (firmwares (db (tc_store c))).
Proof.
  unfold typed_step_at. intros Hstep Hnodup Hpool.
  destruct (tc_pool c !! j) as [t|] eqn:Ht; [|done].
  destruct (typed_step w _ _ t) as [[[s' n'] t']|] eqn:Htask; [|done].
  injection Hstep as <-. cbn [tc_store tc_pool].
  destruct (Forall2_lookup_l _ _ _ _ _ Hpool Ht) as (x & Hx & Hforeseen).
  destruct (typed_step_foreseen _ _ _ _ _ _ _ _ Htask Hforeseen)
    as (_ & _ & Hothers).
  assert (∃ g : firmware_row → bool,
            firmwares (db s') = List.filter g (firmwares (db (tc_store c))) ∧
            ∀ row, spares w t.2 (tc_store c) row = g row && spares w t'.2 s' row)
    as (g & Hfirmwares & Hspares).
  { destruct Hforeseen as (Hchecks & _ & _).
    destruct t as [[m aw] p]. simpl in Hchecks.
    assert (∀ s0, firmwares (db s0) = List.filter (λ _, true) (firmwares (db s0)))
      as Hsame by (intros; by rewrite filter_all).
    destruct m, p as [a|e|X ev k]; simpl in Htask;
      try done;
      try (destruct (tc_permits c); [done|]);
      try (injection Htask as <- <- <-; by exists (λ _, true)).
    all: destruct (is_network ev && negb aw);
      [injection Htask as <- <- <-; by exists (λ _, true)|].
    all: pose proof (handle_keeps w _ ev k (tc_store c) Hchecks) as Hkeeps.
    all: exists (keeps ev); simpl.
    all: destruct (handle w ev (tc_store c)) as [s1 answer];
      injection Htask as <- <- <-; done. }
  rewrite Hfirmwares, filter_filter. apply filter_ext_in. intros row _.
  unfold spared. cbn [tc_store tc_pool]. symmetry.
  apply (forallb_insert _ _ _ _ j t t' Ht); [|apply Hspares].
  intros i ti Hi Hti.
  destruct (Forall2_lookup_l _ _ _ _ _ Hpool Hti) as (xi & Hxi & (Hchecks & _)).
  symmetry. apply (spares_same_for w xi.1.1); [done|].
  apply Hothers. intros Heq. apply Hi.
  eapply (NoDup_lookup xs.*1.*1); [done| |].
  - by rewrite !list_lookup_fmap, Hxi.
  - by rewrite !list_lookup_fmap, Hx, Heq.
Qed.

Lemma typed_run_spared w sched : ∀ (c : typed_config (option ref)) xs,
  NoDup xs.*1.*1 →
  Forall2 (foreseen w (tc_store c)) (tc_pool c) xs →
  List.filter (spared w (typed_run w sched c))
    (firmwares (db (tc_store (typed_run w sched c))))
  = List.filter (spared w c) (firmwares (db (tc_store c))).
Proof.
  induction sched as [|i sched IH]; intros c xs Hnodup Hpool; simpl; [done|].
  destruct (typed_step_at w i c) as [c'|] eqn:Hstep; simpl; [|by eapply IH].
  destruct (typed_step_at_foreseen _ _ _ _ _ Hstep Hnodup Hpool) as [Hpool' _].
  rewrite (IH c' xs Hnodup Hpool').
  by eapply typed_step_at_spared.
Qed.

Section ServiceTables.

Context (size_column : string → pyval) (w : world) (identifier : string).

(** What the signing task of a record that was just built deletes. *)
Lemma spares_alone s rows refs s1 i r row_i row :
  allocated s (dict_of_row size_column <$> rows) refs s1 →
  refs !! i = Some r →
  rows !! i = Some row_i →
  spares w (_is_firmware_signed identifier r) s1 row =
  match Sql.select_boardconfig (Str.around identifier) (db s) with
  | None => true
  | Some boardconfig =>
      match Sql.select_identity (Str.around boardconfig)
              (Some (fw_buildid row_i)) (db s) with
      | None =>
          negb (Sql.firmware_matches (Some (fw_buildid row_i))
                  (Str.around identifier) row)
      | Some _ => true
      end
  end.
Proof.
  intros Halloc Hr Hrow.
  assert (dict_of s1 r = dict_of_row size_column row_i) as Hdict.
  { eapply allocated_dict; [done..|]. by rewrite list_lookup_fmap, Hrow. }
  pose proof (allocated_db _ _ _ _ Halloc) as Hdb.
  unfold _is_firmware_signed. simpl. rewrite Hdb.
  destruct (Sql.select_boardconfig _ _) as [boardconfig|]; simpl; [|done].
  rewrite Hdict, dict_of_row_buildid. simpl. rewrite Hdb.
  destruct (Sql.select_identity _ _ _) as [[[chip board] ubid]|]; simpl.
  - by destruct (net_tss w _).
  - rewrite Hdict, dict_of_row_buildid. simpl. by rewrite andb_true_r.
Qed.

Lemma initial_spared s refs s1 n row :
  allocated s
    (dict_of_row size_column <$> Sql.select_firmwares (Str.around identifier) (db s))
    refs s1 →
  row ∈ firmwares (db s) →
  spared w
    (TypedConfig s1 n
       ((λ r, typed_spawn (is_firmware_signed identifier r)) <$> refs)) row
  = negb (orphan (db s) identifier row).
Proof.
  intros Halloc Hrow. set (rows := Sql.select_firmwares _ _) in *.
  assert (List.length refs = List.length rows) as Hlen.
  { destruct Halloc as (Hlen & _). by rewrite length_fmap in Hlen. }
  unfold spared. cbn [tc_store tc_pool].
  apply Bool.eq_iff_eq_true. rewrite forallb_forall, negb_true_iff. split.
  - intros Hall. destruct (orphan (db s) identifier row) eqn:Horphan; [|done].
    exfalso. unfold orphan in Horphan.
    apply andb_prop in Horphan as [Hlike Hidentity].
    assert (row ∈ rows) as Hin.
    { apply list_elem_of_In, filter_In. split; [by apply list_elem_of_In | done]. }
    apply list_elem_of_lookup in Hin as [i Hi].
    destruct (lookup_lt_is_Some_2 refs i) as [r Hr].
    { rewrite Hlen. by eapply lookup_lt_Some. }
    specialize (Hall (typed_spawn (is_firmware_signed identifier r))).
    cbn [snd typed_spawn is_firmware_signed] in Hall.
    rewrite (spares_alone s rows refs s1 i r row row Halloc Hr Hi) in Hall.
    destruct (Sql.select_boardconfig _ _) as [boardconfig|]; [|done].
    apply bool_decide_eq_true in Hidentity. rewrite Hidentity in Hall.
    unfold Sql.firmware_matches in Hall.
    rewrite bool_decide_eq_true_2, Hlike in Hall by done.
    assert (false = true) as [=]. apply Hall.
    apply list_elem_of_In, list_elem_of_fmap. exists r. split; [done|].
    by eapply list_elem_of_lookup_2.
  - intros Horphan t [r [-> Hr]]%list_elem_of_In%list_elem_of_fmap.
    apply list_elem_of_lookup in Hr as [i Hr].
    destruct (lookup_lt_is_Some_2 rows i) as [row_i Hi].
    { rewrite <- Hlen. by eapply lookup_lt_Some. }
    cbn [snd typed_spawn is_firmware_signed].
    rewrite (spares_alone s rows refs s1 i r row_i row Halloc Hr Hi).
    unfold orphan in Horphan.
    destruct (Sql.select_boardconfig _ _) as [boardconfig|]; [|done].
    destruct (Sql.select_identity _ (Some (fw_buildid row_i)) _) eqn:Hidentity;
      [done|].
    apply negb_true_iff. unfold Sql.firmware_matches.
    destruct (bool_decide (Some (fw_buildid row_i) = Some (fw_buildid row)))
      eqn:Hbuild; [|done].
    apply bool_decide_eq_true in Hbuild. injection Hbuild as Hbuild.
    rewrite Hbuild in Hidentity. rewrite Hidentity in Horphan.
    rewrite bool_decide_eq_true_2 in Horphan by done.
    rewrite andb_true_r in Horphan. by rewrite Horphan.
Qed.

Lemma final_spared s' (pool : list (typed_task (option ref))) results n row :
  Forall2 typed_returned pool results →
  spared w (TypedConfig s' n pool) row = true.
Proof.
  intros Hret. unfold spared. cbn [tc_store tc_pool].
  induction Hret as [|t res pool results [_ Hcode] _ IH]; [done|].
  simpl. rewrite Hcode. done.
Qed.

Lemma db_eq (d d' : DB) :
  devices d = devices d' → firmwares d = firmwares d' →
  buildmanifest d = buildmanifest d' → d = d'.
Proof. destruct d, d'; simpl; congruence. Qed.

Lemma request_frame_allocated s dicts refs s1 s' :
  allocated s dicts refs s1 →
  request_frame s1 s' →
  devices (db s') = devices (db s) ∧
  buildmanifest (db s') = buildmanifest (db s) ∧
  firmwares (db s') `sublist_of` firmwares (db s) ∧
  ∀ r key, is_Some (heap s !! r) → key ≠ "signed" →
           dict_of s' r !! key = dict_of s r !! key.
Proof.
  intros Halloc (Hdev & Hbm & Hfw & Hdicts).
  rewrite (allocated_db _ _ _ _ Halloc) in Hdev, Hbm, Hfw.
  split; [done|]. split; [done|]. split; [done|].
  intros r key [d Hr] Hkey. rewrite Hdicts by done.
  rewrite (allocated_old _ _ _ _ r Halloc); [done|].
  destruct Halloc as (_ & _ & Hfresh & _). intros Hin.
  eapply Forall_forall in Hfresh; [|exact Hin]. congruence.
Qed.

(** A request, however it ends, is within the frame. *)
Lemma request_tables_frame s s' o :
  get_beta_firmwares size_column w identifier s s' o →
  devices (db s') = devices (db s) ∧
  buildmanifest (db s') = buildmanifest (db s) ∧
  firmwares (db s') `sublist_of` firmwares (db s) ∧
  ∀ r key, is_Some (heap s !! r) → key ≠ "signed" →
           dict_of s' r !! key = dict_of s r !! key.
Proof.
  intros Hrun.
  inversion Hrun as [refs s1 sched c results Halloc Hc Hret Htext
                    |refs s1 sched c e Halloc Hc Hraised]; subst;
    destruct (request_foreseen size_column w identifier s _ refs s1 sched Halloc)
      as [_ Hframe];
    by eapply request_frame_allocated.
Qed.

(** The tables after a request that returned. *)
Lemma returned_tables s s' response :
  get_beta_firmwares size_column w identifier s s' (inr response) →
  db s' =
  mkDB (devices (db s))
       (List.filter (λ row, negb (orphan (db s) identifier row))
          (firmwares (db s)))
       (buildmanifest (db s)).
Proof.
  intros Hrun.
  destruct (request_tables_frame _ _ _ Hrun) as (Hdev & Hbm & _).
  inversion Hrun as [refs s1 sched c results Halloc Hc Hret Htext|]; subst.
  apply db_eq; cbn [devices firmwares buildmanifest]; [done| |done].
  assert (List.length refs
          = List.length (Sql.select_firmwares (Str.around identifier) (db s)))
    as Hlen.
  { destruct Halloc as (Hlen & _). by rewrite length_fmap in Hlen. }
  set (c0 := TypedConfig s1 HTTP_SEMAPHORE
               ((λ r, typed_spawn (is_firmware_signed identifier r)) <$> refs)).
  set (c := typed_run w sched c0) in *.
  assert (List.filter (spared w c) (firmwares (db (tc_store c)))
          = List.filter (spared w c0) (firmwares (db (tc_store c0)))) as Hspared.
  { apply (typed_run_spared w sched c0
             (zip_with (alone_outcome size_column w (db s) identifier) refs
                (Sql.select_firmwares (Str.around identifier) (db s)))).
    - rewrite outcomes_refs by done. by destruct Halloc as (_ & ? & _).
    - by apply initial_foreseen. }
  rewrite filter_all in Hspared.
  - rewrite Hspared. unfold c0 at 2. cbn [tc_store].
    rewrite (allocated_db _ _ _ _ Halloc).
    apply filter_ext_in. intros row Hrow. by eapply initial_spared.
  - intros row _.
    replace c with (TypedConfig (tc_store c) (tc_permits c) (tc_pool c))
      by (by destruct c).
    by eapply final_spared.
Qed.

End ServiceTables.

Lemma omap_filter {A B} (f : A → option B) (g : A → bool) (l : list A) :
  (∀ x, g x = false → f x = None) →
  omap f (List.filter g l) = omap f l.
Proof.
  intros H. induction l as [|x l IH]; [done|]. cbn [List.filter].
  destruct (g x) eqn:Hg; rewrite !omap_cons.
  - by rewrite IH.
  - by rewrite (H x Hg).
Qed.

Lemma omap_ext {A B} (f g : A → option B) (l : list A) :
  (∀ x, f x = g x) → omap f l = omap g l.
Proof.
  intros H. induction l as [|x l IH]; [done|].
  by rewrite !omap_cons, H, IH.
Qed.


Lemma allocated_exists s dicts : ∃ refs s1, allocated s dicts refs s1.
Proof.
  eexists (fresh_list (List.length dicts) (dom (heap s))), _.
  split; [apply length_fresh_list|]. split; [apply NoDup_fresh_list|].
  split; [|reflexivity]. apply Forall_forall. intros r Hr%fresh_list_is_fresh.
  by apply not_elem_of_dom.
Qed.

Lemma typed_run_to_end w {A} (tasks : list (typed_task A)) s :
  ∃ sched,
    Forall (λ t, t.1.1 = Outside ∧ final t.2)
      (tc_pool (typed_run w sched (TypedConfig s HTTP_SEMAPHORE tasks))).
Proof.
  destruct (run_to_end w (untyped <$> tasks) s) as [sched Hdone]. exists sched.
  change (Config s HTTP_SEMAPHORE (untyped <$> tasks))
    with (untyped_config (TypedConfig s HTTP_SEMAPHORE tasks)) in Hdone.
  rewrite run_untyped in Hdone. unfold untyped_config in Hdone.
  cbn [pool] in Hdone. apply Forall_forall. intros t Ht.
  assert (finished (untyped t)) as Hfinished.
  { eapply Forall_forall; [exact Hdone|]. apply list_elem_of_fmap. by exists t. }
  by destruct t as [[m aw] p].
Qed.

Lemma typed_finished_cases {A} (tasks : list (typed_task A)) :
  Forall (λ t, t.1.1 = Outside ∧ final t.2) tasks →
  (∃ results, Forall2 typed_returned tasks results) ∨
  ∃ e, Exists (typed_raised e) tasks.
Proof.
  induction 1 as [|t tasks [Hmode Hfinal] _ [[results IH] | [e IH]]].
  - left. by exists [].
  - destruct t as [[m aw] [a|e|X ev k]]; simpl in *; [| |done].
    + left. exists (a :: results). by constructor.
    + right. exists e. by left.
  - right. exists e. by right.
Qed.

Section ServiceRequests.

Context (size_column : string → pyval) (w : world) (identifier : string).

Lemma returned_text_buildid (d : DB) s' : ∀ refs rows tasks results,
  Forall2 (foreseen w s') tasks
    (zip_with (alone_outcome size_column w d identifier) refs rows) →
  List.length refs = List.length rows →
  Forall2 typed_returned tasks results →
  Forall (has_text_buildid s') (omap id results).
Proof.
  induction refs as [|r refs IH]; intros [|row rows] tasks results Hpool Hlen Hret;
    simpl in Hpool, Hlen; try done.
  - apply Forall2_nil_inv_r in Hpool as ->.
    apply Forall2_nil_inv_l in Hret as ->. constructor.
  - apply Forall2_cons_inv_r in Hpool as (t & tasks' & Ht & Hpool & ->).
    apply Forall2_cons_inv_l in Hret as (res & results' & [_ Hres] & Hret & ->).
    injection Hlen as Hlen.
    pose proof (IH rows tasks' results' Hpool Hlen Hret) as Hrest.
    destruct Ht as (_ & Houtcome & Hdict). rewrite Hres in Houtcome, Hdict.
    unfold alone_outcome in Houtcome, Hdict. simpl in Houtcome, Hdict.
    rewrite omap_cons.
    destruct (verdict w d identifier row) as [e|[signed|]] eqn:Hverdict;
      [done| |]; injection Houtcome as ->; cbn [id]; [|done].
    constructor; [|done]. exists (fw_buildid row). rewrite Hdict.
    rewrite lookup_insert_ne by done. apply dict_of_row_buildid.
Qed.

(** Every request ends: it returns or it raises. *)
Lemma request_total s : ∃ s' o, get_beta_firmwares size_column w identifier s s' o.
Proof.
  destruct (allocated_exists s
              (dict_of_row size_column
                 <$> Sql.select_firmwares (Str.around identifier) (db s)))
    as (refs & s1 & Halloc).
  destruct (typed_run_to_end w
              ((λ r, typed_spawn (is_firmware_signed identifier r)) <$> refs) s1)
    as [sched Hdone].
  destruct (request_foreseen size_column w identifier s _ refs s1 sched Halloc)
    as [Hpool _].
  assert (List.length refs
          = List.length (Sql.select_firmwares (Str.around identifier) (db s)))
    as Hlen.
  { destruct Halloc as (Hlen & _). by rewrite length_fmap in Hlen. }
  destruct (typed_finished_cases _ Hdone) as [[results Hret] | [e Hraised]].
  - eexists _, _. eapply get_beta_firmwares_returns; [done..|].
    by eapply returned_text_buildid.
  - eexists _, _. by eapply get_beta_firmwares_raises.
Qed.

Lemma verdict_ext (d d' : DB) row :
  devices d' = devices d → buildmanifest d' = buildmanifest d →
  verdict w d' identifier row = verdict w d identifier row.
Proof.
  intros Hdev Hbm. unfold verdict, Sql.select_boardconfig, Sql.select_identity.
  by rewrite Hdev, Hbm.
Qed.

Lemma orphan_ext (d d' : DB) row :
  devices d' = devices d → buildmanifest d' = buildmanifest d →
  orphan d' identifier row = orphan d identifier row.
Proof.
  intros Hdev Hbm. unfold orphan, Sql.select_boardconfig, Sql.select_identity.
  by rewrite Hdev, Hbm.
Qed.

Lemma orphan_record (d : DB) row :
  orphan d identifier row = true → record size_column w d identifier row = None.
Proof.
  unfold orphan, record, verdict. intros [_ H]%andb_prop.
  destruct (Sql.select_boardconfig _ _) as [boardconfig|]; [|done].
  apply bool_decide_eq_true in H. by rewrite H.
Qed.

(** X26.  A request, under any schedule and whether it returns or raises,
    never changes [devices] or [buildmanifest], adds no firmware row and
    changes none, and changes no key other than [signed] in a record that
    existed before the request. *)
Theorem request_stays_in_frame s s' o :
  get_beta_firmwares size_column w identifier s s' o →
  devices (db s') = devices (db s) ∧
  buildmanifest (db s') = buildmanifest (db s) ∧
  firmwares (db s') `sublist_of` firmwares (db s) ∧
  ∀ r key, is_Some (heap s !! r) → key ≠ "signed" →
           dict_of s' r !! key = dict_of s r !! key.
Proof. apply request_tables_frame. Qed.



(** X29.  After a request that returned, a second request for the same
    identifier on the same network answers can run, and every run of it
    returns the same records in the same order and leaves the tables as the
    first request left them. *)
Theorem request_idempotent s s1 response :
  get_beta_firmwares size_column w identifier s s1 (inr response) →
  (∃ s2 o, get_beta_firmwares size_column w identifier s1 s2 o) ∧
  ∀ s2 o,
    get_beta_firmwares size_column w identifier s1 s2 o →
    db s2 = db s1 ∧
    ∃ response',
      o = inr response' ∧
      dict_of s2 <$> response' = dict_of s1 <$> response.
Proof.
  intros Hfirst. split; [apply request_total|].
  pose proof (returned_tables _ _ _ _ _ _ Hfirst) as Hdb1.
  destruct (returned_answer _ _ _ _ _ _ Hfirst) as [Hanswer1 Hverdicts].
  assert (devices (db s1) = devices (db s)) as Hdev by (by rewrite Hdb1).
  assert (buildmanifest (db s1) = buildmanifest (db s)) as Hbm
    by (by rewrite Hdb1).
  assert (Sql.select_firmwares (Str.around identifier) (db s1)
          = List.filter (λ row, negb (orphan (db s) identifier row))
              (Sql.select_firmwares (Str.around identifier) (db s))) as Hrows.
  { unfold Sql.select_firmwares. rewrite Hdb1. cbn [firmwares].
    rewrite !filter_filter. apply filter_ext_in. intros row _.
    apply andb_comm. }
  intros s2 o Hsecond. split.
  - destruct o as [e|response'].
    + apply raised_verdict in Hsecond as (row & Hrow & Hverdict).
      rewrite Hrows in Hrow.
      apply list_elem_of_In, filter_In in Hrow as [Hrow%list_elem_of_In _].
      rewrite (verdict_ext _ _ _ Hdev Hbm) in Hverdict.
      eapply Forall_forall in Hverdicts as [? Hok]; [|exact Hrow]. congruence.
    + rewrite (returned_tables _ _ _ _ _ _ Hsecond).
      apply db_eq; cbn [devices firmwares buildmanifest]; try done.
      apply filter_all. intros row Hrow.
      rewrite (orphan_ext _ _ _ Hdev Hbm). rewrite Hdb1 in Hrow.
      by apply list_elem_of_In, filter_In in Hrow as [_ Hrow].
  - destruct o as [e|response'].
    + apply raised_verdict in Hsecond as (row & Hrow & Hverdict).
      rewrite Hrows in Hrow.
      apply list_elem_of_In, filter_In in Hrow as [Hrow%list_elem_of_In _].
      rewrite (verdict_ext _ _ _ Hdev Hbm) in Hverdict.
      eapply Forall_forall in Hverdicts as [? Hok]; [|exact Hrow]. congruence.
    + exists response'. split; [done|].
      apply returned_answer in Hsecond as [Hanswer2 _].
      rewrite Hanswer2, Hanswer1. unfold answer. rewrite Hrows. f_equal.
      rewrite omap_filter.
      * apply omap_ext. intros row. unfold record.
        by rewrite (verdict_ext _ _ _ Hdev Hbm).
      * intros row Horphan%negb_false_iff. unfold record.
        rewrite (verdict_ext _ _ _ Hdev Hbm). by apply orphan_record.
Qed.

End ServiceRequests.

(* ===================================================================== *)
(** * The query service on the example                                    *)
(* ===================================================================== *)



Lemma request_stays_in_frame_witness :
  devices (db orphan_answered_store) = devices (db orphan_store) ∧
  buildmanifest (db orphan_answered_store) = buildmanifest (db orphan_store) ∧
  firmwares (db orphan_answered_store) `sublist_of` firmwares (db orphan_store) ∧
  ∀ r key, is_Some (heap orphan_store !! r) → key ≠ "signed" →
           dict_of orphan_answered_store r !! key = dict_of orphan_store r !! key.
Proof.
  apply (request_stays_in_frame example_size_column example_world "iPhone10,3"
           orphan_store orphan_answered_store (inr [])).
  assert (allocated orphan_store
            (dict_of_row example_size_column
               <$> Sql.select_firmwares (Str.around "iPhone10,3") (db orphan_store))
            [1%nat]
            (Store (db orphan_store)
               {[ 0%nat := example_dict;
                  1%nat := dict_of_row example_size_column example_firmware_row ]}))
    as Halloc.
  { split; [reflexivity|]. split; [apply NoDup_singleton|].
    split; [by repeat constructor|]. vm_compute. reflexivity. }
  refine (get_beta_firmwares_returns example_size_column example_world
            "iPhone10,3" orphan_store [1%nat] _
            example_request_schedule _ [None] Halloc eq_refl _ _).
  - vm_compute. repeat constructor.
  - constructor.
Defined.



Lemma request_idempotent_witness :
  (∃ s2 o, get_beta_firmwares example_size_column example_world "iPhone10,3"
             example_answered_store s2 o) ∧
  ∀ s2 o,
    get_beta_firmwares example_size_column example_world "iPhone10,3"
      example_answered_store s2 o →
    db s2 = db example_answered_store ∧
    ∃ response',
      o = inr response' ∧
      dict_of s2 <$> response' = dict_of example_answered_store <$> [0%nat].
Proof.
  apply (request_idempotent example_size_column example_world "iPhone10,3"
           harvested_store example_answered_store [0%nat]).
  assert (allocated harvested_store
            (dict_of_row example_size_column
               <$> Sql.select_firmwares (Str.around "iPhone10,3") (db harvested_store))
            [0%nat] example_request_store) as Halloc.
  { split; [reflexivity|]. split; [apply NoDup_singleton|].
    split; [by repeat constructor|]. vm_compute. reflexivity. }
  refine (get_beta_firmwares_returns example_size_column example_world
            "iPhone10,3" harvested_store [0%nat] example_request_store
            example_request_schedule _ [Some 0%nat] Halloc eq_refl _ _).
  - vm_compute. repeat constructor.
  - constructor; [|constructor]. exists "20A5283p". vm_compute. reflexivity.
Defined.

Section ServiceRecords.

Context (size_column : string → pyval) (w : world) (identifier : string).



End ServiceRecords.

